(** * The reduce operation of motion/operations/reduce.py

    A shallow embedding of [ReduceOperation]: grouping by the reduce key,
    the three reduction strategies (batch, incremental, parallel fold and
    merge), the rolling telemetry windows, the lane estimate and the
    configuration check, together with the properties stated for them.

    Conventions of the embedding:
    - a Python [dict] with string keys is a [gmap string _];
    - Python floats are reached through the interface [PyFloat], of which
      the IEEE 754 binary64 numbers are the instance the worked instances
      compute with; the operations of Python that raise on floats
      ([ZeroDivisionError], [OverflowError], [ValueError]) raise here;
      costs are exact rationals ([Qc]), so that sums do not depend on
      their order;
    - the model service, the schema validator, the wall clock and the
      thread pool are outside this module: they are the fields of
      [ModelService] and [Scheduler];
    - a method of the operation is a computation in the monad [M], which
      threads the telemetry windows and a log of the calls made to the
      model service, and which can raise or run out of fuel;
    - tasks submitted to a thread pool take effect one after the other, in
      the order in which [as_completed] yields them, which the scheduler
      chooses freely among the permutations of the tasks. *)

From Stdlib Require Import ZArith QArith Qcanon Reals Lra Lia.
From Stdlib Require Floats.
From stdpp Require Import base tactics option numbers list sorting.
From stdpp Require Import gmap strings fin_maps.

Local Open Scope Z_scope.
Local Open Scope nat_scope.

(** ** Python floats *)

(** The float operations the module uses, where they return: conversion
    from an [int] that has a float ([float_fits]), [+], [*], [/] by a
    divisor that is not zero ([float_is_zero]), [math.log] of a positive
    [int], and [int(x)], which truncates towards zero, of an [x] that is
    neither an infinity ([float_is_inf]) nor a NaN ([float_is_nan]).  What
    Python does outside these domains is [py_float], [py_log], [py_truediv]
    and [py_int] below. *)
Class PyFloat := {
  float : Type;
  float_of_int : Z → float;
  float_add : float → float → float;
  float_mul : float → float → float;
  float_div : float → float → float;
  math_log : Z → float;
  int_of_float : float → Z;
  float_fits : Z → bool;
  float_is_zero : float → bool;
  float_is_inf : float → bool;
  float_is_nan : float → bool;
}.

(** ** Records, configuration, model service *)

Inductive exception :=
  | KeyError (k : string)
  | ValueError (msg : string)
  | ZeroDivisionError (msg : string)
  | OverflowError (msg : string).

Inductive outcome (A : Type) :=
  | Ok (a : A)
  | Raise (e : exception)
  | Diverge.
Arguments Ok {A} a.
Arguments Raise {A} e.
Arguments Diverge {A}.

Section Reduce.
Context `{PyFloat}.
(** Field values: any type with Python's [==] (decidable equality) and [<]. *)
Context {Value : Type} `{EqDecision Value} (val_lt : Value → Value → bool).

Abbreviation Record := (gmap string Value).
Abbreviation Schema := (gmap string string).

(** [self.config], as [syntax_check] leaves it: [reduce_key], [prompt] and
    [output.schema] are present, the batch sizes are present where a fold or
    merge prompt is.  [input_schema] is
    [self.config.get("input", {}).get("schema", {})], [pass_through] is
    [self.config.get("pass_through", False)] and [model] is
    [self.config.get("model", self.default_model)].  A configured
    [fold_time] or [merge_time] is a float. *)
Record Config := {
  reduce_key : string;
  prompt : string;
  output_schema : Schema;
  input_schema : Schema;
  fold_prompt : option string;
  fold_batch_size : nat;
  merge_prompt : option string;
  merge_batch_size : nat;
  fold_time : option float;
  merge_time : option float;
  pass_through : bool;
  gleaning : option (string * Z);
  model : string;
}.

(** The bindings a template is rendered with. *)
Inductive Bindings :=
  | ReduceBindings (key : Value) (values : list Record)
  | FoldBindings (values : list Record) (output : Record)
  | MergeBindings (outputs : list Record) (key : Value).

(** A template together with the bindings it is rendered with: the
    renderer is a pure function of both. *)
Record Prompt := { template : string; bindings : Bindings }.

(** The collaborators: [call_llm], [call_llm_with_gleaning],
    [parse_llm_response] and [validate_output] of motion.operations.utils,
    [completion_cost] of litellm and the clock.  They live outside this
    module and are taken as parameters.  The first argument of a call is
    the number of calls made before it, so that two calls with one prompt
    may answer differently; [elapsed n] is the wall-clock time measured
    around the call made after [n] others; [parse_llm_response] stands for
    the first record of the parsed response. *)
Class ModelService := {
  Response : Type;
  call_llm : nat → string → string → Prompt → Schema → Response;
  call_llm_with_gleaning :
    nat → string → string → Prompt → Schema → string → Z → Response * Qc;
  completion_cost : Response → Qc;
  parse_llm_response : Response → Record;
  validate_output : Config → Record → bool;
  elapsed : nat → float;
}.

(** [concurrent.futures.as_completed]: the futures in the order in which
    they complete, which is some permutation of the order of submission. *)
Class Scheduler := {
  as_completed : ∀ A : Type, nat → list A → list A;
  as_completed_perm : ∀ A n (l : list A), as_completed A n l ≡ₚ l;
}.

Context `{ModelService} `{Scheduler}.

(** One entry of the log of the model service. *)
Inductive Call :=
  | LLMCall (op_type : string) (p : Prompt) (r : Response)
  | GleaningCall (op_type : string) (p : Prompt) (r : Response) (cost : Qc).

Definition call_cost (c : Call) : Qc :=
  match c with
  | LLMCall _ _ r => completion_cost r
  | GleaningCall _ _ r cost => (cost + completion_cost r)%Qc
  end.

(** ** State of the operation instance *)

Definition min_samples : nat := 5.
Definition max_samples : nat := 1000.

(** [self.fold_times], [self.merge_times] and the log of calls. *)
Record State := {
  fold_times : list float;
  merge_times : list float;
  calls : list Call;
}.

(** [__init__]: two empty deques. *)
Definition init : State :=
  {| fold_times := []; merge_times := []; calls := [] |}.

(** [deque(maxlen=n).append(x)]: append on the right, then drop on the left
    when the length exceeds [maxlen]. *)
Definition deque_append {A} (maxlen : nat) (d : list A) (x : A) : list A :=
  let d' := d ++ [x] in
  if decide (maxlen < length d') then drop 1 d' else d'.

(** ** The monad of the operation's methods *)

Definition M (A : Type) : Type := State → outcome A * State.

Definition ret {A} (a : A) : M A := λ st, (Ok a, st).
Definition raise {A} (e : exception) : M A := λ st, (Raise e, st).
Definition diverge {A} : M A := λ st, (Diverge, st).
Definition bind {A B} (m : M A) (f : A → M B) : M B :=
  λ st, match m st with
        | (Ok a, st') => f a st'
        | (Raise e, st') => (Raise e, st')
        | (Diverge, st') => (Diverge, st')
        end.

#[export] Instance M_ret : MRet M := @ret.
#[export] Instance M_bind : MBind M := λ A B f m, bind m f.

(** Run the computations one after the other. *)
Fixpoint sequence {A} (ms : list (M A)) : M (list A) :=
  match ms with
  | [] => ret []
  | m :: ms' => x ← m; xs ← sequence ms'; ret (x :: xs)
  end.

(** [executor.submit] of every task followed by [as_completed]: the tasks
    take effect, and their results are seen, in the order of completion. *)
Definition gather {A} (tasks : list (M A)) : M (list A) :=
  λ st, sequence (as_completed _ (length (calls st)) tasks) st.

Variable config : Config.

(** ** Telemetry (lines 474-522) *)

Definition float_sum (l : list float) : float :=
  foldl float_add (float_of_int 0) l.

Definition mean (l : list float) : float :=
  float_div (float_sum l) (float_of_int (Z.of_nat (length l))).

Definition get_fold_time : M (float * bool) :=
  λ st,
    match fold_time config with
    | Some t => (Ok (t, false), st)
    | None =>
        if decide (min_samples ≤ length (fold_times st))
        then (Ok (mean (fold_times st), false), st)
        else (Ok (float_of_int 1, true), st)
    end.

Definition get_merge_time : M (float * bool) :=
  λ st,
    match merge_time config with
    | Some t => (Ok (t, false), st)
    | None =>
        if decide (min_samples ≤ length (merge_times st))
        then (Ok (mean (merge_times st), false), st)
        else (Ok (float_of_int 1, true), st)
    end.

Definition _update_fold_time (time : float) : M unit :=
  λ st, (Ok (), {| fold_times := deque_append max_samples (fold_times st) time;
                   merge_times := merge_times st;
                   calls := calls st |}).

Definition _update_merge_time (time : float) : M unit :=
  λ st, (Ok (), {| fold_times := fold_times st;
                   merge_times := deque_append max_samples (merge_times st) time;
                   calls := calls st |}).

(** ** Lane estimate (lines 269-282) *)

(** The conversion of an [int] operand of a float operation: an [int]
    with no float raises [OverflowError]. *)
Definition py_float (n : Z) : M float :=
  if float_fits n then ret (float_of_int n)
  else raise (OverflowError "int too large to convert to float").

(** [math.log(n)] of an [int]: [ValueError] unless [n] is positive. *)
Definition py_log (n : Z) : M float :=
  if decide (0 < n)%Z then ret (math_log n)
  else raise (ValueError "math domain error").

(** [x / y] on floats: [ZeroDivisionError] when [y] is zero. *)
Definition py_truediv (x y : float) : M float :=
  if float_is_zero y then raise (ZeroDivisionError "float division by zero")
  else ret (float_div x y).

(** [int(x)]: [OverflowError] for an infinity, [ValueError] for a NaN. *)
Definition py_int (x : float) : M Z :=
  if float_is_inf x
  then raise (OverflowError "cannot convert float infinity to integer")
  else if float_is_nan x
  then raise (ValueError "cannot convert float NaN to integer")
  else ret (int_of_float x).

(** The arithmetic of [calculate_num_parallel_folds] (lines 274-280), its
    operands evaluated from left to right. *)
Definition estimate_parallel_folds
    (fold_time merge_time : float) (num_group_items : nat)
    (fold_batch_size merge_batch_size : nat) : M Z :=
  items ← py_float (Z.of_nat num_group_items);
  log ← py_log (Z.of_nat merge_batch_size);
  size ← py_float (Z.of_nat fold_batch_size);
  quotient ←
    py_truediv (float_mul (float_mul fold_time items) log)
      (float_mul size merge_time);
  lanes ← py_int quotient;
  ret (Z.max 1 lanes).

Definition calculate_num_parallel_folds (group_list : list Record)
    : M (Z * bool) :=
  '(fold_time, fold_default) ← get_fold_time;
  '(merge_time, merge_default) ← get_merge_time;
  let num_group_items := length group_list in
  lanes ←
    estimate_parallel_folds fold_time merge_time num_group_items
      (fold_batch_size config) (merge_batch_size config);
  ret (lanes, fold_default || merge_default).

(** ** Slices and ranges *)

(** [l[i:j]] for [0 <= i]. *)
Definition slice {A} (l : list A) (i j : nat) : list A :=
  take (j - i) (drop i l).

(** [range(0, stop, step)]; a zero step raises [ValueError]. *)
Definition range_list (stop step : nat) : list nat :=
  (λ j, j * step) <$> seq 0 ((stop + step - 1) / step).

Definition range_step (stop step : nat) : M (list nat) :=
  if decide (step = 0) then raise (ValueError "range() arg 3 must not be zero")
  else ret (range_list stop step).

(** ** Calls to the model service *)

Definition log_call (c : Call) : M unit :=
  λ st, (Ok (), {| fold_times := fold_times st;
                   merge_times := merge_times st;
                   calls := calls st ++ [c] |}).

(** The number of calls made so far. *)
Definition tick : M nat := λ st, (Ok (length (calls st)), st).

Definition llm (op_type : string) (p : Prompt) : M Response :=
  n ← tick;
  let response :=
    call_llm n (model config) op_type p (output_schema config) in
  _ ← log_call (LLMCall op_type p response);
  ret response.

Definition llm_with_gleaning (op_type : string) (p : Prompt)
    (validation_prompt : string) (num_rounds : Z) : M (Response * Qc) :=
  n ← tick;
  let '(response, gleaning_cost) :=
    call_llm_with_gleaning n (model config) op_type p (output_schema config)
      validation_prompt num_rounds in
  _ ← log_call (GleaningCall op_type p response gleaning_cost);
  ret (response, gleaning_cost).

(** ** The reduction primitives (lines 400-472 and 524-569) *)

Definition _batch_reduce (key : Value) (group_list : list Record)
    : M (option Record * Qc) :=
  let rendered :=
    {| template := prompt config; bindings := ReduceBindings key group_list |} in
  let item_cost := 0%Qc in
  '(response, item_cost) ←
    match gleaning config with
    | Some (validation_prompt, num_rounds) =>
        '(response, gleaning_cost) ←
          llm_with_gleaning "reduce" rendered validation_prompt num_rounds;
        ret (response, (item_cost + gleaning_cost)%Qc)
    | None =>
        response ← llm "reduce" rendered;
        ret (response, item_cost)
    end;
  let item_cost := (item_cost + completion_cost response)%Qc in
  let output := <[reduce_key config := key]> (parse_llm_response response) in
  if validate_output config output then ret (Some output, item_cost)
  else ret (None, item_cost).

Definition _increment_fold (key : Value) (batch : list Record)
    (current_output : option Record) : M (option Record * Qc) :=
  match current_output with
  | None => _batch_reduce key batch
  | Some current_output =>
      start ← tick;
      match fold_prompt config with
      | None => raise (KeyError "fold_prompt")
      | Some t =>
          response ←
            llm "reduce"
              {| template := t; bindings := FoldBindings batch current_output |};
          let folded_output :=
            <[reduce_key config := key]> (parse_llm_response response) in
          let fold_cost := completion_cost response in
          _ ← _update_fold_time (elapsed start);
          if validate_output config folded_output
          then ret (Some folded_output, fold_cost)
          else ret (None, fold_cost)
      end
  end.

Definition _merge_results (key : Value) (outputs : list Record)
    : M (option Record * Qc) :=
  start ← tick;
  match merge_prompt config with
  | None => raise (KeyError "merge_prompt")
  | Some t =>
      response ←
        llm "merge" {| template := t; bindings := MergeBindings outputs key |};
      let merged_output :=
        <[reduce_key config := key]> (parse_llm_response response) in
      let merge_cost := completion_cost response in
      _ ← _update_merge_time (elapsed start);
      if validate_output config merged_output
      then ret (Some merged_output, merge_cost)
      else ret (None, merge_cost)
  end.

(** ** Incremental reduce (lines 383-398) *)

Fixpoint incremental_loop (key : Value) (group_list : list Record)
    (indices : list nat) (current_output : option Record) (total_cost : Qc)
    : M (option Record * Qc) :=
  match indices with
  | [] => ret (current_output, total_cost)
  | i :: indices' =>
      let batch := slice group_list i (i + fold_batch_size config) in
      '(folded_output, fold_cost) ← _increment_fold key batch current_output;
      let total_cost := (total_cost + fold_cost)%Qc in
      match folded_output with
      | None => ret (None, total_cost)
      | Some _ =>
          incremental_loop key group_list indices' folded_output total_cost
      end
  end.

Definition _incremental_reduce (key : Value) (group_list : list Record)
    : M (option Record * Qc) :=
  indices ← range_step (length group_list) (fold_batch_size config);
  incremental_loop key group_list indices None 0%Qc.

(** ** Parallel fold and merge (lines 265-365) *)

(** The loop over the completed futures: the cost of each is added, the
    result of each is appended unless it is [None]. *)
Definition collect (outs : list (option Record * Qc)) (total_cost : Qc)
    : list Record * Qc :=
  foldl (λ acc out,
           (match out.1 with Some r => acc.1 ++ [r] | None => acc.1 end,
            (acc.2 + out.2)%Qc))
        ([], total_cost) outs.

(** The submission loop of the folding phase (lines 293-301): [n] lanes from
    lane [i] on, each taking the next batch and its prior accumulator. *)
Fixpoint fold_jobs (n i : nat) (remaining_items fold_results : list Record)
    : list (list Record * option Record) * list Record :=
  match n with
  | 0 => ([], remaining_items)
  | S n' =>
      let batch := take (fold_batch_size config) remaining_items in
      let remaining_items := drop (fold_batch_size config) remaining_items in
      let current_output := fold_results !! i in
      let '(jobs, remaining_items) :=
        fold_jobs n' (S i) remaining_items fold_results in
      ((batch, current_output) :: jobs, remaining_items)
  end.

(** The folding phase (lines 292-311): the remaining items, the lane
    accumulators and the running cost after it. *)
Definition fold_phase (key : Value) (num_parallel_folds : Z)
    (remaining_items fold_results : list Record) (total_cost : Qc)
    : M (list Record * list Record * Qc) :=
  let n := Z.to_nat (Z.min num_parallel_folds
                       (Z.of_nat (length remaining_items))) in
  let '(jobs, remaining_items) := fold_jobs n 0 remaining_items fold_results in
  outs ← gather ((λ job, _increment_fold key job.1 job.2) <$> jobs);
  let '(new_fold_results, total_cost) := collect outs total_cost in
  let fold_results :=
    new_fold_results ++ drop (length new_fold_results) fold_results in
  ret (remaining_items, fold_results, total_cost).

(** One pass of merging in chunks of [merge_batch_size] (lines 318-332 and
    349-363). *)
Definition merge_round (key : Value) (fold_results : list Record)
    (total_cost : Qc) : M (list Record * Qc) :=
  indices ← range_step (length fold_results) (merge_batch_size config);
  outs ← gather
    ((λ i, _merge_results key
             (slice fold_results i (i + merge_batch_size config)))
       <$> indices);
  ret (collect outs total_cost).

Definition merge_samples : M nat := λ st, (Ok (length (merge_times st)), st).

(** The loop [while remaining_items] (lines 290-343). *)
Fixpoint fold_merge_loop (fuel : nat) (key : Value) (group_list : list Record)
    (num_parallel_folds : Z) (used_default_times : bool)
    (remaining_items fold_results : list Record) (total_cost : Qc)
    : M (list Record * Qc) :=
  match remaining_items with
  | [] => ret (fold_results, total_cost)
  | _ :: _ =>
      match fuel with
      | 0 => diverge
      | S fuel' =>
          '(remaining_items, fold_results, total_cost) ←
            fold_phase key num_parallel_folds remaining_items fold_results
              total_cost;
          samples ← merge_samples;
          '(fold_results, total_cost) ←
            (if decide (samples < min_samples
                        ∧ merge_batch_size config ≤ length fold_results)
             then merge_round key fold_results total_cost
             else ret (fold_results, total_cost));
          '(num_parallel_folds, used_default_times) ←
            (if used_default_times
             then
               '(new_num_parallel_folds, used_default_times) ←
                 calculate_num_parallel_folds group_list;
               ret ((if used_default_times : bool then num_parallel_folds
                     else new_num_parallel_folds),
                    used_default_times)
             else ret (num_parallel_folds, used_default_times));
          fold_merge_loop fuel' key group_list num_parallel_folds
            used_default_times remaining_items fold_results total_cost
      end
  end.

(** The loop [while len(fold_results) > 1] (lines 347-363). *)
Fixpoint final_merge (fuel : nat) (key : Value) (fold_results : list Record)
    (total_cost : Qc) : M (list Record * Qc) :=
  if decide (1 < length fold_results) then
    match fuel with
    | 0 => diverge
    | S fuel' =>
        '(fold_results, total_cost) ← merge_round key fold_results total_cost;
        final_merge fuel' key fold_results total_cost
    end
  else ret (fold_results, total_cost).

Definition _parallel_fold_and_merge (fuel : nat) (key : Value)
    (group_list : list Record) : M (option Record * Qc) :=
  let total_cost := 0%Qc in
  '(num_parallel_folds, used_default_times) ←
    calculate_num_parallel_folds group_list;
  '(fold_results, total_cost) ←
    fold_merge_loop fuel key group_list num_parallel_folds used_default_times
      group_list [] total_cost;
  '(fold_results, total_cost) ← final_merge fuel key fold_results total_cost;
  ret (head fold_results, total_cost).

(** ** execute (lines 185-241) *)

(** [itemgetter(k)(item)], that is [item[k]]. *)
Definition itemgetter (k : string) (item : Record) : M Value :=
  match item !! k with
  | Some v => ret v
  | None => raise (KeyError k)
  end.

(** [sorted(l, key=f)]: the keys of all items are computed first, then the
    items are sorted by key with [<] alone, equal keys keeping their order.
    Insertion from the right is one such stable sort. *)
Fixpoint insert_by_key (x : Value * Record) (l : list (Value * Record))
    : list (Value * Record) :=
  match l with
  | [] => [x]
  | y :: l' =>
      if val_lt y.1 x.1 then y :: insert_by_key x l' else x :: y :: l'
  end.

Definition sort_by_key (l : list (Value * Record)) : list (Value * Record) :=
  foldr insert_by_key [] l.

Definition sorted (key : Record → M Value) (l : list Record)
    : M (list Record) :=
  keys ← sequence (key <$> l);
  ret ((sort_by_key (zip keys l)).*2).

(** [itertools.groupby]: an item belongs to the running group as long as
    its key equals the key the group started with.  [grouper] returns the
    rest of the running group and the groups after it. *)
Fixpoint grouper (key : Record → M Value) (tgtkey : Value) (it : list Record)
    : M (list Record * list (Value * list Record)) :=
  match it with
  | [] => ret ([], [])
  | x :: it' =>
      currkey ← key x;
      if decide (currkey = tgtkey) then
        '(g, gs) ← grouper key tgtkey it';
        ret (x :: g, gs)
      else
        '(g, gs) ← grouper key currkey it';
        ret ([], (currkey, x :: g) :: gs)
  end.

Definition groupby (key : Record → M Value) (it : list Record)
    : M (list (Value * list Record)) :=
  match it with
  | [] => ret []
  | x :: it' =>
      currkey ← key x;
      '(g, gs) ← grouper key currkey it';
      ret ((currkey, x :: g) :: gs)
  end.

(** [{k: item[k] for k in input_schema.keys() if k in item}] *)
Definition project (item : Record) : Record :=
  map_imap (λ k _, item !! k) (input_schema config).

(** The body of the pass-through loop (lines 216-218). *)
Definition pass_through_step (result : Record) (kv : string * Value) : Record :=
  if decide (output_schema config !! kv.1 = None ∧ result !! kv.1 = None)
  then <[kv.1 := kv.2]> result
  else result.

(** The rebinding of [group_list] under [if input_schema] (lines 197-201):
    an empty schema is falsy. *)
Definition strategy_input (group_list : list Record) : list Record :=
  if decide (input_schema config = ∅) then group_list
  else project <$> group_list.

(** The choice of the strategy (lines 203-208). *)
Definition run_strategy (fuel : nat) (key : Value) (group_list : list Record)
    : M (option Record * Qc) :=
  match merge_prompt config, fold_prompt config with
  | Some _, _ => _parallel_fold_and_merge fuel key group_list
  | None, Some _ => _incremental_reduce key group_list
  | None, None => _batch_reduce key group_list
  end.

Definition process_group (fuel : nat) (key : Value) (group_list : list Record)
    : M (option Record * Qc) :=
  let group_list := strategy_input group_list in
  '(result, cost) ← run_strategy fuel key group_list;
  match result, pass_through config, group_list with
  | Some result, true, first :: _ =>
      ret (Some (foldl pass_through_step result (map_to_list first)), cost)
  | _, _, _ => ret (result, cost)
  end.

(** Sorting and grouping by the reduce key (lines 189-192). *)
Definition grouping (input_data : list Record)
    : M (list (Value * list Record)) :=
  sorted_data ← sorted (itemgetter (reduce_key config)) input_data;
  groupby (itemgetter (reduce_key config)) sorted_data.

Definition execute (fuel : nat) (input_data : list Record)
    : M (list Record * Qc) :=
  grouped_data ← grouping input_data;
  outs ← gather ((λ kg, process_group fuel kg.1 kg.2) <$> grouped_data);
  ret (collect outs 0%Qc).

End Reduce.

(** * The configuration check (lines 72-170)

    [syntax_check] reads [self.config] as it was loaded: a dictionary with
    string keys whose values are any of the values of YAML or JSON. *)

#[warnings="-register-all"]
Inductive PyVal :=
  | PyNone
  | PyBool (b : bool)
  | PyInt (n : Z)
  | PyReal (x : Q)
  | PyStr (s : string)
  | PyList (l : list PyVal)
  | PyDict (d : gmap string PyVal).

(** The classes of the exceptions of the check; their messages are left
    out. *)
Inductive config_error :=
  | ConfigValueError
  | ConfigTypeError
  | ConfigKeyError.

(** The outcome of a check: an exception, or a value. *)
Definition Verdict (A : Type) : Type := config_error + A.

#[export] Instance Verdict_bind : MBind Verdict :=
  λ A B f m, match m with inl e => inl e | inr a => f a end.

Definition accept : Verdict unit := inr ().

(** [if not c: raise e] *)
Definition unless (c : bool) (e : config_error) : Verdict unit :=
  if c then accept else inl e.

Definition is_dict (v : PyVal) : bool :=
  match v with PyDict _ => true | _ => false end.

Definition is_str (v : PyVal) : bool :=
  match v with PyStr _ => true | _ => false end.

(** [isinstance(v, int)]: [bool] is a subclass of [int]. *)
Definition is_int (v : PyVal) : bool :=
  match v with PyInt _ | PyBool _ => true | _ => false end.

(** [v <= 0] for an instance of [int]: [True] is 1 and [False] is 0. *)
Definition int_le_0 (v : PyVal) : bool :=
  match v with
  | PyInt n => bool_decide (n ≤ 0)%Z
  | PyBool b => negb b
  | _ => false
  end.

(** The integer an instance of [int] stands for: [True] is 1 and [False]
    is 0. *)
Definition int_value (v : PyVal) : option Z :=
  match v with
  | PyInt n => Some n
  | PyBool b => Some (if b then 1 else 0)%Z
  | _ => None
  end.

(** The truth value of a dictionary: it is not empty. *)
Definition dict_truthy (v : PyVal) : bool :=
  match v with PyDict d => negb (bool_decide (d = ∅)) | _ => true end.

(** [needle in container] for a string [needle]: a key of a dictionary, a
    substring of a string, an element of a list; other values are not
    iterable. *)
Definition py_in (needle : string) (container : PyVal) : Verdict bool :=
  match container with
  | PyDict d => inr (bool_decide (is_Some (d !! needle)))
  | PyStr s => inr (bool_decide (is_Some (String.index 0 needle s)))
  | PyList l =>
      inr (existsb (λ v, match v with
                         | PyStr s => bool_decide (s = needle)
                         | _ => false
                         end) l)
  | PyNone | PyBool _ | PyInt _ | PyReal _ => inl ConfigTypeError
  end.

(** [container[k]] for a string [k]: only a dictionary can be indexed by
    a string. *)
Definition py_getitem (container : PyVal) (k : string) : Verdict PyVal :=
  match container with
  | PyDict d =>
      match d !! k with Some v => inr v | None => inl ConfigKeyError end
  | _ => inl ConfigTypeError
  end.

(** [container["schema"]] after the test [if "schema" not in container],
    which raises [ValueError] (lines 79-82 and 157-159). *)
Definition schema_of (container : PyVal) : Verdict PyVal :=
  has_schema ← py_in "schema" container;
  _ ← unless has_schema ConfigValueError;
  py_getitem container "schema".

Section SyntaxCheck.
(** The names of a Jinja2 template ([Template(source)] and
    [parse(source).find_all(Name)]), or [None] when either raises; and
    [gleaning_check] of the base class. *)
Variable template_names : PyVal → option (list string).
Variable gleaning_check : gmap string PyVal → Verdict unit.

Definition has (config : gmap string PyVal) (k : string) : bool :=
  bool_decide (is_Some (config !! k)).

Definition config_getitem (config : gmap string PyVal) (k : string)
    : Verdict PyVal :=
  match config !! k with Some v => inr v | None => inl ConfigKeyError end.

(** The [try] blocks of lines 89-98, 113-125 and 134-145: whatever is
    raised inside, the missing variable included, is raised again as a
    [ValueError]. *)
Definition check_template (source : PyVal) (required : list string)
    : Verdict unit :=
  match template_names source with
  | Some names =>
      unless (forallb (λ v, bool_decide (v ∈ names)) required) ConfigValueError
  | None => inl ConfigValueError
  end.

(** Lines 72-77. *)
Fixpoint check_required (config : gmap string PyVal) (keys : list string)
    : Verdict unit :=
  match keys with
  | [] => accept
  | key :: keys' =>
      _ ← unless (has config key) ConfigValueError;
      check_required config keys'
  end.

(** Lines 79-86. *)
Definition check_output (config : gmap string PyVal) : Verdict unit :=
  output ← config_getitem config "output";
  schema ← schema_of output;
  _ ← unless (is_dict schema) ConfigTypeError;
  unless (dict_truthy schema) ConfigValueError.

(** Lines 89-98. *)
Definition check_prompt (config : gmap string PyVal) : Verdict unit :=
  prompt ← config_getitem config "prompt";
  check_template prompt ["values"].

(** Lines 101-125. *)
Definition check_fold (config : gmap string PyVal) : Verdict unit :=
  _ ← (if has config "merge_prompt"
       then unless (has config "fold_prompt") ConfigValueError
       else accept);
  if has config "fold_prompt" then
    _ ← unless (has config "fold_batch_size") ConfigValueError;
    fold_prompt ← config_getitem config "fold_prompt";
    check_template fold_prompt ["values"; "output"]
  else accept.

(** Lines 128-145. *)
Definition check_merge (config : gmap string PyVal) : Verdict unit :=
  if has config "merge_prompt" then
    _ ← unless (has config "merge_batch_size") ConfigValueError;
    merge_prompt ← config_getitem config "merge_prompt";
    check_template merge_prompt ["outputs"]
  else accept.

(** Lines 148-153. *)
Definition check_model_and_key (config : gmap string PyVal) : Verdict unit :=
  _ ← (if has config "model" then
         model ← config_getitem config "model";
         unless (is_str model) ConfigTypeError
       else accept);
  reduce_key ← config_getitem config "reduce_key";
  unless (is_str reduce_key) ConfigTypeError.

(** Lines 156-162. *)
Definition check_input (config : gmap string PyVal) : Verdict unit :=
  if has config "input" then
    input ← config_getitem config "input";
    schema ← schema_of input;
    unless (is_dict schema) ConfigTypeError
  else accept.

(** Lines 165-168. *)
Fixpoint check_sizes (config : gmap string PyVal) (keys : list string)
    : Verdict unit :=
  match keys with
  | [] => accept
  | key :: keys' =>
      _ ← (if has config key then
             size ← config_getitem config key;
             unless (is_int size && negb (int_le_0 size)) ConfigValueError
           else accept);
      check_sizes config keys'
  end.

Definition syntax_check (config : gmap string PyVal) : Verdict unit :=
  _ ← check_required config ["reduce_key"; "prompt"; "output"];
  _ ← check_output config;
  _ ← check_prompt config;
  _ ← check_fold config;
  _ ← check_merge config;
  _ ← check_model_and_key config;
  _ ← check_input config;
  _ ← check_sizes config ["fold_batch_size"; "merge_batch_size"];
  gleaning_check config.

(** ** What an accepted configuration looks like *)

(** A positive integer, or [True]. *)
Definition positive_int (v : PyVal) : Prop :=
  (∃ n, v = PyInt n ∧ (0 < n)%Z) ∨ v = PyBool true.

(** A template of which every name of [required] is a variable. *)
Definition template_with (required : list string) (source : PyVal) : Prop :=
  ∃ names, template_names source = Some names
           ∧ Forall (λ v, v ∈ names) required.

Record accepted_shape (config : gmap string PyVal) : Prop := {
  shape_reduce_key : ∃ s, config !! "reduce_key" = Some (PyStr s);
  shape_output :
    ∃ output schema,
      config !! "output" = Some (PyDict output)
      ∧ output !! "schema" = Some (PyDict schema) ∧ schema ≠ ∅;
  shape_prompt :
    ∃ p, config !! "prompt" = Some p ∧ template_with ["values"] p;
  shape_fold :
    ∀ p, config !! "fold_prompt" = Some p →
         template_with ["values"; "output"] p
         ∧ ∃ size, config !! "fold_batch_size" = Some size ∧ positive_int size;
  shape_merge :
    ∀ p, config !! "merge_prompt" = Some p →
         template_with ["outputs"] p
         ∧ is_Some (config !! "fold_prompt")
         ∧ ∃ size, config !! "merge_batch_size" = Some size
                   ∧ positive_int size;
  shape_model : ∀ v, config !! "model" = Some v → ∃ s, v = PyStr s;
  shape_input :
    ∀ v, config !! "input" = Some v →
         ∃ input schema, v = PyDict input
                         ∧ input !! "schema" = Some (PyDict schema);
  shape_sizes :
    ∀ k v, k ∈ ["fold_batch_size"; "merge_batch_size"] →
           config !! k = Some v → positive_int v;
}.

End SyntaxCheck.

(** * Notions used in the statements *)

Definition sum_costs (l : list Qc) : Qc := foldr Qcplus 0%Qc l.

Section Notions.
Context `{PyFloat} {Value : Type} `{EqDecision Value}
  (val_lt : Value → Value → bool)
  `{!ModelService (Value:=Value)} `{!Scheduler}.
Variable config : Config.

(** The invariant of the two windows. *)
Definition windows_bounded (st : State) : Prop :=
  length (fold_times st) ≤ max_samples ∧ length (merge_times st) ≤ max_samples.

(** The chunks [l[i:i+step] for i in range(0, len(l), step)]. *)
Definition chunks {A} (step : nat) (l : list A) : list (list A) :=
  (λ i, slice l i (i + step)) <$> range_list (length l) step.

(** [folds_ok key bs cur tot st cur' tot' st']: folding the batches [bs] one
    after the other, each fold returning a record, takes the accumulator
    [cur], the cost [tot] and the state [st] to [cur'], [tot'] and [st']. *)
Inductive folds_ok (key : Value) :
    list (list (gmap string Value)) →
    option (gmap string Value) → Qc → State →
    option (gmap string Value) → Qc → State → Prop :=
  | folds_ok_nil cur tot st : folds_ok key [] cur tot st cur tot st
  | folds_ok_cons b bs cur tot st out c st1 cur' tot' st' :
      _increment_fold config key b cur st = (Ok (Some out, c), st1) →
      folds_ok key bs (Some out) (tot + c)%Qc st1 cur' tot' st' →
      folds_ok key (b :: bs) cur tot st cur' tot' st'.

(** A task that returns a record from any state. *)
Definition yields_record (m : M (option (gmap string Value) * Qc)) : Prop :=
  ∀ st, ∃ r c st', m st = (Ok (Some r, c), st').

(** [<] is a strict total order on the key values. *)
Definition strict_total_order : Prop :=
  (∀ a, val_lt a a = false)
  ∧ (∀ a b c, val_lt a b = true → val_lt b c = true → val_lt a c = true)
  ∧ (∀ a b, a ≠ b → val_lt a b = true ∨ val_lt b a = true).

(** A record paired with the value of its reduce key. *)
Definition decorated (kr : Value * gmap string Value) : Prop :=
  kr.2 !! reduce_key config = Some kr.1.

(** [a <= b], as [sorted] sees it: not [b < a]. *)
Definition key_le (a b : Value * gmap string Value) : Prop :=
  val_lt b.1 a.1 = false.

(** A group: not empty, and each of its records carries the group's key. *)
Definition key_group (kg : Value * list (gmap string Value)) : Prop :=
  kg.2 ≠ [] ∧ Forall (λ r, r !! reduce_key config = Some kg.1) kg.2.

(** What the calls logged so far have cost. *)
Definition spent (st : State) : Qc := sum_costs (call_cost <$> calls st).

(** A computation that logs no call, however it ends. *)
Definition quiet {A} (m : M A) : Prop := ∀ st, calls (m st).2 = calls st.

(** A computation whose reported cost is the cost of the calls it logs. *)
Definition accounts {A} (m : M (A * Qc)) : Prop :=
  ∀ st a c st', m st = (Ok (a, c), st') → spent st' = (spent st + c)%Qc.

(** A computation that returns from any state, with a value that
    satisfies [P]. *)
Definition returns_with {A} (P : A → Prop) (m : M A) : Prop :=
  ∀ st, ∃ a st', m st = (Ok a, st') ∧ P a.

(** The part of [syntax_check] the strategies rely on: a fold prompt
    wherever there is a merge prompt, a positive [fold_batch_size], and a
    [merge_batch_size] of at least 2. *)
Definition checked : Prop :=
  (is_Some (merge_prompt config) → is_Some (fold_prompt config))
  ∧ 0 < fold_batch_size config
  ∧ 2 ≤ merge_batch_size config.

(** A computation that keeps the property [I] of the state, however it
    ends. *)
Definition preserves {A} (I : State → Prop) (m : M A) : Prop :=
  ∀ st, I st → I (m st).2.

(** The window after the durations [ts] have been recorded one after the
    other as fold durations. *)
Definition record_folds (ts : list float) (st : State) : State :=
  foldl (λ st t, (_update_fold_time t st).2) st ts.

(** A computation whose record, when it returns one, carries [key] under
    the reduce key. *)
Definition keyed (key : Value) (m : M (option (gmap string Value) * Qc))
    : Prop :=
  ∀ st r c st',
    m st = (Ok (Some r, c), st') → r !! reduce_key config = Some key.

(** Between [st] and [st'] exactly [n] calls were logged and no duration
    was recorded. *)
Definition calls_grow_by (n : nat) (st st' : State) : Prop :=
  length (calls st') = length (calls st) + n
  ∧ fold_times st' = fold_times st
  ∧ merge_times st' = merge_times st.

(** The operation type a logged call was made with. *)
Definition call_op_type (c : Call) : string :=
  match c with
  | LLMCall op_type _ _ => op_type
  | GleaningCall op_type _ _ _ => op_type
  end.

(** From [st] to [st'] the merge window is untouched and every call logged
    is of operation type ["reduce"]. *)
Definition only_folds (st st' : State) : Prop :=
  merge_times st' = merge_times st
  ∧ ∃ new, calls st' = calls st ++ new
           ∧ Forall (λ c, call_op_type c = "reduce") new.

(** A computation whose effect on the state, however it ends, is within
    the relation [R]. *)
Definition within {A} (R : State → State → Prop) (m : M A) : Prop :=
  ∀ st, R st (m st).2.

(** The records a logged call showed to the model: the [values] of a
    reduce or fold prompt, the [outputs] of a merge prompt. *)
Definition call_values (c : Call) : list (gmap string Value) :=
  let p := match c with LLMCall _ p _ => p | GleaningCall _ p _ _ => p end in
  match bindings p with
  | ReduceBindings _ values => values
  | FoldBindings values _ => values
  | MergeBindings outputs _ => outputs
  end.

(** A computation that, when it returns, has made exactly one call, and
    has shown [batch] in it. *)
Definition shows {A} (batch : list (gmap string Value)) (m : M A) : Prop :=
  ∀ st a st',
    m st = (Ok a, st') →
    ∃ c, calls st' = calls st ++ [c] ∧ call_values c = batch.

(** What [syntax_check] establishes about the prompts and the batch
    sizes: a merge prompt comes with a fold prompt and a positive
    [merge_batch_size], a fold prompt with a positive [fold_batch_size]. *)
Definition well_formed : Prop :=
  (is_Some (merge_prompt config) →
   is_Some (fold_prompt config) ∧ 0 < merge_batch_size config)
  ∧ (is_Some (fold_prompt config) → 0 < fold_batch_size config).

(** A configuration with which the loops of [execute] end: well formed,
    and with a [merge_batch_size] of at least 2 where there is a merge
    prompt, so that a round of merges leaves fewer accumulators. *)
Definition terminating : Prop :=
  well_formed
  ∧ (is_Some (merge_prompt config) → 2 ≤ merge_batch_size config).

(** A computation that raises no exception: it returns or runs on. *)
Definition never_raises {A} (m : M A) : Prop :=
  ∀ st e st', m st ≠ (Raise e, st').

(** A computation whose exceptions, and the states it raises them in,
    satisfy [P]. *)
Definition raises_only {A} (P : exception → State → Prop) (m : M A) : Prop :=
  ∀ st e st', m st = (Raise e, st') → P e st'.

(** The exceptions of the lane estimate when [merge_batch_size] is
    positive: those of the two conversions, of the division and of
    [int]. *)
Definition estimate_error (e : exception) : Prop :=
  e = OverflowError "int too large to convert to float"
  ∨ e = ZeroDivisionError "float division by zero"
  ∨ e = OverflowError "cannot convert float infinity to integer"
  ∨ e = ValueError "cannot convert float NaN to integer".

(** An exception that a lane estimate raises in the state [st], with a
    merge prompt configured. *)
Definition raised_by_estimate (e : exception) (st : State) : Prop :=
  is_Some (merge_prompt config)
  ∧ estimate_error e
  ∧ ∃ group_list,
      calculate_num_parallel_folds config group_list st = (Raise e, st).

(** A computation that, from a state that satisfies [I], returns a value
    that satisfies [P] in a state that satisfies [I]. *)
Definition returns_in {A} (I : State → Prop) (P : A → Prop) (m : M A)
    : Prop :=
  ∀ st, I st → ∃ a st', m st = (Ok a, st') ∧ P a ∧ I st'.

(** An outcome that is a value. *)
Definition returned {A} (o : outcome A) : bool :=
  match o with Ok _ => true | _ => false end.

(** In every state that satisfies [I] the lane estimate of a group of at
    most [longest] records is defined: it returns. *)
Definition estimate_defined (I : State → Prop) (longest : nat) : Prop :=
  ∀ st group_list,
    I st → length group_list ≤ longest →
    ∃ lanes, calculate_num_parallel_folds config group_list st
             = (Ok lanes, st).

(** A float that is a zero or a NaN. *)
Definition zero_or_nan (x : float) : Prop :=
  float_is_zero x = true ∨ float_is_nan x = true.

(** What the lane estimate needs of the floats when [merge_batch_size] is
    1: [math.log(1)] is a zero, a product with a zero factor on the right
    and a quotient with a zero or a NaN on the left are a zero or a NaN,
    and [int] of a zero is 0.  So it is with IEEE 754 arithmetic. *)
Record zero_laws : Prop := {
  log_one : float_is_zero (math_log 1) = true;
  mul_zero_r : ∀ x y, float_is_zero y = true → zero_or_nan (float_mul x y);
  div_zero_l : ∀ x y, zero_or_nan x → zero_or_nan (float_div x y);
  int_of_zero : ∀ x, float_is_zero x = true → int_of_float x = 0%Z;
}.

(** The record [config] holds what [execute] reads from the dictionary
    [raw] for the choice of the strategy and for the batch sizes: a prompt
    is present in the one exactly when it is in the other, and a batch
    size that is present is the integer of the record. *)
Definition reads (raw : gmap string PyVal) : Prop :=
  (is_Some (fold_prompt config) ↔ is_Some (raw !! "fold_prompt"))
  ∧ (is_Some (merge_prompt config) ↔ is_Some (raw !! "merge_prompt"))
  ∧ (∀ v, raw !! "fold_batch_size" = Some v →
          int_value v = Some (Z.of_nat (fold_batch_size config)))
  ∧ (∀ v, raw !! "merge_batch_size" = Some v →
          int_value v = Some (Z.of_nat (merge_batch_size config))).

End Notions.

(** ** Instances of the interfaces *)

(** Floats read as real numbers: exact arithmetic, the natural logarithm,
    and truncation towards zero for [int(x)]; every [int] has a real, and
    no real is an infinity or a NaN.  Durations are reasoned about in this
    reading (the positivity of the divisor below); what [execute] computes
    is proved for every instance, and evaluated with [Binary64]. *)
Definition R_trunc (x : R) : Z :=
  if Rle_dec 0 x then Int_part x else (- Int_part (- x))%Z.

Definition RFloat : PyFloat :=
  {| float := R;
     float_of_int := IZR;
     float_add := Rplus;
     float_mul := Rmult;
     float_div := Rdiv;
     math_log := λ n, ln (IZR n);
     int_of_float := R_trunc;
     float_fits := λ _, true;
     float_is_zero := λ x, if Req_dec_T x 0 then true else false;
     float_is_inf := λ _, false;
     float_is_nan := λ _, false |}.

(** Durations as real numbers. *)

Section Durations.
Context {Value : Type} `{!ModelService (H:=RFloat) (Value:=Value)}.
Variable config : Config (H:=RFloat).

(** Python's [/] raises [ZeroDivisionError] on a zero divisor.  The lane
    estimate divides by [fold_batch_size * merge_time]; with durations
    read as real numbers, this is the state of an operation whose merge
    durations are positive: the configured [merge_time], the samples of
    the merge window and every duration the clock measures. *)
Definition positive_merge_times (st : State (H:=RFloat)) : Prop :=
  (∀ t : R, merge_time config = Some t → (0 < t)%R)
  ∧ Forall (λ t : R, (0 < t)%R) (merge_times st)
  ∧ (∀ n, (0 < @elapsed RFloat _ _ n)%R).

End Durations.

(** Python's floats: the IEEE 754 binary64 numbers, with the arithmetic
    of the kernel's primitive floats.  [float(n)] rounds to the nearest
    float, ties to even, and overflows to an infinity exactly when Python
    raises; [int(x)] drops the fraction of [m * 2 ^ e].  [math.log] is the
    C library's: [log] gives its values at the merge batch sizes of the
    worked instances, [log(1) = 0.0] and [log(2) = 0.6931471805599453], and
    stands for no other. *)
Module Binary.
Import Floats.

Definition of_Z (n : Z) : PrimFloat.float :=
  SF2Prim (SpecFloat.binary_normalize FloatOps.prec FloatOps.emax n 0 false).

Definition trunc (x : PrimFloat.float) : Z :=
  match Prim2SF x with
  | S754_finite s m e =>
      let magnitude := Z.shiftl (Z.pos m) e in
      if s then (- magnitude)%Z else magnitude
  | _ => 0%Z
  end.

Definition fits (n : Z) : bool := negb (PrimFloat.is_infinity (of_Z n)).

Definition ln2 : PrimFloat.float := 0x1.62e42fefa39efp-1%float.

Definition log (n : Z) : PrimFloat.float :=
  if decide (n = 1%Z) then PrimFloat.zero
  else if decide (n = 2%Z) then ln2
  else PrimFloat.nan.

(** [1e308], the float [0x1.1ccf385ebc8ap+1023], and
    [2.8853900817779268], the float [0x1.71547652b82fep+1]. *)
Definition huge : PrimFloat.float := 0x1.1ccf385ebc8ap+1023%float.
Definition steep : PrimFloat.float := 0x1.71547652b82fep+1%float.

End Binary.

Definition Binary64 : PyFloat :=
  {| float := PrimFloat.float;
     float_of_int := Binary.of_Z;
     float_add := PrimFloat.add;
     float_mul := PrimFloat.mul;
     float_div := PrimFloat.div;
     math_log := Binary.log;
     int_of_float := Binary.trunc;
     float_fits := Binary.fits;
     float_is_zero := PrimFloat.is_zero;
     float_is_inf := PrimFloat.is_infinity;
     float_is_nan := PrimFloat.is_nan |}.

(** Futures completing in the order of submission, and in the reverse
    order. *)
Definition fifo_scheduler : Scheduler :=
  {| as_completed := λ A _ l, l;
     as_completed_perm := λ A _ l, reflexivity l |}.

Definition lifo_scheduler : Scheduler :=
  {| as_completed := λ A _ l, reverse l;
     as_completed_perm := λ A _ l, reverse_Permutation l |}.

(** ** A stand-in for the model service

    Records with integer values.  The model answers a reduce prompt with
    the number of items it was shown, a fold prompt with the running
    number, and a merge prompt with the sum of the numbers it was given;
    every response costs 1, a call with gleaning reports one more unit
    per round, and every call takes one second. *)

Module Stub.

Definition count (r : gmap string Z) : Z := default 0%Z (r !! "n").

Definition answer (p : Prompt (Value:=Z)) : gmap string Z :=
  match bindings p with
  | ReduceBindings _ values => {[ "n" := Z.of_nat (length values) ]}
  | FoldBindings values output =>
      {[ "n" := (count output + Z.of_nat (length values))%Z ]}
  | MergeBindings outputs _ => {[ "n" := foldr Z.add 0%Z (count <$> outputs) ]}
  end.

Definition service_on (F : PyFloat) (valid : gmap string Z → bool)
    : ModelService (H:=F) (Value:=Z) :=
  @Build_ModelService F Z (gmap string Z)
    (λ _ _ _ p _, answer p)
    (λ _ _ _ p _ _ rounds, (answer p, Q2Qc (inject_Z rounds)))
    (λ _, 1%Qc)
    (λ r, r)
    (λ _ r, valid r)
    (λ _, float_of_int 1).

Definition service (valid : gmap string Z → bool)
    : ModelService (H:=Binary64) (Value:=Z) :=
  service_on Binary64 valid.

(** The validator that accepts every record, and the one that rejects the
    records whose number is [n]. *)
Definition accept_all (r : gmap string Z) : bool := true.
Definition reject (n : Z) (r : gmap string Z) : bool :=
  negb (bool_decide (r !! "n" = Some n)).

Definition make_config {F : PyFloat} (fold merge : option string)
    (fold_size merge_size : nat) (input : gmap string string) (pass : bool)
    (times : option float * option float) : Config (H:=F) :=
  @Build_Config F "g" "reduce" {[ "n" := "int" ]} input fold fold_size
    merge merge_size times.1 times.2 pass None "model".

Definition batch_config : Config (H:=Binary64) :=
  make_config None None 3 2 ∅ false (None, None).

(** Pass-through with an input schema that names [x] alone. *)
Definition projecting_config : Config (H:=Binary64) :=
  make_config None None 3 2 {[ "x" := "int" ]} true (None, None).

Definition incremental_config : Config (H:=Binary64) :=
  make_config (Some "fold") None 3 2 ∅ false (None, None).

Definition merge_config (merge_size : nat) : Config (H:=Binary64) :=
  make_config (Some "fold") (Some "merge") 1 merge_size ∅ false (None, None).

(** Fixed times of two seconds a fold and one second a merge, as reals. *)
Definition timed_config : Config (H:=RFloat) :=
  @make_config RFloat (Some "fold") (Some "merge") 1 2 ∅ false
    (Some 2%R, Some 1%R).

(** The same fixed times as floats; a fold time of [1e308]; and a merge
    time of zero. *)
Definition clocked_config : Config (H:=Binary64) :=
  @make_config Binary64 (Some "fold") (Some "merge") 1 2 ∅ false
    (Some (float_of_int 2), Some (float_of_int 1)).
Definition huge_config : Config (H:=Binary64) :=
  @make_config Binary64 (Some "fold") (Some "merge") 1 2 ∅ false
    (Some Binary.huge, Some (float_of_int 1)).
Definition stalled_config : Config (H:=Binary64) :=
  @make_config Binary64 (Some "fold") (Some "merge") 1 2 ∅ false
    (Some (float_of_int 2), Some (float_of_int 0)).

(** A fold time of [2.8853900817779268] and a merge time of one second. *)
Definition steep_config : Config (H:=Binary64) :=
  @make_config Binary64 (Some "fold") (Some "merge") 1 2 ∅ false
    (Some Binary.steep, Some (float_of_int 1)).

(** A fold time of [1e308] with merge batches of one accumulator. *)
Definition huge_unit_config : Config (H:=Binary64) :=
  @make_config Binary64 (Some "fold") (Some "merge") 1 1 ∅ false
    (Some Binary.huge, Some (float_of_int 1)).

(** The state of a fresh operation instance whose durations are reals. *)
Definition real_start : State := @init RFloat Z (service_on RFloat accept_all).

(** The state of a fresh operation instance. *)
Definition start (valid : gmap string Z → bool) : State :=
  @init Binary64 Z (service valid).

Definition item (g x : Z) : gmap string Z := {[ "g" := g; "x" := x ]}.
Definition out (g n : Z) : gmap string Z := {[ "g" := g; "n" := n ]}.
Definition acc (n : Z) : gmap string Z := out 1 n.

(** Seven records of group 1. *)
Definition seven : list (gmap string Z) :=
  item 1 <$> [1; 2; 3; 4; 5; 6; 7]%Z.

(** A hundred records of group 1. *)
Definition hundred : list (gmap string Z) := replicate 100 (item 1 1).

(** Five records of two groups, out of order; the last record of [gapped]
    lacks the reduce key; [wide] has a field [y] that the input schema of
    [projecting_config] does not name. *)
Definition mixed : list (gmap string Z) :=
  [item 2 1; item 1 2; item 2 3; item 1 4; item 1 5].
Definition gapped : list (gmap string Z) :=
  [item 2 1; item 1 2; {[ "x" := 3%Z ]}].
Definition wide : gmap string Z :=
  {[ "g" := 1%Z; "x" := 10%Z; "y" := 20%Z ]}.

(** Batches of three records for two lanes. *)
Definition roomy_config : Config (H:=Binary64) :=
  make_config (Some "fold") (Some "merge") 3 2 ∅ false (None, None).

(** A state whose merge window holds five samples. *)
Definition warm : State :=
  {| fold_times := [];
     merge_times := replicate 5 (@float_of_int Binary64 1);
     calls := @nil (Call (H0:=service accept_all)) |}.

(** A template engine that finds the three variables in every template,
    and a [gleaning_check] that accepts. *)
Definition all_names (source : PyVal) : option (list string) :=
  Some ["values"; "output"; "outputs"].
Definition no_gleaning (config : gmap string PyVal) : Verdict unit := accept.

(** A configuration for fold and merge with [fold_batch_size: true] and
    [merge_batch_size: 1], and one whose [output] is a string. *)
Definition unit_merge_config : gmap string PyVal :=
  {[ "reduce_key" := PyStr "g";
     "prompt" := PyStr "reduce";
     "output" := PyDict {[ "schema" := PyDict {[ "n" := PyStr "int" ]} ]};
     "fold_prompt" := PyStr "fold";
     "fold_batch_size" := PyBool true;
     "merge_prompt" := PyStr "merge";
     "merge_batch_size" := PyInt 1 ]}.
Definition string_output_config : gmap string PyVal :=
  {[ "reduce_key" := PyStr "g";
     "prompt" := PyStr "reduce";
     "output" := PyStr "the schema" ]}.

(** The sizes of the batches ([values] or [outputs]) of the logged calls. *)
Definition call_size {F : PyFloat} {S : ModelService (H:=F) (Value:=Z)}
    (c : Call) : nat :=
  let p := match c with LLMCall _ p _ => p | GleaningCall _ p _ _ => p end in
  match bindings p with
  | ReduceBindings _ values => length values
  | FoldBindings values _ => length values
  | MergeBindings outputs _ => length outputs
  end.

End Stub.

(** * Properties *)

(** ** Telemetry *)

Section Telemetry.
Context `{PyFloat} {Value : Type} `{!ModelService (Value:=Value)}.
Variable config : Config.

Lemma deque_append_length {A} (maxlen : nat) (d : list A) (x : A) :
  length d ≤ maxlen → length (deque_append maxlen d x) ≤ maxlen.
Proof.
  intros Hd. unfold deque_append. case_decide as Hfull.
  - rewrite length_drop, length_app in *. simpl in *. lia.
  - rewrite length_app in *. simpl in *. lia.
Qed.

Lemma deque_append_full {A} (maxlen : nat) (d : list A) (x : A) :
  0 < maxlen → length d = maxlen →
  deque_append maxlen d x = drop 1 d ++ [x].
Proof.
  intros Hpos Hd. unfold deque_append.
  rewrite decide_True by (rewrite length_app; simpl; lia).
  destruct d as [|y d]; [simpl in Hd; lia|]. done.
Qed.

Lemma deque_append_room {A} (maxlen : nat) (d : list A) (x : A) :
  length d < maxlen → deque_append maxlen d x = d ++ [x].
Proof.
  intros Hd. unfold deque_append.
  by rewrite decide_False by (rewrite length_app; simpl; lia).
Qed.

(** C4. With a configured [fold_time] ([merge_time]) the estimate is that
    value and [False], whatever the window holds; without one it is the mean
    of the window and [False] when the window holds at least 5 samples, and
    [1.0] and [True] otherwise.  Neither call changes the state. *)
Theorem time_estimates (st : State) :
  (∀ t, fold_time config = Some t →
        get_fold_time config st = (Ok (t, false), st))
  ∧ (fold_time config = None → 5 ≤ length (fold_times st) →
     get_fold_time config st = (Ok (mean (fold_times st), false), st))
  ∧ (fold_time config = None → length (fold_times st) < 5 →
     get_fold_time config st = (Ok (float_of_int 1, true), st))
  ∧ (∀ t, merge_time config = Some t →
          get_merge_time config st = (Ok (t, false), st))
  ∧ (merge_time config = None → 5 ≤ length (merge_times st) →
     get_merge_time config st = (Ok (mean (merge_times st), false), st))
  ∧ (merge_time config = None → length (merge_times st) < 5 →
     get_merge_time config st = (Ok (float_of_int 1, true), st)).
Proof.
  unfold get_fold_time, get_merge_time, min_samples.
  repeat split.
  - by intros t ->.
  - intros -> Hlen. by rewrite decide_True.
  - intros -> Hlen. by rewrite decide_False by lia.
  - by intros t ->.
  - intros -> Hlen. by rewrite decide_True.
  - intros -> Hlen. by rewrite decide_False by lia.
Qed.

(** C5. Recording a fold or a merge duration keeps both windows within
    1000 samples; a window that holds 1000 samples loses its oldest one and
    gains the new one at the end, a window with room only gains the new
    one; the other window and the log of calls are untouched. *)
Theorem update_time_window (st : State) (time : float) :
  windows_bounded st →
  let st_f := (_update_fold_time time st).2 in
  let st_m := (_update_merge_time time st).2 in
  (windows_bounded st_f ∧ windows_bounded st_m)
  ∧ (_update_fold_time time st).1 = Ok ()
  ∧ (_update_merge_time time st).1 = Ok ()
  ∧ fold_times st_f
    = (if decide (length (fold_times st) = 1000)
       then drop 1 (fold_times st) ++ [time] else fold_times st ++ [time])
  ∧ merge_times st_f = merge_times st ∧ calls st_f = calls st
  ∧ merge_times st_m
    = (if decide (length (merge_times st) = 1000)
       then drop 1 (merge_times st) ++ [time] else merge_times st ++ [time])
  ∧ fold_times st_m = fold_times st ∧ calls st_m = calls st.
Proof.
  intros [Hf Hm]. simpl. unfold windows_bounded. simpl.
  split; [split; split; auto using deque_append_length|].
  do 2 (split; [done|]).
  split; [|split; [done|split; [done|split; [|done]]]].
  - case_decide as Hlen.
    + apply deque_append_full; [unfold max_samples; lia | done].
    + apply deque_append_room. unfold max_samples in *. lia.
  - case_decide as Hlen.
    + apply deque_append_full; [unfold max_samples; lia | done].
    + apply deque_append_room. unfold max_samples in *. lia.
Qed.

End Telemetry.

(** ** Lane estimate *)

Section Estimate.
Context `{PyFloat} {Value : Type} `{!ModelService (Value:=Value)}.
Variable config : Config.

Ltac estimate_cases :=
  unfold calculate_num_parallel_folds, estimate_parallel_folds, py_float,
    py_log, py_truediv, py_int, mbind, M_bind, bind, ret, raise.

Ltac split_if :=
  match goal with
  | |- context [if ?b then _ else _] => destruct b eqn:?; simpl
  end.

Lemma get_fold_time_returns (st : State) :
  ∃ t d, get_fold_time config st = (Ok (t, d), st).
Proof.
  unfold get_fold_time. destruct (fold_time config); [by eexists _, _|].
  case_decide; by eexists _, _.
Qed.

Lemma get_merge_time_returns (st : State) :
  ∃ t d, get_merge_time config st = (Ok (t, d), st).
Proof.
  unfold get_merge_time. destruct (merge_time config); [by eexists _, _|].
  case_decide; by eexists _, _.
Qed.

(** The lane estimate reads the state and leaves it as it is. *)
Lemma calculate_same_state (group_list : list (gmap string Value)) st :
  (calculate_num_parallel_folds config group_list st).2 = st.
Proof.
  destruct (get_fold_time_returns st) as (ft & fd & Hft).
  destruct (get_merge_time_returns st) as (mt & md & Hmt).
  estimate_cases. rewrite Hft, Hmt.
  repeat (split_if; try done).
Qed.

Lemma calculate_never_diverges (group_list : list (gmap string Value)) st :
  (calculate_num_parallel_folds config group_list st).1 ≠ Diverge.
Proof.
  destruct (get_fold_time_returns st) as (ft & fd & Hft).
  destruct (get_merge_time_returns st) as (mt & md & Hmt).
  estimate_cases. rewrite Hft, Hmt.
  repeat (split_if; try done).
Qed.

Lemma calculate_at_least_one (group_list : list (gmap string Value))
    st lanes used st' :
  calculate_num_parallel_folds config group_list st
  = (Ok (lanes, used), st') →
  (1 ≤ lanes)%Z ∧ st' = st.
Proof.
  intros Hrun. split.
  - destruct (get_fold_time_returns st) as (ft & fd & Hft).
    destruct (get_merge_time_returns st) as (mt & md & Hmt).
    revert Hrun. estimate_cases. rewrite Hft, Hmt.
    repeat (split_if; try done). intros [= <- _ _]. lia.
  - pose proof (calculate_same_state group_list st) as Hsame.
    by rewrite Hrun in Hsame.
Qed.

Lemma calculate_returned (group_list : list (gmap string Value)) st :
  returned (calculate_num_parallel_folds config group_list st).1 = true →
  ∃ lanes,
    calculate_num_parallel_folds config group_list st = (Ok lanes, st).
Proof.
  pose proof (calculate_same_state group_list st) as Hsame.
  destruct (calculate_num_parallel_folds config group_list st)
    as [[lanes| |] st']; [|done..].
  simpl in Hsame. subst st'. by exists lanes.
Qed.

(** With a positive [merge_batch_size] the exceptions of the lane
    estimate are those of its conversions, of its division and of
    [int]. *)
Lemma calculate_raises (group_list : list (gmap string Value)) st e st' :
  0 < merge_batch_size config →
  calculate_num_parallel_folds config group_list st = (Raise e, st') →
  estimate_error e ∧ st' = st.
Proof.
  intros Hsize Hrun. split.
  - destruct (get_fold_time_returns st) as (ft & fd & Hft).
    destruct (get_merge_time_returns st) as (mt & md & Hmt).
    revert Hrun. estimate_cases. rewrite Hft, Hmt.
    rewrite decide_True by lia. unfold estimate_error.
    repeat (split_if; try done); intros [= <- _]; auto.
  - pose proof (calculate_same_state group_list st) as Hsame.
    by rewrite Hrun in Hsame.
Qed.

(** With [merge_batch_size = 1] the lane estimate, when it returns, is one
    lane: the logarithm is a zero, so the quotient is a zero or a NaN. *)
Lemma unit_lane_estimate (group_list : list (gmap string Value))
    st lanes used st' :
  zero_laws →
  merge_batch_size config = 1 →
  calculate_num_parallel_folds config group_list st
  = (Ok (lanes, used), st') →
  lanes = 1%Z.
Proof.
  intros [Hlog Hmul Hdiv Hint] Hone.
  destruct (get_fold_time_returns st) as (ft & fd & Hft).
  destruct (get_merge_time_returns st) as (mt & md & Hmt).
  estimate_cases. rewrite Hft, Hmt, Hone.
  change (Z.of_nat 1) with 1%Z. rewrite decide_True by lia.
  repeat (split_if; try done). intros [= <- _ _].
  match goal with
  | |- context [int_of_float ?q] =>
      assert (zero_or_nan q) as [Hzero | Hnan] by (apply Hdiv, Hmul, Hlog)
  end; [|congruence].
  by rewrite (Hint _ Hzero).
Qed.

(** C3. The lane estimate is computed in floats, and its operations raise
    as Python's do.  With a positive [merge_batch_size] and a group size
    and a [fold_batch_size] that have floats, let [quotient] be
    [(foldTime * groupSize * log(mergeBatchSize)) / (foldBatchSize *
    mergeTime)] in float arithmetic.  The estimate raises
    [ZeroDivisionError] when the divisor is zero, [OverflowError] when
    [quotient] is an infinity and [ValueError] when it is a NaN; otherwise
    it returns [max(1, int(quotient))], leaving the state as it was.
    Whenever it returns, whatever the times and the sizes, it returns at
    least 1, [merge_batch_size = 1] included. *)
Theorem estimate_never_below_one
    (st : State) (group_list : list (gmap string Value))
    (foldTime mergeTime : float) (fold_default merge_default : bool) :
  get_fold_time config st = (Ok (foldTime, fold_default), st) →
  get_merge_time config st = (Ok (mergeTime, merge_default), st) →
  0 < merge_batch_size config →
  float_fits (Z.of_nat (length group_list)) = true →
  float_fits (Z.of_nat (fold_batch_size config)) = true →
  let divisor :=
    float_mul (float_of_int (Z.of_nat (fold_batch_size config))) mergeTime in
  let quotient :=
    float_div
      (float_mul
         (float_mul foldTime (float_of_int (Z.of_nat (length group_list))))
         (math_log (Z.of_nat (merge_batch_size config))))
      divisor in
  let run := calculate_num_parallel_folds config group_list st in
  (float_is_zero divisor = true →
   run = (Raise (ZeroDivisionError "float division by zero"), st))
  ∧ (float_is_zero divisor = false → float_is_inf quotient = true →
     run = (Raise (OverflowError "cannot convert float infinity to integer"),
            st))
  ∧ (float_is_zero divisor = false → float_is_inf quotient = false →
     float_is_nan quotient = true →
     run = (Raise (ValueError "cannot convert float NaN to integer"), st))
  ∧ (float_is_zero divisor = false → float_is_inf quotient = false →
     float_is_nan quotient = false →
     run = (Ok (Z.max 1 (int_of_float quotient),
                fold_default || merge_default), st))
  ∧ (∀ lanes used st', run = (Ok (lanes, used), st') → (1 ≤ lanes)%Z).
Proof.
  intros Hft Hmt Hsize Hitems Hbatch divisor quotient run.
  assert (run
          = (lanes ← (quotient ← py_truediv
                        (float_mul
                           (float_mul foldTime
                              (float_of_int (Z.of_nat (length group_list))))
                           (math_log (Z.of_nat (merge_batch_size config))))
                        divisor;
                      lanes ← py_int quotient; ret (Z.max 1 lanes));
             ret (lanes, fold_default || merge_default)) st) as Hrun.
  { unfold run. estimate_cases. rewrite Hft, Hmt, Hitems, Hbatch.
    by rewrite decide_True by lia. }
  repeat split.
  - intros Hzero. rewrite Hrun. unfold py_truediv, mbind, M_bind, bind, raise.
    by rewrite Hzero.
  - intros Hzero Hinf. rewrite Hrun.
    unfold py_truediv, py_int, mbind, M_bind, bind, raise, ret.
    rewrite Hzero. fold quotient. by rewrite Hinf.
  - intros Hzero Hinf Hnan. rewrite Hrun.
    unfold py_truediv, py_int, mbind, M_bind, bind, raise, ret.
    rewrite Hzero. fold quotient. by rewrite Hinf, Hnan.
  - intros Hzero Hinf Hnan. rewrite Hrun.
    unfold py_truediv, py_int, mbind, M_bind, bind, raise, ret.
    rewrite Hzero. fold quotient. by rewrite Hinf, Hnan.
  - intros lanes used st' Hok.
    by destruct (calculate_at_least_one group_list st lanes used st' Hok).
Qed.

End Estimate.

(** ** Slices, ranges and the monad *)

Section Basics.
Context `{PyFloat} {Value : Type}
  `{!ModelService (Value:=Value)} `{!Scheduler}.

Lemma bind_Ok {A B} (m : M A) (f : A → M B) (st st' : State) (a : A) :
  m st = (Ok a, st') → (m ≫= f) st = f a st'.
Proof. intros Hm. unfold mbind, M_bind, bind. by rewrite Hm. Qed.

Lemma bind_Ok_inv {A B} (m : M A) (f : A → M B) (st st'' : State) (b : B) :
  (m ≫= f) st = (Ok b, st'') →
  ∃ a st', m st = (Ok a, st') ∧ f a st' = (Ok b, st'').
Proof.
  unfold mbind, M_bind, bind. destruct (m st) as [[a| |] st'] eqn:Hm; [|done..].
  intros Hf. by exists a, st'.
Qed.

Lemma slice_take_drop {A} (l : list A) (i k : nat) :
  slice l i (i + k) = take k (drop i l).
Proof. unfold slice. f_equal. lia. Qed.

Lemma range_list_length (stop step : nat) :
  length (range_list stop step) = (stop + step - 1) / step.
Proof. unfold range_list. by rewrite length_fmap, length_seq. Qed.

Lemma range_list_lookup (stop step j : nat) :
  j < (stop + step - 1) / step → range_list stop step !! j = Some (j * step).
Proof.
  intros Hj. unfold range_list. rewrite list_lookup_fmap.
  by rewrite lookup_seq_lt.
Qed.

Lemma concat_chunks_prefix {A} (step m : nat) (l : list A) :
  concat ((λ i, slice l i (i + step)) <$> ((λ j, j * step) <$> seq 0 m))
  = take (m * step) l.
Proof.
  induction m as [|m IH]; [done|].
  rewrite seq_S, !fmap_app, concat_app, IH. simpl.
  rewrite app_nil_r, slice_take_drop, take_take_drop.
  f_equal. lia.
Qed.

Lemma div_up_ge (n k : nat) : 0 < k → n ≤ (n + k - 1) / k * k.
Proof.
  intros Hk.
  pose proof (Nat.div_mod (n + k - 1) k ltac:(lia)) as Hdm.
  pose proof (Nat.mod_upper_bound (n + k - 1) k ltac:(lia)) as Hmod.
  nia.
Qed.

Lemma div_up_lt (n k j : nat) : 0 < k → j < (n + k - 1) / k → j * k < n.
Proof.
  intros Hk Hj.
  pose proof (Nat.div_mod (n + k - 1) k ltac:(lia)) as Hdm.
  assert ((j + 1) * k ≤ (n + k - 1) / k * k) as Hle by (apply Nat.mul_le_mono_r; lia).
  nia.
Qed.

Lemma concat_chunks {A} (step : nat) (l : list A) :
  0 < step → concat (chunks step l) = l.
Proof.
  intros Hstep. unfold chunks, range_list.
  rewrite concat_chunks_prefix, take_ge; [done|].
  by apply div_up_ge.
Qed.

Lemma length_chunks {A} (step : nat) (l : list A) :
  length (chunks step l) = (length l + step - 1) / step.
Proof. unfold chunks. by rewrite length_fmap, range_list_length. Qed.

Lemma chunks_lookup {A} (step j : nat) (l : list A) (b : list A) :
  0 < step → chunks step l !! j = Some b →
  b = take step (drop (j * step) l)
  ∧ length b = step `min` (length l - j * step) ∧ 0 < length b.
Proof.
  intros Hstep Hb. unfold chunks in Hb.
  pose proof (lookup_lt_Some _ _ _ Hb) as Hj.
  rewrite length_fmap, range_list_length in Hj.
  rewrite list_lookup_fmap, range_list_lookup in Hb by done.
  simpl in Hb. injection Hb as <-. rewrite slice_take_drop.
  split; [done|]. rewrite length_take, length_drop.
  pose proof (div_up_lt (length l) step j Hstep Hj). lia.
Qed.

End Basics.

Ltac split_bind H :=
  let a := fresh "a" in
  let st := fresh "st" in
  let Hrun := fresh "Hrun" in
  apply bind_Ok_inv in H as (a & st & Hrun & H).

Ltac read_ret H :=
  unfold ret in H;
  first [solve [inversion H] | injection H; clear H; intros; subst].

(** ** Incremental reduce *)

Section Incremental.
Context `{PyFloat} {Value : Type} `{EqDecision Value}
  `{!ModelService (Value:=Value)} `{!Scheduler}.
Variable config : Config.

Lemma incremental_loop_ok key group_list pre rest cur tot st cur' tot' st' :
  folds_ok config key
    ((λ i, slice group_list i (i + fold_batch_size config)) <$> pre)
    cur tot st cur' tot' st' →
  incremental_loop config key group_list (pre ++ rest) cur tot st
  = incremental_loop config key group_list rest cur' tot' st'.
Proof.
  revert cur tot st. induction pre as [|i pre IH]; intros cur tot st Hok.
  - by inversion Hok; subst.
  - rewrite fmap_cons in Hok.
    inversion Hok as [|? ? ? ? ? out c st1 ? ? ? Hfold Hrest]; subst.
    simpl. erewrite bind_Ok by exact Hfold. simpl. by apply IH.
Qed.

(** C7. With a positive [fold_batch_size], the incremental strategy cuts
    the group into consecutive batches of that size (the last one shorter
    but not empty) and folds them one after the other; when every fold
    returns a record the last one is the result, with the sum of the
    costs; when a fold returns [None] after the batches before it
    succeeded, the result is [None] with the cost up to and including that
    fold, the state is the one right after it (no later batch is folded),
    and [process_group] hands [None] on. *)
Theorem incremental_reduce_aborts (fuel : nat) (key : Value)
    (group_list : list (gmap string Value)) :
  0 < fold_batch_size config →
  let batches := chunks (fold_batch_size config) group_list in
  concat batches = group_list
  ∧ length batches
    = (length group_list + fold_batch_size config - 1) / fold_batch_size config
  ∧ (∀ j b, batches !! j = Some b →
       length b
       = fold_batch_size config
           `min` (length group_list - j * fold_batch_size config)
       ∧ 0 < length b)
  ∧ (∀ st cur tot st',
       folds_ok config key batches None 0%Qc st cur tot st' →
       _incremental_reduce config key group_list st = (Ok (cur, tot), st'))
  ∧ (∀ pre b post st cur tot st1 c st2,
       batches = pre ++ b :: post →
       folds_ok config key pre None 0%Qc st cur tot st1 →
       _increment_fold config key b cur st1 = (Ok (None, c), st2) →
       _incremental_reduce config key group_list st
       = (Ok (None, (tot + c)%Qc), st2))
  ∧ (∀ records st c st',
       merge_prompt config = None → is_Some (fold_prompt config) →
       strategy_input config records = group_list →
       _incremental_reduce config key group_list st = (Ok (None, c), st') →
       process_group config fuel key records st = (Ok (None, c), st')).
Proof.
  intros Hfbs batches.
  assert (∀ st, _incremental_reduce config key group_list st
                = incremental_loop config key group_list
                    (range_list (length group_list) (fold_batch_size config))
                    None 0%Qc st) as Hrun.
  { intros st. unfold _incremental_reduce, range_step.
    rewrite decide_False by lia. done. }
  split; [by apply concat_chunks|].
  split; [by apply length_chunks|].
  split; [intros j b Hb; by destruct (chunks_lookup _ _ _ _ Hfbs Hb) as (_ & ? & ?)|].
  split; [|split].
  - intros st cur tot st' Hok. rewrite Hrun.
    rewrite <- (app_nil_r (range_list _ _)).
    by erewrite incremental_loop_ok by exact Hok.
  - intros pre b post st cur tot st1 c st2 Hsplit Hok Hfail.
    rewrite Hrun. unfold batches, chunks in Hsplit.
    apply fmap_app_inv in Hsplit as (ipre & irest & -> & Hrest & ->).
    symmetry in Hrest.
    apply fmap_cons_inv in Hrest as (i & ipost & -> & -> & ->).
    erewrite incremental_loop_ok by exact Hok.
    simpl. by erewrite bind_Ok by exact Hfail.
  - intros records st c st' Hmerge [t Hfold] Hin Hred.
    unfold process_group, run_strategy. rewrite Hmerge, Hfold, Hin.
    by erewrite bind_Ok by exact Hred.
Qed.

End Incremental.

(** ** The folding phase *)

Section FoldPhase.
Context `{PyFloat} {Value : Type} `{EqDecision Value}
  `{!ModelService (Value:=Value)} `{!Scheduler}.
Variable config : Config.

Lemma sum_costs_app (l1 l2 : list Qc) :
  sum_costs (l1 ++ l2) = (sum_costs l1 + sum_costs l2)%Qc.
Proof.
  induction l1 as [|c l1 IH].
  - change (sum_costs l2 = (0 + sum_costs l2)%Qc). ring.
  - change (c + sum_costs (l1 ++ l2) = c + sum_costs l1 + sum_costs l2)%Qc.
    rewrite IH. ring.
Qed.

Lemma collect_spec (outs : list (option (gmap string Value) * Qc)) (total : Qc) :
  collect outs total = (omap fst outs, (total + sum_costs (snd <$> outs))%Qc).
Proof.
  unfold collect.
  enough (∀ acc t,
    foldl (λ (acc : list (gmap string Value) * Qc)
             (out : option (gmap string Value) * Qc),
             (match out.1 with Some r => acc.1 ++ [r] | None => acc.1 end,
              (acc.2 + out.2)%Qc)) (acc, t) outs
    = (acc ++ omap fst outs, (t + sum_costs (snd <$> outs))%Qc)) as Hgen
    by (rewrite Hgen; done).
  induction outs as [|[[r|] c] outs IH]; intros acc t.
  - cbn -[Qcplus]. rewrite app_nil_r. f_equal. change (t = t + 0)%Qc. ring.
  - cbn [foldl fst snd]. rewrite IH. rewrite <- app_assoc. f_equal.
    change (t + c + sum_costs (snd <$> outs)
            = t + (c + sum_costs (snd <$> outs)))%Qc. ring.
  - cbn [foldl fst snd]. rewrite IH. f_equal.
    change (t + c + sum_costs (snd <$> outs)
            = t + (c + sum_costs (snd <$> outs)))%Qc. ring.
Qed.

Lemma fold_jobs_spec (n i : nat) (remaining fold_results : list (gmap string Value)) :
  fold_jobs config n i remaining fold_results
  = ((λ j, (take (fold_batch_size config)
              (drop (j * fold_batch_size config) remaining),
            fold_results !! (i + j))) <$> seq 0 n,
     drop (n * fold_batch_size config) remaining).
Proof.
  revert i remaining. induction n as [|n IH]; intros i remaining; [done|].
  cbn [fold_jobs]. rewrite IH, drop_drop.
  rewrite (fmap_cons _ 0 (seq 1 n)), <- fmap_S_seq, <- list_fmap_compose.
  rewrite Nat.add_0_r.
  assert (∀ f g : nat → list (gmap string Value) * option (gmap string Value),
            (∀ j, f j = g j) → f <$> seq 0 n = g <$> seq 0 n) as Hext.
  { intros f g Hfg. apply list_fmap_ext. intros _ j _. apply Hfg. }
  rewrite (Hext _ ((λ j, (take (fold_batch_size config)
                            (drop (j * fold_batch_size config) remaining),
                          fold_results !! (i + j))) ∘ S)).
  - do 2 f_equal; lia.
  - intros j. simpl. rewrite drop_drop. do 3 f_equal; lia.
Qed.

Lemma overwrite_lookup {A} (new old : list A) (i : nat) :
  (new ++ drop (length new) old) !! i
  = if decide (i < length new) then new !! i else old !! i.
Proof.
  case_decide as Hi.
  - by rewrite lookup_app_l.
  - rewrite lookup_app_r by lia. rewrite lookup_drop. f_equal. lia.
Qed.

(** C1. The folding phase schedules [min(num_parallel_folds,
    len(remaining_items))] lanes; lane [i] gets the next [fold_batch_size]
    items and the accumulator at position [i], if there is one.  [order]
    is the lanes in the order of completion, that is the order in which
    [as_completed] yields their tasks, and the tasks take effect in that
    order; the results that are not [None], taken in that order, are
    [completed], and with [k] its length the new accumulators are
    [completed] followed by the old accumulators from position [k] on:
    position [i < k] holds the [i]-th completed result, whichever lane it
    came from, and every position from [k] on holds what it held. *)
Theorem fold_phase_overwrites_in_completion_order
    (key : Value) (num_parallel_folds : Z)
    (remaining_items fold_results : list (gmap string Value))
    (total_cost : Qc) (st : State) :
  let size := fold_batch_size config in
  let n := Z.to_nat (Z.min num_parallel_folds
                       (Z.of_nat (length remaining_items))) in
  let lanes :=
    (λ i, (take size (drop (i * size) remaining_items), fold_results !! i))
      <$> seq 0 n in
  ∃ order,
    order ≡ₚ lanes
    ∧ as_completed _ (length (calls st))
        ((λ job, _increment_fold config key job.1 job.2) <$> lanes)
      = (λ job, _increment_fold config key job.1 job.2) <$> order
    ∧
    match sequence ((λ job, _increment_fold config key job.1 job.2) <$> order) st with
    | (Ok outs, st') =>
        let completed := omap fst outs in
        let k := length completed in
        ∃ fold_results',
          fold_phase config key num_parallel_folds remaining_items
            fold_results total_cost st
          = (Ok (drop (n * size) remaining_items, fold_results',
                 (total_cost + sum_costs (snd <$> outs))%Qc), st')
          ∧ fold_results' = completed ++ drop k fold_results
          ∧ (∀ i, i < k → fold_results' !! i = completed !! i)
          ∧ (∀ i, k ≤ i → fold_results' !! i = fold_results !! i)
    | (Raise e, st') =>
        fold_phase config key num_parallel_folds remaining_items
          fold_results total_cost st = (Raise e, st')
    | (Diverge, st') =>
        fold_phase config key num_parallel_folds remaining_items
          fold_results total_cost st = (Diverge, st')
    end.
Proof.
  intros size n lanes.
  pose proof (as_completed_perm _ (length (calls st))
    ((λ job, _increment_fold config key job.1 job.2) <$> lanes)) as Hperm.
  apply Permutation_map_inv in Hperm as (order & Horder & Hlanes).
  exists order. split; [by symmetry|]. split; [exact Horder|].
  unfold fold_phase. rewrite fold_jobs_spec. fold size n.
  change (λ j, (take size (drop (j * size) remaining_items),
                  fold_results !! (0 + j))) with
    (λ j, (take size (drop (j * size) remaining_items), fold_results !! j)).
  fold lanes. unfold mbind, M_bind, bind, gather. unfold fmap in Horder.
  unfold fmap. rewrite Horder.
  destruct (sequence _ st) as [[outs| |] st']; [|done..].
  rewrite collect_spec. cbv zeta.
  eexists. split; [reflexivity|]. split; [done|].
  split; intros i Hi; rewrite overwrite_lookup.
  - by rewrite decide_True.
  - by rewrite decide_False by lia.
Qed.

End FoldPhase.

(** ** The final merge *)

Section FinalMerge.
Context `{PyFloat} {Value : Type} `{EqDecision Value}
  `{!ModelService (Value:=Value)} `{!Scheduler}.
Variable config : Config.

Lemma sequence_yields (ms : list (M (option (gmap string Value) * Qc))) st :
  Forall yields_record ms →
  ∃ outs st', sequence ms st = (Ok outs, st')
              ∧ length (omap fst outs) = length ms.
Proof.
  intros Hall. revert st. induction Hall as [|m ms Hm _ IH]; intros st.
  - by exists [], st.
  - destruct (Hm st) as (r & c & st1 & Hrun).
    destruct (IH st1) as (outs & st' & Hseq & Hlen).
    exists ((Some r, c) :: outs), st'. split.
    + simpl. erewrite bind_Ok by exact Hrun. by erewrite bind_Ok by exact Hseq.
    + simpl. f_equal. exact Hlen.
Qed.

Lemma gather_yields (ms : list (M (option (gmap string Value) * Qc))) st :
  Forall yields_record ms →
  ∃ outs st', gather ms st = (Ok outs, st')
              ∧ length (omap fst outs) = length ms.
Proof.
  intros Hall. unfold gather.
  pose proof (as_completed_perm _ (length (calls st)) ms) as Hperm.
  rewrite <- Hperm in Hall.
  destruct (sequence_yields _ st Hall) as (outs & st' & Hseq & Hlen).
  exists outs, st'. split; [done|]. by rewrite Hlen, Hperm.
Qed.

Lemma merge_round_chunks key fold_results total st :
  0 < merge_batch_size config →
  merge_round config key fold_results total st
  = (outs ← gather (_merge_results config key
                      <$> chunks (merge_batch_size config) fold_results);
     ret (collect outs total)) st.
Proof.
  intros Hk. unfold merge_round, range_step. rewrite decide_False by lia.
  unfold chunks. by rewrite <- list_fmap_compose.
Qed.

Lemma merge_round_length key fold_results total st :
  0 < merge_batch_size config →
  (∀ outputs, yields_record (_merge_results config key outputs)) →
  ∃ new total' st',
    merge_round config key fold_results total st = (Ok (new, total'), st')
    ∧ length new
      = (length fold_results + merge_batch_size config - 1)
        / merge_batch_size config.
Proof.
  intros Hk Hyes. rewrite merge_round_chunks by done.
  destruct (gather_yields
    (_merge_results config key <$> chunks (merge_batch_size config) fold_results) st)
    as (outs & st' & Hrun & Hlen).
  { apply Forall_fmap, Forall_forall. intros b _. apply Hyes. }
  erewrite bind_Ok by exact Hrun. rewrite collect_spec.
  eexists _, _, _. split; [reflexivity|].
  by rewrite Hlen, length_fmap, length_chunks.
Qed.

(** With merges that always return a record, and [merge_batch_size = k >=
    2] or one accumulator alone, the loop stops after exactly [rounds]
    rounds with one accumulator, where [rounds] is the least number with
    [N <= k ^ rounds]. *)
Lemma final_merge_in_rounds (key : Value)
    (fold_results : list (gmap string Value)) (total_cost : Qc) (st : State) :
  2 ≤ merge_batch_size config ∨ length fold_results = 1 →
  1 ≤ length fold_results →
  (∀ outputs, yields_record (_merge_results config key outputs)) →
  let k := merge_batch_size config in
  ∃ rounds result total_cost' st',
    length fold_results ≤ k ^ rounds
    ∧ (rounds = 0 ∨ k ^ (rounds - 1) < length fold_results)
    ∧ (∀ fuel, rounds ≤ fuel →
         final_merge config fuel key fold_results total_cost st
         = (Ok ([result], total_cost'), st'))
    ∧ (∀ fuel, fuel < rounds →
         (final_merge config fuel key fold_results total_cost st).1 = Diverge).
Proof.
  intros Hk Hone Hyes k.
  remember (length fold_results) as N eqn:HN.
  revert fold_results total_cost st HN Hone Hk.
  induction (lt_wf N) as [N _ IH]. intros fold_results total_cost st HN Hone Hk.
  destruct (decide (N = 1)) as [->|Hmore].
  - destruct fold_results as [|r [|? ?]]; simpl in HN; try lia.
    exists 0, r, total_cost, st. simpl. split; [lia|]. split; [by left|].
    split; [|intros; lia].
    intros [|fuel] _; done.
  - destruct Hk as [Hk | Hk]; [|lia]. fold k in Hk.
    destruct (merge_round_length key fold_results total_cost st ltac:(lia) Hyes)
      as (new & total' & st1 & Hround & Hlen).
    fold k in Hlen. rewrite <- HN in Hlen.
    pose proof (div_up_ge N k ltac:(lia)) as Hge.
    assert (1 ≤ (N + k - 1) / k) as Hpos by nia.
    pose proof (div_up_lt N k ((N + k - 1) / k - 1) ltac:(lia) ltac:(lia)) as Hlt.
    assert ((N + k - 1) / k < N) as Hless by nia.
    destruct (IH _ Hless new total' st1 (eq_sym Hlen) Hpos ltac:(by left))
      as (rounds & result & total'' & st' & Hup & Hlow & Hrun & Hout).
    exists (S rounds), result, total'', st'.
    split; [simpl; nia|]. split.
    { right. replace (S rounds - 1) with rounds by lia.
      destruct Hlow as [->|Hlow]; [simpl; lia|].
      destruct rounds as [|rounds']; [simpl; lia|].
      replace (S rounds' - 1) with rounds' in Hlow by lia. simpl. nia. }
    split.
    + intros [|fuel] Hfuel; [lia|]. simpl.
      rewrite decide_True by lia.
      erewrite bind_Ok by exact Hround. apply Hrun. lia.
    + intros [|fuel] Hfuel; simpl; rewrite decide_True by lia; [done|].
      erewrite bind_Ok by exact Hround. apply Hout. lia.
Qed.

(** With [merge_batch_size = 1] a round merges every accumulator on its
    own, so two or more accumulators would never become fewer; the folding
    loop hands the final merge at most one (see [unit_lanes_loop]). *)
Lemma final_merge_unit_batches (fuel : nat) (key : Value)
    (fold_results : list (gmap string Value)) (total_cost : Qc) (st : State) :
  merge_batch_size config = 1 →
  (∀ outputs, yields_record (_merge_results config key outputs)) →
  2 ≤ length fold_results →
  (final_merge config fuel key fold_results total_cost st).1 = Diverge.
Proof.
  intros Hone Hyes. revert fold_results total_cost st.
  induction fuel as [|fuel IH]; intros fold_results total_cost st Hlen;
    cbn [final_merge]; rewrite decide_True by lia; [done|].
  destruct (merge_round_length key fold_results total_cost st
              ltac:(lia) Hyes) as (new & total' & st1 & Hround & Hnew).
  erewrite bind_Ok by exact Hround. apply IH.
  rewrite Hnew, Hone, Nat.div_1_r. lia.
Qed.

End FinalMerge.

(** ** Grouping *)

Section Grouping.
Context `{PyFloat} {Value : Type} `{EqDecision Value}
  (val_lt : Value → Value → bool)
  `{!ModelService (Value:=Value)} `{!Scheduler}.
Variable config : Config.

Lemma itemgetter_Some (k : string) (r : gmap string Value) v (st : State) :
  r !! k = Some v → itemgetter k r st = (Ok v, st).
Proof. intros Hk. unfold itemgetter. by rewrite Hk. Qed.

Lemma itemgetter_None (k : string) (r : gmap string Value) (st : State) :
  r !! k = None → itemgetter k r st = (Raise (KeyError k), st).
Proof. intros Hk. unfold itemgetter. by rewrite Hk. Qed.

Lemma bind_Raise {A B} (m : M A) (f : A → M B) (st st' : State) e :
  m st = (Raise e, st') → (m ≫= f) st = (Raise e, st').
Proof. intros Hm. unfold mbind, M_bind, bind. by rewrite Hm. Qed.

Lemma sequence_itemgetter (l : list (gmap string Value)) (st : State) :
  Forall (λ r, is_Some (r !! reduce_key config)) l →
  ∃ keys, sequence (itemgetter (reduce_key config) <$> l) st = (Ok keys, st)
          ∧ length keys = length l ∧ Forall (decorated config) (zip keys l).
Proof.
  induction 1 as [|r l [k Hk] _ (keys & Hseq & Hlen & Hdec)].
  - by exists [].
  - exists (k :: keys). split; [|split].
    + rewrite fmap_cons. cbn [sequence].
      erewrite bind_Ok by (by apply itemgetter_Some).
      by erewrite bind_Ok by exact Hseq.
    + simpl. by rewrite Hlen.
    + simpl. by constructor.
Qed.

Lemma sequence_itemgetter_missing (l : list (gmap string Value)) (st : State) :
  Exists (λ r, r !! reduce_key config = None) l →
  sequence (itemgetter (reduce_key config) <$> l) st
  = (Raise (KeyError (reduce_key config)), st).
Proof.
  induction l as [|r l IH]; intros Hex; [by inversion Hex|].
  rewrite fmap_cons. cbn [sequence].
  destruct (r !! reduce_key config) as [k|] eqn:Hk.
  - erewrite bind_Ok by (by apply itemgetter_Some).
    apply Exists_cons in Hex as [Hr|Hl]; [congruence|].
    by erewrite bind_Raise by (by apply IH).
  - by erewrite bind_Raise by (by apply itemgetter_None).
Qed.

Lemma insert_by_key_perm x l : insert_by_key val_lt x l ≡ₚ x :: l.
Proof.
  induction l as [|y l IH]; [done|]. simpl.
  destruct (val_lt y.1 x.1); [|done].
  rewrite IH. apply Permutation_swap.
Qed.

Lemma sort_by_key_perm l : sort_by_key val_lt l ≡ₚ l.
Proof.
  induction l as [|x l IH]; [done|]. simpl.
  by rewrite insert_by_key_perm, IH.
Qed.

Lemma key_le_trans a b c :
  strict_total_order val_lt →
  key_le val_lt a b → key_le val_lt b c → key_le val_lt a c.
Proof.
  intros (Hirr & Htrans & Htot). unfold key_le. intros Hab Hbc.
  destruct (val_lt c.1 a.1) eqn:Hca; [|done].
  destruct (decide (a.1 = b.1)) as [Heq|Hne].
  - rewrite Heq in Hca. congruence.
  - destruct (Htot _ _ Hne) as [Hlt|Hlt]; [|congruence].
    pose proof (Htrans _ _ _ Hca Hlt). congruence.
Qed.

Lemma val_lt_key_le a b :
  strict_total_order val_lt → val_lt a.1 b.1 = true → key_le val_lt a b.
Proof.
  intros (Hirr & Htrans & _) Hab. unfold key_le.
  destruct (val_lt b.1 a.1) eqn:Hba; [|done].
  pose proof (Htrans _ _ _ Hab Hba) as Haa. by rewrite Hirr in Haa.
Qed.

Lemma insert_by_key_sorted x l :
  strict_total_order val_lt →
  StronglySorted (key_le val_lt) l →
  StronglySorted (key_le val_lt) (insert_by_key val_lt x l).
Proof.
  intros Hord. induction 1 as [|y l Hsorted IH Hall]; simpl.
  - repeat constructor.
  - destruct (val_lt y.1 x.1) eqn:Hyx.
    + constructor; [done|]. rewrite insert_by_key_perm.
      constructor; [by apply val_lt_key_le|done].
    + constructor; [by constructor|].
      constructor; [done|].
      eapply Forall_impl; [exact Hall|].
      intros z Hyz. by apply (key_le_trans x y z).
Qed.

Lemma sort_by_key_sorted l :
  strict_total_order val_lt → StronglySorted (key_le val_lt) (sort_by_key val_lt l).
Proof.
  intros Hord. induction l as [|x l IH]; simpl; [constructor|].
  by apply insert_by_key_sorted.
Qed.

Lemma grouper_spec (l : list (Value * gmap string Value)) tgtkey st :
  Forall (decorated config) l →
  ∃ g gs,
    grouper (itemgetter (reduce_key config)) tgtkey l.*2 st = (Ok (g, gs), st)
    ∧ g ++ concat gs.*2 = l.*2
    ∧ Forall (λ r, r !! reduce_key config = Some tgtkey) g
    ∧ Forall (key_group config) gs
    ∧ (strict_total_order val_lt → StronglySorted (key_le val_lt) l →
       Forall (λ kr, val_lt kr.1 tgtkey = false) l →
       Forall (λ k, val_lt tgtkey k = true) gs.*1
       ∧ StronglySorted (λ a b, val_lt a b = true) gs.*1).
Proof.
  intros Hdec. revert tgtkey.
  induction Hdec as [|[k r] l Hkr Hdec IH]; intros tgtkey.
  { exists [], []. repeat split; constructor. }
  unfold decorated in Hkr. simpl in Hkr.
  rewrite fmap_cons. cbn [grouper snd].
  erewrite bind_Ok by (by apply itemgetter_Some).
  destruct (decide (k = tgtkey)) as [->|Hne].
  - destruct (IH tgtkey) as (g & gs & Hrun & Hcat & Hg & Hgs & Hsorted).
    erewrite bind_Ok by exact Hrun.
    exists (r :: g), gs. split; [done|]. split; [by rewrite <- Hcat|].
    split; [by constructor|]. split; [done|].
    intros Hord Hl Hlow. apply StronglySorted_cons in Hl as [_ Hl].
    apply Forall_cons in Hlow as [_ Hlow]. by apply Hsorted.
  - destruct (IH k) as (g & gs & Hrun & Hcat & Hg & Hgs & Hsorted).
    erewrite bind_Ok by exact Hrun.
    exists [], ((k, r :: g) :: gs). split; [done|].
    split; [by rewrite <- Hcat|]. split; [constructor|].
    split.
    { constructor; [|done]. split; [done|]. by constructor. }
    intros Hord Hl Hlow.
    apply StronglySorted_cons in Hl as [Hhead Hl].
    apply Forall_cons in Hlow as [Hk _]. simpl in Hk.
    destruct (Hsorted Hord Hl) as [Habove Hkeys].
    { eapply Forall_impl; [exact Hhead|]. by intros [k' r'] Hle. }
    pose proof Hord as (Hirr & Htrans & Htot).
    assert (val_lt tgtkey k = true) as Hlt.
    { destruct (Htot tgtkey k ltac:(congruence)); [done|congruence]. }
    rewrite fmap_cons. simpl. split.
    + constructor; [done|].
      eapply Forall_impl; [exact Habove|]. intros k' Hk'. by eapply Htrans.
    + by constructor.
Qed.

Lemma groupby_spec (l : list (Value * gmap string Value)) st :
  Forall (decorated config) l →
  ∃ groups,
    groupby (itemgetter (reduce_key config)) l.*2 st = (Ok groups, st)
    ∧ concat groups.*2 = l.*2
    ∧ Forall (key_group config) groups
    ∧ (strict_total_order val_lt → StronglySorted (key_le val_lt) l →
       StronglySorted (λ a b, val_lt a b = true) groups.*1).
Proof.
  intros Hdec. destruct Hdec as [|[k r] l Hkr Hdec].
  { exists []. repeat split; constructor. }
  unfold decorated in Hkr. simpl in Hkr.
  rewrite fmap_cons. cbn [groupby snd].
  erewrite bind_Ok by (by apply itemgetter_Some).
  destruct (grouper_spec l k st Hdec) as (g & gs & Hrun & Hcat & Hg & Hgs & Hsorted).
  erewrite bind_Ok by exact Hrun.
  exists ((k, r :: g) :: gs). split; [done|].
  split; [by rewrite <- Hcat|]. split.
  { constructor; [|done]. split; [done|]. by constructor. }
  intros Hord Hl. apply StronglySorted_cons in Hl as [Hhead Hl].
  destruct (Hsorted Hord Hl) as [Habove Hkeys].
  { eapply Forall_impl; [exact Hhead|]. by intros [k' r'] Hle. }
  rewrite fmap_cons. by constructor.
Qed.

Lemma StronglySorted_lookup_lt {A} (R : relation A) (l : list A) i j x y :
  StronglySorted R l → l !! i = Some x → l !! j = Some y → i < j → R x y.
Proof.
  intros Hsorted Hi Hj Hlt.
  rewrite <- (take_drop j l) in Hsorted.
  eapply StronglySorted_app_1_elem_of; [exact Hsorted| |].
  - eapply list_elem_of_lookup_2. by rewrite lookup_take_lt.
  - eapply (list_elem_of_lookup_2 _ 0). by rewrite lookup_drop, Nat.add_0_r.
Qed.

(** C6. When every record carries the reduce key and [<] is a strict
    total order on the key values, [execute] forms groups whose records,
    taken together, are the input records (each once); every group is not
    empty and all its records carry the group's key; the keys of the
    groups are strictly ascending, so two records with one key value are
    in one group; and it is these groups that [execute] processes. *)
Theorem grouping_partitions_by_key
    (input_data : list (gmap string Value)) (st : State) :
  strict_total_order val_lt →
  Forall (λ r, is_Some (r !! reduce_key config)) input_data →
  ∃ groups,
    grouping val_lt config input_data st = (Ok groups, st)
    ∧ concat groups.*2 ≡ₚ input_data
    ∧ Forall (key_group config) groups
    ∧ StronglySorted (λ a b, val_lt a b = true) groups.*1
    ∧ (∀ i j ki gi kj gj r1 r2,
         groups !! i = Some (ki, gi) → groups !! j = Some (kj, gj) →
         r1 ∈ gi → r2 ∈ gj →
         r1 !! reduce_key config = r2 !! reduce_key config → i = j)
    ∧ (∀ fuel,
         execute val_lt config fuel input_data st
         = (outs ← gather ((λ kg, process_group config fuel kg.1 kg.2)
                             <$> groups);
            ret (collect outs 0%Qc)) st).
Proof.
  intros Hord Hkeys.
  destruct (sequence_itemgetter input_data st Hkeys) as (keys & Hseq & Hlen & Hdec).
  set (sorted_pairs := sort_by_key val_lt (zip keys input_data)).
  assert (Forall (decorated config) sorted_pairs) as Hdec'.
  { unfold sorted_pairs. by rewrite sort_by_key_perm. }
  destruct (groupby_spec sorted_pairs st Hdec')
    as (groups & Hrun & Hcat & Hgroups & Hsorted).
  assert (grouping val_lt config input_data st = (Ok groups, st)) as Hgrouping.
  { unfold grouping, sorted.
    erewrite bind_Ok; [|by erewrite bind_Ok by exact Hseq]. exact Hrun. }
  pose proof (Hsorted Hord (sort_by_key_sorted _ Hord)) as Hasc.
  exists groups. split; [done|]. split.
  { rewrite Hcat. unfold sorted_pairs. rewrite sort_by_key_perm.
    rewrite snd_zip by lia. done. }
  split; [done|]. split; [done|]. split.
  - intros i j ki gi kj gj r1 r2 Hi Hj Hr1 Hr2 Heq.
    assert (ki = kj) as ->.
    { rewrite Forall_forall in Hgroups.
      destruct (Hgroups _ (list_elem_of_lookup_2 _ _ _ Hi)) as [_ Hgi].
      destruct (Hgroups _ (list_elem_of_lookup_2 _ _ _ Hj)) as [_ Hgj].
      rewrite Forall_forall in Hgi, Hgj. simpl in *.
      specialize (Hgi _ Hr1). specialize (Hgj _ Hr2). congruence. }
    destruct Hord as (Hirr & _ & _).
    assert (groups.*1 !! i = Some kj) as Hki by (by rewrite list_lookup_fmap, Hi).
    assert (groups.*1 !! j = Some kj) as Hkj by (by rewrite list_lookup_fmap, Hj).
    destruct (Nat.lt_trichotomy i j) as [Hlt|[->|Hlt]]; [|done|].
    + pose proof (StronglySorted_lookup_lt _ _ _ _ _ _ Hasc Hki Hkj Hlt) as Hbad.
      simpl in Hbad. by rewrite Hirr in Hbad.
    + pose proof (StronglySorted_lookup_lt _ _ _ _ _ _ Hasc Hkj Hki Hlt) as Hbad.
      simpl in Hbad. by rewrite Hirr in Hbad.
  - intros fuel. unfold execute. by erewrite bind_Ok by exact Hgrouping.
Qed.

Lemma grouping_total (input_data : list (gmap string Value)) (st : State) :
  Forall (λ r, is_Some (r !! reduce_key config)) input_data →
  ∃ groups, grouping val_lt config input_data st = (Ok groups, st).
Proof.
  intros Hkeys.
  destruct (sequence_itemgetter input_data st Hkeys) as (keys & Hseq & Hlen & Hdec).
  assert (Forall (decorated config) (sort_by_key val_lt (zip keys input_data))) as Hdec'
    by (by rewrite sort_by_key_perm).
  destruct (groupby_spec _ st Hdec') as (groups & Hrun & _).
  exists groups. unfold grouping, sorted.
  erewrite bind_Ok; [|by erewrite bind_Ok by exact Hseq]. exact Hrun.
Qed.

(** C10. When some record lacks the reduce key, the sort by key, and with
    it [execute], raises [KeyError] for that key and leaves the state as it
    was: no group is formed, no call to the model service is logged and no
    telemetry is recorded, whatever the fuel. *)
Theorem execute_requires_reduce_key
    (fuel : nat) (input_data : list (gmap string Value)) (st : State) :
  Exists (λ r, r !! reduce_key config = None) input_data →
  sorted val_lt (itemgetter (reduce_key config)) input_data st
  = (Raise (KeyError (reduce_key config)), st)
  ∧ grouping val_lt config input_data st
    = (Raise (KeyError (reduce_key config)), st)
  ∧ execute val_lt config fuel input_data st
    = (Raise (KeyError (reduce_key config)), st).
Proof.
  intros Hmissing.
  assert (sorted val_lt (itemgetter (reduce_key config)) input_data st
          = (Raise (KeyError (reduce_key config)), st)) as Hsort.
  { unfold sorted. erewrite bind_Raise; [done|].
    by apply sequence_itemgetter_missing. }
  assert (grouping val_lt config input_data st
          = (Raise (KeyError (reduce_key config)), st)) as Hraise.
  { unfold grouping. by erewrite bind_Raise by exact Hsort. }
  split; [done|]. split; [done|].
  unfold execute. by erewrite bind_Raise by exact Hraise.
Qed.

End Grouping.

(** ** Pass-through *)

Section PassThrough.
Context `{PyFloat} {Value : Type} `{EqDecision Value}
  `{!ModelService (Value:=Value)} `{!Scheduler}.
Variable config : Config.

Lemma project_lookup (item : gmap string Value) (k : string) :
  project config item !! k
  = match input_schema config !! k with
    | Some _ => item !! k
    | None => None
    end.
Proof.
  unfold project. rewrite map_lookup_imap.
  by destruct (input_schema config !! k).
Qed.

Lemma pass_through_fold (items : list (string * Value))
    (result : gmap string Value) (k : string) :
  NoDup items.*1 →
  foldl (pass_through_step config) result items !! k
  = match result !! k with
    | Some v => Some v
    | None =>
        match output_schema config !! k with
        | Some _ => None
        | None => (list_to_map items : gmap string Value) !! k
        end
    end.
Proof.
  revert result. induction items as [|[k0 v0] items IH]; intros result Hnodup.
  - simpl. rewrite lookup_empty.
    by destruct (result !! k), (output_schema config !! k).
  - rewrite fmap_cons in Hnodup. apply NoDup_cons in Hnodup as [Hfresh Hnodup].
    cbn [fst] in Hfresh. cbn [foldl]. rewrite IH by done. cbn [list_to_map foldr uncurry].
    apply (not_elem_of_list_to_map_1 (M:=gmap string)) in Hfresh.
    unfold pass_through_step. cbn [fst snd].
    destruct (decide (k = k0)) as [->|Hne].
    + rewrite lookup_insert_eq, Hfresh. case_decide as Hcopy.
      * destruct Hcopy as [-> ->]. by rewrite lookup_insert_eq.
      * destruct (result !! k0); [done|].
        destruct (output_schema config !! k0); [done|]. by destruct Hcopy.
    + rewrite (lookup_insert_ne _ k0 k) by done.
      case_decide; [by rewrite lookup_insert_ne by done|done].
Qed.

(** C9, as the code has it.  With [pass_through] enabled and a record
    [result] produced by the strategy for a group that starts with
    [record], the final result holds, for every field: the value [result]
    has for it, if any; otherwise nothing if the output schema declares
    it; otherwise the value the first record HANDED TO THE STRATEGY has
    for it, which is [record] itself without an input schema and the
    projection of [record] on the input schema with one. *)
Theorem pass_through_copies_from_projected_first
    (fuel : nat) (key : Value) (record : gmap string Value)
    (records : list (gmap string Value)) (st st' : State)
    (result : gmap string Value) (cost : Qc) :
  pass_through config = true →
  run_strategy config fuel key (strategy_input config (record :: records)) st
  = (Ok (Some result, cost), st') →
  let first :=
    if decide (input_schema config = ∅) then record
    else project config record in
  ∃ final,
    process_group config fuel key (record :: records) st
    = (Ok (Some final, cost), st')
    ∧ (∀ k, final !! k
            = match result !! k with
              | Some v => Some v
              | None =>
                  match output_schema config !! k with
                  | Some _ => None
                  | None => first !! k
                  end
              end)
    ∧ (∀ k, project config record !! k
            = match input_schema config !! k with
              | Some _ => record !! k
              | None => None
              end).
Proof.
  intros Hpass Hrun first.
  exists (foldl (pass_through_step config) result (map_to_list first)).
  split; [|split].
  - unfold process_group. erewrite bind_Ok by exact Hrun.
    rewrite Hpass. unfold strategy_input, first.
    by case_decide.
  - intros k. rewrite pass_through_fold by apply NoDup_fst_map_to_list.
    by rewrite list_to_map_to_list.
  - apply project_lookup.
Qed.

End PassThrough.

(** ** Cost accounting *)

Section Cost.
Context `{PyFloat} {Value : Type} `{EqDecision Value}
  (val_lt : Value → Value → bool)
  `{!ModelService (Value:=Value)} `{!Scheduler}.
Variable config : Config.

Lemma quiet_spent {A} (m : M A) st o st' :
  quiet m → m st = (o, st') → spent st' = spent st.
Proof.
  intros Hq Hm. unfold spent. specialize (Hq st).
  by rewrite Hm in Hq; simpl in Hq; rewrite Hq.
Qed.

Lemma quiet_ret {A} (a : A) : quiet (ret a).
Proof. done. Qed.

Lemma quiet_bind {A B} (m : M A) (f : A → M B) :
  quiet m → (∀ a, quiet (f a)) → quiet (m ≫= f).
Proof.
  intros Hm Hf st. unfold mbind, M_bind, bind.
  specialize (Hm st). destruct (m st) as [[a| |] st1]; simpl in *; [|done..].
  by rewrite Hf.
Qed.

Lemma quiet_itemgetter k (r : gmap string Value) : quiet (itemgetter k r).
Proof. intros st. unfold itemgetter. by destruct (r !! k). Qed.

Lemma quiet_sequence {A} (ms : list (M A)) : Forall quiet ms → quiet (sequence ms).
Proof.
  induction 1 as [|m ms Hm _ IH]; [done|]. cbn [sequence].
  apply quiet_bind; [done|]. intros a. apply quiet_bind; [done|]. by intros.
Qed.

Lemma quiet_grouper tgtkey it :
  quiet (grouper (itemgetter (reduce_key config)) tgtkey it).
Proof.
  revert tgtkey. induction it as [|x it IH]; intros tgtkey; [done|].
  cbn [grouper]. apply quiet_bind; [apply quiet_itemgetter|]. intros k.
  case_decide; (apply quiet_bind; [apply IH|]); by intros [g gs].
Qed.

Lemma quiet_grouping input_data : quiet (grouping val_lt config input_data).
Proof.
  unfold grouping, sorted. apply quiet_bind.
  - apply quiet_bind; [|done]. apply quiet_sequence.
    apply Forall_fmap, Forall_forall. intros r _. apply quiet_itemgetter.
  - intros [|x it]; [done|]. cbn [groupby].
    apply quiet_bind; [apply quiet_itemgetter|]. intros k.
    apply quiet_bind; [apply quiet_grouper|]. by intros [g gs].
Qed.

Lemma quiet_get_fold_time : quiet (get_fold_time config).
Proof.
  intros st. unfold get_fold_time.
  destruct (fold_time config); [done|]. by case_decide.
Qed.

Lemma quiet_get_merge_time : quiet (get_merge_time config).
Proof.
  intros st. unfold get_merge_time.
  destruct (merge_time config); [done|]. by case_decide.
Qed.

Lemma quiet_calculate group_list :
  quiet (calculate_num_parallel_folds config group_list).
Proof. intros st. by rewrite calculate_same_state. Qed.

Lemma quiet_range_step stop step : quiet (range_step stop step).
Proof. intros st. unfold range_step. by case_decide. Qed.

Lemma llm_spent op_type p st r st' :
  llm config op_type p st = (Ok r, st') →
  spent st' = (spent st + completion_cost r)%Qc.
Proof.
  unfold llm, mbind, M_bind, bind, tick, log_call, ret. intros [= <- <-].
  unfold spent. simpl. rewrite fmap_app, sum_costs_app.
  change (sum_costs (call_cost <$> [?c])) with (call_cost c + 0)%Qc.
  simpl. ring.
Qed.

Lemma llm_with_gleaning_spent op_type p vp rounds st r gc st' :
  llm_with_gleaning config op_type p vp rounds st = (Ok (r, gc), st') →
  spent st' = (spent st + (gc + completion_cost r))%Qc.
Proof.
  unfold llm_with_gleaning, mbind, M_bind, bind, tick, log_call, ret.
  destruct (call_llm_with_gleaning _ _ _ _ _ _ _) as [r0 gc0].
  intros [= <- <- <-].
  unfold spent. simpl. rewrite fmap_app, sum_costs_app.
  change (sum_costs (call_cost <$> [?c])) with (call_cost c + 0)%Qc.
  simpl. ring.
Qed.

Ltac inv_bind H :=
  let a := fresh "a" in
  let st := fresh "st" in
  let Hrun := fresh "Hrun" in
  apply bind_Ok_inv in H as (a & st & Hrun & H).

Ltac inv_ret H := unfold ret in H; injection H; clear H; intros; subst.

Lemma accounts_batch_reduce key group_list :
  accounts (_batch_reduce config key group_list).
Proof.
  intros st a c st' Hrun. unfold _batch_reduce in Hrun.
  inv_bind Hrun. destruct a0 as [response item_cost].
  assert (spent st0 = (spent st + (item_cost + completion_cost response))%Qc)
    as Hspent.
  { destruct (gleaning config) as [[vp rounds]|].
    - inv_bind Hrun0. destruct a0 as [r gc]. inv_ret Hrun0.
      rewrite (llm_with_gleaning_spent _ _ _ _ _ _ _ _ Hrun1). ring.
    - inv_bind Hrun0. inv_ret Hrun0.
      rewrite (llm_spent _ _ _ _ _ Hrun1). ring. }
  destruct (validate_output _ _); inv_ret Hrun; by rewrite Hspent.
Qed.

Lemma update_fold_time_spent t st o st' :
  _update_fold_time t st = (o, st') → spent st' = spent st.
Proof. by intros [= <- <-]. Qed.

Lemma update_merge_time_spent t st o st' :
  _update_merge_time t st = (o, st') → spent st' = spent st.
Proof. by intros [= <- <-]. Qed.

Lemma accounts_increment_fold key batch current_output :
  accounts (_increment_fold config key batch current_output).
Proof.
  destruct current_output as [out|]; [|apply accounts_batch_reduce].
  intros st a c st' Hrun. unfold _increment_fold in Hrun.
  inv_bind Hrun. unfold tick in Hrun0. simplify_eq.
  destruct (fold_prompt config) as [t|]; [|done].
  inv_bind Hrun. inv_bind Hrun.
  apply update_fold_time_spent in Hrun1. apply llm_spent in Hrun0.
  destruct (validate_output _ _); inv_ret Hrun; congruence.
Qed.

Lemma accounts_merge_results key outputs :
  accounts (_merge_results config key outputs).
Proof.
  intros st a c st' Hrun. unfold _merge_results in Hrun.
  inv_bind Hrun. unfold tick in Hrun0. simplify_eq.
  destruct (merge_prompt config) as [t|]; [|done].
  inv_bind Hrun. inv_bind Hrun.
  apply update_merge_time_spent in Hrun1. apply llm_spent in Hrun0.
  destruct (validate_output _ _); inv_ret Hrun; congruence.
Qed.

Lemma sequence_spent {A} (ms : list (M (A * Qc))) st outs st' :
  Forall accounts ms →
  sequence ms st = (Ok outs, st') →
  spent st' = (spent st + sum_costs (snd <$> outs))%Qc.
Proof.
  intros Hall. revert st outs. induction Hall as [|m ms Hm _ IH]; intros st outs Hrun.
  - cbn [sequence] in Hrun. inv_ret Hrun.
    change (spent st' = spent st' + 0)%Qc. ring.
  - cbn [sequence] in Hrun. inv_bind Hrun. inv_bind Hrun. inv_ret Hrun.
    destruct a as [x c]. apply Hm in Hrun0. apply IH in Hrun1.
    rewrite Hrun1, Hrun0, fmap_cons.
    change (sum_costs ((x, c).2 :: (snd <$> a0)))
      with (c + sum_costs (snd <$> a0))%Qc.
    ring.
Qed.

Lemma gather_spent {A} (ms : list (M (A * Qc))) st outs st' :
  Forall accounts ms →
  gather ms st = (Ok outs, st') →
  spent st' = (spent st + sum_costs (snd <$> outs))%Qc.
Proof.
  intros Hall. unfold gather. apply sequence_spent.
  by rewrite as_completed_perm.
Qed.

Lemma Qc_cancel (a b c : Qc) : (a + c = b + c)%Qc → a = b.
Proof.
  intros Heq. transitivity (a + c - c)%Qc; [ring|]. rewrite Heq. ring.
Qed.

Lemma incremental_loop_spent key group_list indices cur total st r total' st' :
  incremental_loop config key group_list indices cur total st
  = (Ok (r, total'), st') →
  (spent st' + total = spent st + total')%Qc.
Proof.
  revert cur total st. induction indices as [|i indices IH]; intros cur total st Hrun.
  - cbn [incremental_loop] in Hrun. by inv_ret Hrun.
  - cbn [incremental_loop] in Hrun. inv_bind Hrun.
    destruct a as [folded_output fold_cost].
    apply accounts_increment_fold in Hrun0.
    destruct folded_output as [out|].
    + apply IH in Hrun. rewrite Hrun0 in Hrun.
      apply (Qc_cancel _ _ fold_cost).
      transitivity (spent st' + (total + fold_cost))%Qc; [ring|].
      rewrite Hrun. ring.
    + inv_ret Hrun. rewrite Hrun0. ring.
Qed.

Lemma accounts_incremental_reduce key group_list :
  accounts (_incremental_reduce config key group_list).
Proof.
  intros st a c st' Hrun. unfold _incremental_reduce in Hrun.
  inv_bind Hrun. apply (quiet_spent _ _ _ _ (quiet_range_step _ _)) in Hrun0.
  apply incremental_loop_spent in Hrun. rewrite Hrun0 in Hrun.
  rewrite <- Hrun. ring.
Qed.

Lemma merge_round_spent key fold_results total st new total' st' :
  merge_round config key fold_results total st = (Ok (new, total'), st') →
  (spent st' + total = spent st + total')%Qc.
Proof.
  intros Hrun. unfold merge_round in Hrun.
  inv_bind Hrun. apply (quiet_spent _ _ _ _ (quiet_range_step _ _)) in Hrun0.
  inv_bind Hrun. inv_ret Hrun. rewrite collect_spec in *. simplify_eq.
  apply gather_spent in Hrun1.
  - rewrite Hrun1, Hrun0. ring.
  - apply Forall_fmap, Forall_forall. intros i _.
    exact (accounts_merge_results key _).
Qed.

Lemma fold_phase_spent key n remaining fold_results total st
    remaining' fold_results' total' st' :
  fold_phase config key n remaining fold_results total st
  = (Ok (remaining', fold_results', total'), st') →
  (spent st' + total = spent st + total')%Qc.
Proof.
  intros Hrun. unfold fold_phase in Hrun.
  destruct (fold_jobs _ _ _ _ _) as [jobs rest].
  inv_bind Hrun. rewrite collect_spec in Hrun. inv_ret Hrun.
  apply gather_spent in Hrun0.
  - rewrite Hrun0. ring.
  - apply Forall_fmap, Forall_forall. intros job _. apply accounts_increment_fold.
Qed.

Lemma final_merge_spent fuel key fold_results total st new total' st' :
  final_merge config fuel key fold_results total st = (Ok (new, total'), st') →
  (spent st' + total = spent st + total')%Qc.
Proof.
  revert fold_results total st.
  induction fuel as [|fuel IH]; intros fold_results total st Hrun;
    cbn [final_merge] in Hrun; case_decide; try done; try by inv_ret Hrun.
  inv_bind Hrun. destruct a as [merged total1].
  apply merge_round_spent in Hrun0. apply IH in Hrun.
  apply (Qc_cancel _ _ total1).
  transitivity (spent st' + total1 + total)%Qc; [ring|].
  rewrite Hrun.
  transitivity (spent st0 + total + total')%Qc; [ring|].
  rewrite Hrun0. ring.
Qed.

Lemma quiet_merge_samples : quiet merge_samples.
Proof. done. Qed.

Lemma fold_merge_loop_spent fuel key group_list n used remaining fold_results
    total st new total' st' :
  fold_merge_loop config fuel key group_list n used remaining fold_results
    total st = (Ok (new, total'), st') →
  (spent st' + total = spent st + total')%Qc.
Proof.
  revert n used remaining fold_results total st.
  induction fuel as [|fuel IH]; intros n used remaining fold_results total st Hrun;
    destruct remaining as [|item remaining];
    cbn [fold_merge_loop] in Hrun; try done; try by inv_ret Hrun.
  inv_bind Hrun. destruct a as [[remaining1 fold_results1] total1].
  apply fold_phase_spent in Hrun0.
  inv_bind Hrun. apply (quiet_spent _ _ _ _ quiet_merge_samples) in Hrun1.
  inv_bind Hrun. destruct a0 as [fold_results2 total2].
  assert (spent st2 + total1 = spent st1 + total2)%Qc as Hmerge.
  { case_decide.
    - by apply merge_round_spent in Hrun2.
    - by inv_ret Hrun2. }
  inv_bind Hrun. destruct a0 as [n' used'].
  assert (spent st3 = spent st2) as Hcalc.
  { destruct used.
    - eapply (quiet_spent _ _ _ _ (quiet_bind _ _ (quiet_calculate group_list) _)).
      exact Hrun3.
    - by inv_ret Hrun3. }
  apply IH in Hrun. rewrite Hcalc in Hrun. rewrite Hrun1 in Hmerge.
  apply (Qc_cancel _ _ (total1 + total2)).
  transitivity (spent st' + total2 + (total + total1))%Qc; [ring|].
  rewrite Hrun.
  transitivity (spent st2 + total1 + (total + total'))%Qc; [ring|].
  rewrite Hmerge.
  transitivity (spent st0 + total + (total2 + total'))%Qc; [ring|].
  rewrite Hrun0. ring.
  Unshelve. by intros [? []].
Qed.

Lemma accounts_parallel_fold_and_merge fuel key group_list :
  accounts (_parallel_fold_and_merge config fuel key group_list).
Proof.
  intros st a c st' Hrun. unfold _parallel_fold_and_merge in Hrun.
  inv_bind Hrun. destruct a0 as [n used].
  apply (quiet_spent _ _ _ _ (quiet_calculate group_list)) in Hrun0.
  inv_bind Hrun. destruct a0 as [fold_results total].
  apply fold_merge_loop_spent in Hrun1.
  inv_bind Hrun. destruct a0 as [fold_results' total'].
  apply final_merge_spent in Hrun2. inv_ret Hrun.
  rewrite Hrun0 in Hrun1.
  apply (Qc_cancel _ _ total).
  transitivity (spent st1 + c)%Qc; [exact Hrun2|].
  transitivity (spent st1 + 0 + c)%Qc; [ring|]. rewrite Hrun1. ring.
Qed.

Lemma accounts_run_strategy fuel key group_list :
  accounts (run_strategy config fuel key group_list).
Proof.
  unfold run_strategy.
  destruct (merge_prompt config); [apply accounts_parallel_fold_and_merge|].
  destruct (fold_prompt config);
    [apply accounts_incremental_reduce | apply accounts_batch_reduce].
Qed.

Lemma accounts_process_group fuel key group_list :
  accounts (process_group config fuel key group_list).
Proof.
  intros st a c st' Hrun. unfold process_group in Hrun.
  inv_bind Hrun. destruct a0 as [result cost].
  apply accounts_run_strategy in Hrun0.
  destruct result as [result|]; [|by inv_ret Hrun].
  destruct (pass_through config); [|by inv_ret Hrun].
  destruct (strategy_input config group_list); by inv_ret Hrun.
Qed.

(** C8. When [execute] returns, the cost it returns is the cost of the
    calls to the model service logged during the execution: the
    [completion_cost] of every response (batch reduce, fold and merge alike,
    whether or not the record parsed from it passed validation), plus, for
    a call with gleaning, the cost the gleaning variant reported. *)
Theorem execute_cost_is_sum_of_calls
    (fuel : nat) (input_data : list (gmap string Value)) (st st' : State)
    (results : list (gmap string Value)) (total_cost : Qc) :
  execute val_lt config fuel input_data st = (Ok (results, total_cost), st') →
  spent st' = (spent st + total_cost)%Qc
  ∧ (calls st = [] → total_cost = sum_costs (call_cost <$> calls st')).
Proof.
  intros Hrun.
  assert (spent st' = (spent st + total_cost)%Qc) as Hspent.
  { unfold execute in Hrun. inv_bind Hrun.
    apply (quiet_spent _ _ _ _ (quiet_grouping input_data)) in Hrun0.
    inv_bind Hrun. rewrite collect_spec in Hrun. inv_ret Hrun.
    apply gather_spent in Hrun1.
    - rewrite Hrun1, Hrun0. ring.
    - apply Forall_fmap, Forall_forall. intros kg _.
      apply accounts_process_group. }
  split; [done|]. intros Hfresh. fold (spent st'). rewrite Hspent.
  unfold spent. rewrite Hfresh. change (sum_costs (call_cost <$> [])) with 0%Qc.
  ring.
Qed.

End Cost.

(** ** Termination *)

Section Termination.
Context `{PyFloat} {Value : Type} `{EqDecision Value}
  (val_lt : Value → Value → bool)
  `{!ModelService (Value:=Value)} `{!Scheduler}.
Variable config : Config.

Ltac returns_now :=
  intros ?st; eexists _, _;
  cbv beta iota zeta delta
    [llm mbind M_bind bind tick log_call ret merge_samples
     _update_fold_time _update_merge_time];
  split; [reflexivity|done].

Lemma returns_ret {A} (P : A → Prop) (a : A) : P a → returns_with P (ret a).
Proof. intros Ha st. by exists a, st. Qed.

Lemma returns_bind {A B} (P : A → Prop) (Q : B → Prop)
    (m : M A) (f : A → M B) :
  returns_with P m → (∀ a, P a → returns_with Q (f a)) →
  returns_with Q (m ≫= f).
Proof.
  intros Hm Hf st. destruct (Hm st) as (a & st1 & Hrun & Ha).
  destruct (Hf a Ha st1) as (b & st' & Hrun' & Hb).
  exists b, st'. split; [|done]. by erewrite bind_Ok by exact Hrun.
Qed.

Lemma returns_weaken {A} (P Q : A → Prop) (m : M A) :
  (∀ a, P a → Q a) → returns_with P m → returns_with Q m.
Proof.
  intros HPQ Hm st. destruct (Hm st) as (a & st' & Hrun & Ha).
  exists a, st'. auto.
Qed.

Lemma returns_sequence {A} (ms : list (M A)) :
  Forall (returns_with (λ _, True)) ms →
  returns_with (λ outs, length outs = length ms) (sequence ms).
Proof.
  induction 1 as [|m ms Hm _ IH]; cbn [sequence].
  - by apply returns_ret.
  - eapply returns_bind; [exact Hm|]. intros a _.
    eapply returns_bind; [exact IH|]. intros outs Houts.
    apply returns_ret. simpl. by rewrite Houts.
Qed.

Lemma returns_gather {A} (ms : list (M A)) :
  Forall (returns_with (λ _, True)) ms →
  returns_with (λ outs, length outs = length ms) (gather ms).
Proof.
  intros Hall st. unfold gather.
  pose proof (as_completed_perm _ (length (calls st)) ms) as Hperm.
  rewrite <- Hperm in Hall.
  destruct (returns_sequence _ Hall st) as (outs & st' & Hrun & Hlen).
  exists outs, st'. split; [done|]. by rewrite Hlen, Hperm.
Qed.

Lemma returns_llm op_type p :
  returns_with (λ _, True) (llm config op_type p).
Proof. returns_now. Qed.

Lemma returns_batch_reduce key group_list :
  returns_with (λ _, True) (_batch_reduce config key group_list).
Proof.
  unfold _batch_reduce.
  eapply (returns_bind (λ _, True)).
  - destruct (gleaning config) as [[vp rounds]|].
    + eapply (returns_bind (λ _, True)).
      * intros st. unfold llm_with_gleaning, mbind, M_bind, bind, tick.
        destruct (call_llm_with_gleaning _ _ _ _ _ _ _) as [r gc].
        eexists _, _. split; [reflexivity|done].
      * intros [r gc] _. by apply returns_ret.
    + eapply (returns_bind (λ _, True)); [apply returns_llm|].
      intros r _. by apply returns_ret.
  - intros [r c] _. destruct (validate_output _ _); by apply returns_ret.
Qed.

Lemma returns_increment_fold key batch current_output :
  is_Some (fold_prompt config) →
  returns_with (λ _, True) (_increment_fold config key batch current_output).
Proof.
  intros [t Ht]. destruct current_output as [out|];
    [|apply returns_batch_reduce].
  unfold _increment_fold. rewrite Ht.
  eapply (returns_bind (λ _, True)); [returns_now|].
  intros start _.
  eapply (returns_bind (λ _, True)); [apply returns_llm|]. intros r _.
  eapply (returns_bind (λ _, True)); [returns_now|].
  intros _ _. destruct (validate_output _ _); by apply returns_ret.
Qed.

Lemma returns_merge_results key outputs :
  is_Some (merge_prompt config) →
  returns_with (λ _, True) (_merge_results config key outputs).
Proof.
  intros [t Ht]. unfold _merge_results. rewrite Ht.
  eapply (returns_bind (λ _, True)); [returns_now|].
  intros start _.
  eapply (returns_bind (λ _, True)); [apply returns_llm|]. intros r _.
  eapply (returns_bind (λ _, True)); [returns_now|].
  intros _ _. destruct (validate_output _ _); by apply returns_ret.
Qed.

Lemma length_omap_le {A B} (f : A → option B) (l : list A) :
  length (omap f l) ≤ length l.
Proof.
  induction l as [|x l IH]; [done|]. csimpl.
  destruct (f x); simpl in *; lia.
Qed.

Lemma div_up_le (n k : nat) : 0 < k → (n + k - 1) / k ≤ n.
Proof.
  intros Hk. destruct (decide ((n + k - 1) / k ≤ n)) as [|Hgt]; [done|].
  pose proof (div_up_lt n k n Hk ltac:(lia)). nia.
Qed.

Lemma div_up_less (n k : nat) : 2 ≤ k → 2 ≤ n → (n + k - 1) / k < n.
Proof.
  intros Hk Hn. destruct (decide ((n + k - 1) / k < n)) as [|Hge]; [done|].
  pose proof (div_up_lt n k (n - 1) ltac:(lia) ltac:(lia)). nia.
Qed.

Lemma returns_merge_round key fold_results total :
  is_Some (merge_prompt config) → 0 < merge_batch_size config →
  returns_with
    (λ r, length r.1
          ≤ (length fold_results + merge_batch_size config - 1)
            / merge_batch_size config)
    (merge_round config key fold_results total).
Proof.
  intros Hprompt Hk st. rewrite merge_round_chunks by done.
  destruct (returns_gather
    (_merge_results config key
       <$> chunks (merge_batch_size config) fold_results)) with st
    as (outs & st' & Hrun & Hlen).
  { apply Forall_fmap, Forall_forall. intros b _.
    by apply returns_merge_results. }
  erewrite bind_Ok by exact Hrun. rewrite collect_spec.
  eexists _, _. split; [reflexivity|]. simpl.
  etrans; [apply length_omap_le|].
  by rewrite Hlen, length_fmap, length_chunks.
Qed.

Lemma returns_fold_phase key n remaining fold_results total :
  is_Some (fold_prompt config) →
  returns_with
    (λ r, r.1.1
          = drop (Z.to_nat (Z.min n (Z.of_nat (length remaining)))
                  * fold_batch_size config) remaining
          ∧ length r.1.2
            ≤ Z.to_nat (Z.min n (Z.of_nat (length remaining)))
              `max` length fold_results)
    (fold_phase config key n remaining fold_results total).
Proof.
  intros Hprompt st. unfold fold_phase. rewrite fold_jobs_spec.
  match goal with
  | |- context [gather ?tasks] =>
      destruct (returns_gather tasks) with st as (outs & st' & Hrun & Hlen)
  end.
  { apply Forall_fmap, Forall_forall. intros job _.
    by apply returns_increment_fold. }
  erewrite bind_Ok by exact Hrun. rewrite collect_spec.
  eexists _, _. split; [reflexivity|]. simpl. split; [done|].
  rewrite !length_fmap, length_seq in Hlen.
  pose proof (length_omap_le fst outs).
  rewrite length_app, length_drop. lia.
Qed.

Lemma returns_final_merge fuel key fold_results total :
  is_Some (merge_prompt config) → 2 ≤ merge_batch_size config →
  length fold_results ≤ fuel →
  returns_with (λ _, True) (final_merge config fuel key fold_results total).
Proof.
  intros Hmerge Hk. revert fold_results total.
  induction fuel as [|fuel IH]; intros fold_results total Hfuel;
    cbn [final_merge]; case_decide; try (by apply returns_ret); [lia|].
  eapply returns_bind; [apply returns_merge_round; [done|lia]|].
  intros [new total'] Hnew. simpl in Hnew. apply IH.
  pose proof (div_up_less (length fold_results) (merge_batch_size config)
                ltac:(lia) ltac:(lia)). lia.
Qed.

Lemma returns_incremental_loop key group_list indices cur tot :
  is_Some (fold_prompt config) →
  returns_with (λ _, True)
    (incremental_loop config key group_list indices cur tot).
Proof.
  intros Hfold. revert cur tot.
  induction indices as [|i indices IH]; intros cur tot;
    cbn [incremental_loop]; [by apply returns_ret|].
  eapply returns_bind; [by apply returns_increment_fold|].
  intros [[out|] c] _; [apply IH | by apply returns_ret].
Qed.

Lemma checked_terminating : checked config → terminating config.
Proof.
  intros (Hprompts & Hfbs & Hmbs). split; [split|]; [|done..].
  intros Hmerge. split; [by apply Hprompts | lia].
Qed.

End Termination.

(** * Further properties *)

(** ** State invariants across an execution *)

Section Invariants.
Context `{PyFloat} {Value : Type} `{EqDecision Value}
  (val_lt : Value → Value → bool)
  `{!ModelService (Value:=Value)} `{!Scheduler}.
Variable config : Config.

(** A property of the state that logging a call and recording a measured
    duration keep. *)
Variable I : State → Prop.
Hypothesis I_log : ∀ c, preserves I (log_call c).
Hypothesis I_fold : ∀ n, preserves I (_update_fold_time (elapsed n)).
Hypothesis I_merge : ∀ n, preserves I (_update_merge_time (elapsed n)).

Lemma preserves_ret {A} (a : A) : preserves I (ret a).
Proof. by intros st. Qed.

Lemma preserves_bind {A B} (m : M A) (f : A → M B) :
  preserves I m → (∀ a, preserves I (f a)) → preserves I (m ≫= f).
Proof.
  intros Hm Hf st Hst. unfold mbind, M_bind, bind.
  specialize (Hm st Hst). destruct (m st) as [[a| |] st1]; simpl in *; [|done..].
  by apply Hf.
Qed.

Lemma preserves_same {A} (m : M A) :
  (∀ st, (m st).2 = st) → preserves I m.
Proof. intros Hsame st Hst. by rewrite Hsame. Qed.

Lemma preserves_sequence {A} (ms : list (M A)) :
  Forall (preserves I) ms → preserves I (sequence ms).
Proof.
  induction 1 as [|m ms Hm _ IH]; cbn [sequence]; [apply preserves_ret|].
  apply preserves_bind; [done|]. intros a.
  apply preserves_bind; [done|]. intros outs. apply preserves_ret.
Qed.

Lemma preserves_gather {A} (ms : list (M A)) :
  Forall (preserves I) ms → preserves I (gather ms).
Proof.
  intros Hall st. unfold gather. apply preserves_sequence.
  by rewrite as_completed_perm.
Qed.

Lemma preserves_llm op_type p : preserves I (llm config op_type p).
Proof.
  unfold llm. apply preserves_bind; [by apply preserves_same|]. intros n.
  apply preserves_bind; [apply I_log|]. intros _. apply preserves_ret.
Qed.

Lemma preserves_batch_reduce key group_list :
  preserves I (_batch_reduce config key group_list).
Proof.
  unfold _batch_reduce. apply preserves_bind.
  - destruct (gleaning config) as [[vp rounds]|].
    + apply preserves_bind; [|intros [r gc]; apply preserves_ret].
      unfold llm_with_gleaning.
      apply preserves_bind; [by apply preserves_same|]. intros n.
      destruct (call_llm_with_gleaning _ _ _ _ _ _ _) as [r gc].
      apply preserves_bind; [apply I_log|]. intros _. apply preserves_ret.
    + apply preserves_bind; [apply preserves_llm|]. intros r.
      apply preserves_ret.
  - intros [r c]. destruct (validate_output _ _); apply preserves_ret.
Qed.

Lemma preserves_increment_fold key batch current_output :
  preserves I (_increment_fold config key batch current_output).
Proof.
  destruct current_output as [out|]; [|apply preserves_batch_reduce].
  unfold _increment_fold.
  apply preserves_bind; [by apply preserves_same|]. intros start.
  destruct (fold_prompt config) as [t|]; [|by apply preserves_same].
  apply preserves_bind; [apply preserves_llm|]. intros r.
  apply preserves_bind; [apply I_fold|]. intros _.
  destruct (validate_output _ _); apply preserves_ret.
Qed.

Lemma preserves_merge_results key outputs :
  preserves I (_merge_results config key outputs).
Proof.
  unfold _merge_results.
  apply preserves_bind; [by apply preserves_same|]. intros start.
  destruct (merge_prompt config) as [t|]; [|by apply preserves_same].
  apply preserves_bind; [apply preserves_llm|]. intros r.
  apply preserves_bind; [apply I_merge|]. intros _.
  destruct (validate_output _ _); apply preserves_ret.
Qed.

Lemma preserves_range_step stop step : preserves I (range_step stop step).
Proof. apply preserves_same. intros st. unfold range_step. by case_decide. Qed.

Lemma preserves_merge_round key fold_results total :
  preserves I (merge_round config key fold_results total).
Proof.
  unfold merge_round.
  apply preserves_bind; [apply preserves_range_step|]. intros indices.
  apply preserves_bind; [|intros outs; apply preserves_ret].
  apply preserves_gather, Forall_fmap, Forall_forall. intros i _.
  apply preserves_merge_results.
Qed.

Lemma preserves_fold_phase key n remaining fold_results total :
  preserves I (fold_phase config key n remaining fold_results total).
Proof.
  unfold fold_phase. destruct (fold_jobs _ _ _ _ _) as [jobs rest].
  apply preserves_bind.
  - apply preserves_gather, Forall_fmap, Forall_forall. intros job _.
    apply preserves_increment_fold.
  - intros outs. destruct (collect outs total). apply preserves_ret.
Qed.

Lemma preserves_calculate group_list :
  preserves I (calculate_num_parallel_folds config group_list).
Proof. apply preserves_same, calculate_same_state. Qed.

Lemma preserves_fold_merge_loop fuel key group_list n used remaining
    fold_results total :
  preserves I
    (fold_merge_loop config fuel key group_list n used remaining
       fold_results total).
Proof.
  revert n used remaining fold_results total.
  induction fuel as [|fuel IH]; intros n used remaining fold_results total;
    destruct remaining as [|item rest]; cbn [fold_merge_loop];
    try apply preserves_ret; [by apply preserves_same|].
  apply preserves_bind; [apply preserves_fold_phase|].
  intros [[remaining' fold_results'] total'].
  apply preserves_bind; [by apply preserves_same|]. intros samples.
  apply preserves_bind.
  { case_decide; [apply preserves_merge_round | apply preserves_ret]. }
  intros [fold_results'' total''].
  apply preserves_bind; [|intros [n' used']; apply IH].
  destruct used; [|apply preserves_ret].
  apply preserves_bind; [apply preserves_calculate|].
  intros [n' used']. apply preserves_ret.
Qed.

Lemma preserves_final_merge fuel key fold_results total :
  preserves I (final_merge config fuel key fold_results total).
Proof.
  revert fold_results total.
  induction fuel as [|fuel IH]; intros fold_results total;
    cbn [final_merge]; case_decide; try apply preserves_ret;
    [by apply preserves_same|].
  apply preserves_bind; [apply preserves_merge_round|].
  intros [new total']. apply IH.
Qed.

Lemma preserves_incremental_loop key group_list indices cur total :
  preserves I (incremental_loop config key group_list indices cur total).
Proof.
  revert cur total. induction indices as [|i indices IH]; intros cur total;
    cbn [incremental_loop]; [apply preserves_ret|].
  apply preserves_bind; [apply preserves_increment_fold|].
  intros [[out|] c]; [apply IH | apply preserves_ret].
Qed.

Lemma preserves_run_strategy fuel key group_list :
  preserves I (run_strategy config fuel key group_list).
Proof.
  unfold run_strategy. destruct (merge_prompt config).
  - unfold _parallel_fold_and_merge.
    apply preserves_bind; [apply preserves_calculate|]. intros [n used].
    apply preserves_bind; [apply preserves_fold_merge_loop|].
    intros [fold_results total].
    apply preserves_bind; [apply preserves_final_merge|].
    intros [fold_results' total']. apply preserves_ret.
  - destruct (fold_prompt config); [|apply preserves_batch_reduce].
    unfold _incremental_reduce.
    apply preserves_bind; [apply preserves_range_step|]. intros indices.
    apply preserves_incremental_loop.
Qed.

Lemma preserves_process_group fuel key group_list :
  preserves I (process_group config fuel key group_list).
Proof.
  unfold process_group.
  apply preserves_bind; [apply preserves_run_strategy|].
  intros [[result|] cost]; [|apply preserves_ret].
  destruct (pass_through config); [|apply preserves_ret].
  destruct (strategy_input config group_list); apply preserves_ret.
Qed.

Lemma preserves_execute fuel input_data :
  preserves I (execute val_lt config fuel input_data).
Proof.
  unfold execute. apply preserves_bind.
  - apply preserves_same. intros st.
    unfold grouping, sorted.
    assert (∀ A (m : M A), (∀ st, (m st).2 = st) →
            ∀ B (f : A → M B), (∀ a st, (f a st).2 = st) →
            ∀ st, ((m ≫= f) st).2 = st) as Hbind.
    { intros A m Hm B f Hf st0. unfold mbind, M_bind, bind.
      specialize (Hm st0). destruct (m st0) as [[a| |] st1]; simpl in *;
        subst; [apply Hf|done..]. }
    assert (∀ k (r : gmap string Value) st, (itemgetter k r st).2 = st) as Hget.
    { intros k r st0. unfold itemgetter. by destruct (r !! k). }
    assert (∀ l st, (sequence (itemgetter (reduce_key config) <$> l) st).2 = st)
      as Hseq.
    { induction l as [|r l IHl]; intros st0; [done|].
      rewrite fmap_cons. cbn [sequence].
      apply Hbind; [apply Hget|]. intros k st1.
      apply Hbind; [apply IHl|]. by intros. }
    assert (∀ it tgt st,
              (grouper (itemgetter (reduce_key config)) tgt it st).2 = st)
      as Hgrouper.
    { induction it as [|x it IHit]; intros tgt st0; [done|].
      cbn [grouper]. apply Hbind; [apply Hget|]. intros k st1.
      case_decide; (apply Hbind; [apply IHit|]); by intros [g gs]. }
    apply Hbind.
    + intros st0. apply Hbind; [apply Hseq|]. by intros.
    + intros [|x it] st0; [done|]. cbn [groupby].
      apply Hbind; [apply Hget|]. intros k st1.
      apply Hbind; [apply Hgrouper|]. by intros [g gs].
  - intros groups. apply preserves_bind; [|intros outs; apply preserves_ret].
    apply preserves_gather, Forall_fmap, Forall_forall. intros kg _.
    apply preserves_process_group.
Qed.

End Invariants.

Section Windows.
Context `{PyFloat} {Value : Type} `{EqDecision Value}
  (val_lt : Value → Value → bool)
  `{!ModelService (Value:=Value)} `{!Scheduler}.
Variable config : Config.

Lemma windows_bounded_log (c : Call) :
  preserves windows_bounded (log_call c).
Proof. by intros st. Qed.

Lemma windows_bounded_fold (t : float) :
  preserves windows_bounded (_update_fold_time t).
Proof.
  intros st [Hfold Hmerge]. split; [|done]. by apply deque_append_length.
Qed.

Lemma windows_bounded_merge (t : float) :
  preserves windows_bounded (_update_merge_time t).
Proof.
  intros st [Hfold Hmerge]. split; [done|]. by apply deque_append_length.
Qed.

(** X1. However an execution ends (with a result, with an exception or
    out of fuel), it keeps the bound on the two telemetry windows: when
    neither held more than 1000 samples before, neither does after. *)
Theorem execute_keeps_windows_bounded
    (fuel : nat) (input_data : list (gmap string Value)) (st : State) :
  windows_bounded st →
  windows_bounded (execute val_lt config fuel input_data st).2.
Proof.
  apply (preserves_execute val_lt config windows_bounded).
  - by intros c st0.
  - intros t st0 [Hfold Hmerge]. split; [|done].
    by apply deque_append_length.
  - intros t st0 [Hfold Hmerge]. split; [done|].
    by apply deque_append_length.
Qed.

End Windows.

(** ** The window over many appends *)

Section Latest.
Context `{PyFloat} {Value : Type} `{!ModelService (Value:=Value)}.

Lemma deque_append_drop {A} (maxlen : nat) (d : list A) (x : A) :
  length d ≤ maxlen →
  deque_append maxlen d x = drop (length d + 1 - maxlen) (d ++ [x]).
Proof.
  intros Hd. unfold deque_append. rewrite length_app. simpl.
  case_decide.
  - by replace (length d + 1 - maxlen) with 1 by lia.
  - by replace (length d + 1 - maxlen) with 0 by lia.
Qed.

Lemma deque_appends_latest {A} (maxlen : nat) (d xs : list A) :
  length d ≤ maxlen →
  foldl (deque_append maxlen) d xs
  = drop (length (d ++ xs) - maxlen) (d ++ xs).
Proof.
  revert d. induction xs as [|x xs IH]; intros d Hd.
  - rewrite app_nil_r. simpl. by replace (length d - maxlen) with 0 by lia.
  - cbn [foldl]. rewrite IH by (by apply deque_append_length).
    rewrite deque_append_drop by done.
    rewrite <- drop_app_le by (rewrite length_app; simpl; lia).
    rewrite drop_drop, <- app_assoc. simpl.
    f_equal. rewrite length_drop, !length_app. simpl. lia.
Qed.

(** X2. After any number of fold durations have been recorded in a fresh
    operation instance, the fold window holds the most recent 1000 of
    them (all of them when there are fewer), oldest first, and the merge
    window is still empty. *)
Theorem fold_window_holds_latest (ts : list float) :
  fold_times (record_folds ts init) = drop (length ts - 1000) ts
  ∧ merge_times (record_folds ts init) = [].
Proof.
  unfold record_folds.
  assert (∀ st,
    foldl (λ st t, (_update_fold_time t st).2) st ts
    = {| fold_times := foldl (deque_append max_samples) (fold_times st) ts;
         merge_times := merge_times st;
         calls := calls st |}) as Hfold.
  { induction ts as [|t ts IH]; intros st; [by destruct st|].
    cbn [foldl]. by rewrite IH. }
  rewrite Hfold. cbn [fold_times merge_times init]. split; [|done].
  rewrite deque_appends_latest by (simpl; lia). done.
Qed.

End Latest.

(** ** The reduce key of the results *)

Section Keys.
Context `{PyFloat} {Value : Type} `{EqDecision Value}
  (val_lt : Value → Value → bool)
  `{!ModelService (Value:=Value)} `{!Scheduler}.
Variable config : Config.

Lemma sequence_Forall {A} (P : A → Prop) (ms : list (M A)) st outs st' :
  Forall (λ m, ∀ st a st', m st = (Ok a, st') → P a) ms →
  sequence ms st = (Ok outs, st') → Forall P outs.
Proof.
  intros Hall. revert st outs.
  induction Hall as [|m ms Hm _ IH]; intros st outs Hrun;
    cbn [sequence] in Hrun.
  - read_ret Hrun. constructor.
  - split_bind Hrun. split_bind Hrun. read_ret Hrun.
    constructor; [by eapply Hm | by eapply IH].
Qed.

Lemma gather_Forall {A} (P : A → Prop) (ms : list (M A)) st outs st' :
  Forall (λ m, ∀ st a st', m st = (Ok a, st') → P a) ms →
  gather ms st = (Ok outs, st') → Forall P outs.
Proof.
  intros Hall. unfold gather. apply sequence_Forall.
  by rewrite as_completed_perm.
Qed.

Lemma Forall_omap_fst {A} (Q : A → Prop) (outs : list (option A * Qc)) :
  Forall (λ out, ∀ r, out.1 = Some r → Q r) outs → Forall Q (omap fst outs).
Proof.
  induction 1 as [|[[r|] c] outs Hout _ IH]; csimpl; [constructor| |done].
  constructor; [by apply Hout | done].
Qed.

Lemma keyed_Forall key (ms : list (M (option (gmap string Value) * Qc)))
    st outs st' :
  Forall (keyed config key) ms →
  gather ms st = (Ok outs, st') →
  Forall (λ r, r !! reduce_key config = Some key) (omap fst outs).
Proof.
  intros Hall Hrun. apply Forall_omap_fst.
  eapply gather_Forall; [|exact Hrun].
  eapply Forall_impl; [exact Hall|].
  intros m Hm st0 [o c] st1 Hm0 r Hr. simpl in Hr. subst o. by eapply Hm.
Qed.

Lemma keyed_batch_reduce key group_list :
  keyed config key (_batch_reduce config key group_list).
Proof.
  intros st r c st' Hrun. unfold _batch_reduce in Hrun.
  split_bind Hrun. destruct a as [response item_cost].
  destruct (validate_output _ _); read_ret Hrun; apply lookup_insert_eq.
Qed.

Lemma keyed_increment_fold key batch current_output :
  keyed config key (_increment_fold config key batch current_output).
Proof.
  destruct current_output as [out|]; [|apply keyed_batch_reduce].
  intros st r c st' Hrun. unfold _increment_fold in Hrun.
  split_bind Hrun. destruct (fold_prompt config) as [t|]; [|done].
  split_bind Hrun. split_bind Hrun.
  destruct (validate_output _ _); read_ret Hrun; apply lookup_insert_eq.
Qed.

Lemma keyed_merge_results key outputs :
  keyed config key (_merge_results config key outputs).
Proof.
  intros st r c st' Hrun. unfold _merge_results in Hrun.
  split_bind Hrun. destruct (merge_prompt config) as [t|]; [|done].
  split_bind Hrun. split_bind Hrun.
  destruct (validate_output _ _); read_ret Hrun; apply lookup_insert_eq.
Qed.

Lemma merge_round_keyed key fold_results total st new total' st' :
  merge_round config key fold_results total st = (Ok (new, total'), st') →
  Forall (λ r, r !! reduce_key config = Some key) new.
Proof.
  intros Hrun. unfold merge_round in Hrun.
  split_bind Hrun. split_bind Hrun. rewrite collect_spec in Hrun.
  read_ret Hrun. eapply keyed_Forall; [|exact Hrun1].
  apply Forall_fmap, Forall_forall. intros i _. apply keyed_merge_results.
Qed.

Lemma fold_phase_keyed key n remaining fold_results total st
    remaining' fold_results' total' st' :
  Forall (λ r, r !! reduce_key config = Some key) fold_results →
  fold_phase config key n remaining fold_results total st
  = (Ok (remaining', fold_results', total'), st') →
  Forall (λ r, r !! reduce_key config = Some key) fold_results'.
Proof.
  intros Hold Hrun. unfold fold_phase in Hrun.
  destruct (fold_jobs _ _ _ _ _) as [jobs rest].
  split_bind Hrun. rewrite collect_spec in Hrun. read_ret Hrun.
  apply Forall_app. split; [|by apply Forall_drop].
  eapply keyed_Forall; [|exact Hrun0].
  apply Forall_fmap, Forall_forall. intros job _. apply keyed_increment_fold.
Qed.

Lemma fold_merge_loop_keyed fuel key group_list n used remaining
    fold_results total st new total' st' :
  Forall (λ r, r !! reduce_key config = Some key) fold_results →
  fold_merge_loop config fuel key group_list n used remaining fold_results
    total st = (Ok (new, total'), st') →
  Forall (λ r, r !! reduce_key config = Some key) new.
Proof.
  revert n used remaining fold_results total st.
  induction fuel as [|fuel IH];
    intros n used remaining fold_results total st Hold Hrun;
    destruct remaining as [|item rest]; cbn [fold_merge_loop] in Hrun;
    try done; try (by read_ret Hrun).
  split_bind Hrun. destruct a as [[remaining1 fold_results1] total1].
  apply fold_phase_keyed in Hrun0; [|done].
  split_bind Hrun. split_bind Hrun. destruct a0 as [fold_results2 total2].
  assert (Forall (λ r, r !! reduce_key config = Some key) fold_results2).
  { case_decide; [by eapply merge_round_keyed | by read_ret Hrun2]. }
  split_bind Hrun. destruct a0 as [n' used']. by eapply IH.
Qed.

Lemma final_merge_keyed fuel key fold_results total st new total' st' :
  Forall (λ r, r !! reduce_key config = Some key) fold_results →
  final_merge config fuel key fold_results total st = (Ok (new, total'), st') →
  Forall (λ r, r !! reduce_key config = Some key) new.
Proof.
  revert fold_results total st.
  induction fuel as [|fuel IH]; intros fold_results total st Hold Hrun;
    cbn [final_merge] in Hrun; case_decide; try done;
    try (by read_ret Hrun).
  split_bind Hrun. destruct a as [merged total1].
  eapply IH; [|exact Hrun]. by eapply merge_round_keyed.
Qed.

Lemma incremental_loop_keyed key group_list indices cur total st r total' st' :
  (∀ r0, cur = Some r0 → r0 !! reduce_key config = Some key) →
  incremental_loop config key group_list indices cur total st
  = (Ok (Some r, total'), st') →
  r !! reduce_key config = Some key.
Proof.
  revert cur total st. induction indices as [|i indices IH];
    intros cur total st Hcur Hrun; cbn [incremental_loop] in Hrun.
  - read_ret Hrun. by apply Hcur.
  - split_bind Hrun. destruct a as [[out|] c]; [|by read_ret Hrun].
    eapply IH; [|exact Hrun]. intros r0 [= <-].
    by eapply keyed_increment_fold.
Qed.

Lemma keyed_run_strategy fuel key group_list :
  keyed config key (run_strategy config fuel key group_list).
Proof.
  intros st r c st' Hrun. unfold run_strategy in Hrun.
  destruct (merge_prompt config).
  - unfold _parallel_fold_and_merge in Hrun.
    split_bind Hrun. destruct a as [n used].
    split_bind Hrun. destruct a as [fold_results total].
    split_bind Hrun. destruct a as [fold_results' total'].
    apply fold_merge_loop_keyed in Hrun1; [|constructor].
    apply final_merge_keyed in Hrun2; [|done].
    unfold ret in Hrun. injection Hrun as Hhead _ _.
    destruct fold_results' as [|r0 rest]; [done|].
    simpl in Hhead. injection Hhead as ->.
    by apply Forall_cons in Hrun2 as [? _].
  - destruct (fold_prompt config); [|by eapply keyed_batch_reduce].
    unfold _incremental_reduce in Hrun. split_bind Hrun.
    eapply incremental_loop_keyed; [|exact Hrun]. done.
Qed.

Lemma keyed_process_group fuel key group_list :
  keyed config key (process_group config fuel key group_list).
Proof.
  intros st r c st' Hrun. unfold process_group in Hrun.
  split_bind Hrun. destruct a as [[result|] cost]; [|by read_ret Hrun].
  apply keyed_run_strategy in Hrun0.
  destruct (pass_through config); [|by read_ret Hrun].
  destruct (strategy_input config group_list) as [|first rest];
    read_ret Hrun; [done|].
  rewrite pass_through_fold by apply NoDup_fst_map_to_list.
  by rewrite Hrun0.
Qed.

End Keys.

(** ** How often the model is called *)

Section Counting.
Context `{PyFloat} {Value : Type} `{EqDecision Value}
  (val_lt : Value → Value → bool)
  `{!ModelService (Value:=Value)} `{!Scheduler}.
Variable config : Config.

Lemma bind_same_state {A B} (m : M A) (f : A → M B) :
  (∀ st, (m st).2 = st) → (∀ a st, (f a st).2 = st) →
  ∀ st, ((m ≫= f) st).2 = st.
Proof.
  intros Hm Hf st. unfold mbind, M_bind, bind.
  specialize (Hm st). destruct (m st) as [[a| |] st1]; simpl in *; subst;
    [apply Hf|done..].
Qed.

(** Sorting and grouping leave the state alone, however they end. *)
Lemma grouping_same_state input_data st :
  (grouping val_lt config input_data st).2 = st.
Proof.
  assert (∀ k (r : gmap string Value) st, (itemgetter k r st).2 = st) as Hget.
  { intros k r st0. unfold itemgetter. by destruct (r !! k). }
  assert (∀ l st, (sequence (itemgetter (reduce_key config) <$> l) st).2 = st)
    as Hseq.
  { induction l as [|r l IHl]; intros st0; [done|].
    rewrite fmap_cons. cbn [sequence].
    apply bind_same_state; [apply Hget|]. intros k st1.
    apply bind_same_state; [apply IHl|]. by intros. }
  assert (∀ it tgt st,
            (grouper (itemgetter (reduce_key config)) tgt it st).2 = st)
    as Hgrouper.
  { induction it as [|x it IHit]; intros tgt st0; [done|].
    cbn [grouper]. apply bind_same_state; [apply Hget|]. intros k st1.
    case_decide; (apply bind_same_state; [apply IHit|]); by intros [g gs]. }
  unfold grouping, sorted. apply bind_same_state.
  - intros st0. apply bind_same_state; [apply Hseq|]. by intros.
  - intros [|x it] st0; [done|]. cbn [groupby].
    apply bind_same_state; [apply Hget|]. intros k st1.
    apply bind_same_state; [apply Hgrouper|]. by intros [g gs].
Qed.

Lemma sequence_length {A} (ms : list (M A)) st outs st' :
  sequence ms st = (Ok outs, st') → length outs = length ms.
Proof.
  revert st outs. induction ms as [|m ms IH]; intros st outs Hrun;
    cbn [sequence] in Hrun.
  - by read_ret Hrun.
  - split_bind Hrun. split_bind Hrun. read_ret Hrun. simpl.
    f_equal. by eapply IH.
Qed.

Lemma gather_length {A} (ms : list (M A)) st outs st' :
  gather ms st = (Ok outs, st') → length outs = length ms.
Proof.
  unfold gather. intros Hrun. apply sequence_length in Hrun.
  by rewrite Hrun, as_completed_perm.
Qed.

Lemma sequence_calls {A} (n : nat) (ms : list (M A)) st outs st' :
  Forall (λ m, ∀ st a st', m st = (Ok a, st') → calls_grow_by n st st') ms →
  sequence ms st = (Ok outs, st') →
  calls_grow_by (length ms * n) st st'.
Proof.
  intros Hall. revert st outs.
  induction Hall as [|m ms Hm _ IH]; intros st outs Hrun;
    cbn [sequence] in Hrun.
  - read_ret Hrun. unfold calls_grow_by. simpl. split; [lia|done].
  - split_bind Hrun. split_bind Hrun. read_ret Hrun.
    apply Hm in Hrun0 as (Hcalls0 & Hfold0 & Hmerge0).
    apply IH in Hrun1 as (Hcalls1 & Hfold1 & Hmerge1).
    unfold calls_grow_by. simpl. split; [lia|]. split; congruence.
Qed.

Lemma batch_reduce_one_call key group_list st a st' :
  _batch_reduce config key group_list st = (Ok a, st') →
  calls_grow_by 1 st st'.
Proof.
  unfold _batch_reduce, llm, llm_with_gleaning, mbind, M_bind, bind, tick,
    log_call, ret, calls_grow_by.
  destruct (gleaning config) as [[vp rounds]|];
    [destruct (call_llm_with_gleaning _ _ _ _ _ _ _) as [r gc]|];
    destruct (validate_output _ _); intros [= <- <-]; simpl;
    rewrite length_app; simpl; (split; [lia|done]).
Qed.

(** X4. Without a fold prompt and a merge prompt, an execution that
    returns has made exactly one call to the model service (with or
    without gleaning) for each group, has left both telemetry windows as
    they were, and returns at most one record for each group. *)
Theorem batch_strategy_calls_once_per_group
    (fuel : nat) (input_data : list (gmap string Value)) (st st' : State)
    (results : list (gmap string Value)) (total_cost : Qc) :
  merge_prompt config = None → fold_prompt config = None →
  execute val_lt config fuel input_data st = (Ok (results, total_cost), st') →
  ∃ groups,
    grouping val_lt config input_data st = (Ok groups, st)
    ∧ length (calls st') = length (calls st) + length groups
    ∧ fold_times st' = fold_times st
    ∧ merge_times st' = merge_times st
    ∧ length results ≤ length groups.
Proof.
  intros Hmerge Hfold Hrun. unfold execute in Hrun.
  apply bind_Ok_inv in Hrun as (groups & st0 & Hgrouping & Hrun).
  apply bind_Ok_inv in Hrun as (outs & st1 & Hgather & Hrun).
  rewrite collect_spec in Hrun. read_ret Hrun.
  pose proof (grouping_same_state input_data st) as Hsame.
  rewrite Hgrouping in Hsame. simpl in Hsame. subst st0.
  exists groups. split; [done|].
  pose proof (gather_length _ _ _ _ Hgather) as Hlen.
  rewrite length_fmap in Hlen.
  unfold gather in Hgather. apply sequence_calls with (n := 1) in Hgather.
  - destruct Hgather as (Hcalls & Hfolds & Hmerges).
    rewrite as_completed_perm, length_fmap in Hcalls.
    split; [lia|]. split; [done|]. split; [done|].
    etrans; [apply length_omap_le|]. lia.
  - rewrite as_completed_perm. apply Forall_fmap, Forall_forall.
    intros [k g] _ st2 a st3 Hgroup. unfold process_group in Hgroup.
    apply bind_Ok_inv in Hgroup as ([result cost] & st4 & Hstrategy & Hgroup).
    unfold run_strategy in Hstrategy. rewrite Hmerge, Hfold in Hstrategy.
    apply batch_reduce_one_call in Hstrategy.
    destruct result as [result|]; [|by read_ret Hgroup].
    destruct (pass_through config); [|by read_ret Hgroup].
    destruct (strategy_input config (k, g).2); by read_ret Hgroup.
Qed.

Lemma increment_fold_one_call key batch cur st a st' :
  _increment_fold config key batch cur st = (Ok a, st') →
  length (calls st') = S (length (calls st))
  ∧ merge_times st' = merge_times st.
Proof.
  destruct cur as [out|].
  - unfold _increment_fold, llm, mbind, M_bind, bind, tick, log_call,
      _update_fold_time, ret.
    destruct (fold_prompt config); [|done].
    destruct (validate_output _ _); intros [= <- <-]; simpl;
      rewrite length_app; simpl; (split; [lia|done]).
  - intros Hrun. apply batch_reduce_one_call in Hrun as (? & ? & ?).
    split; [lia|done].
Qed.

Lemma incremental_loop_calls key group_list indices cur total st res c st' :
  incremental_loop config key group_list indices cur total st
  = (Ok (res, c), st') →
  length (calls st') ≤ length (calls st) + length indices
  ∧ (is_Some res → length (calls st') = length (calls st) + length indices)
  ∧ merge_times st' = merge_times st.
Proof.
  revert cur total st. induction indices as [|i indices IH];
    intros cur total st Hrun; cbn [incremental_loop] in Hrun.
  - read_ret Hrun. simpl. split; [lia|]. split; [intros; lia|done].
  - split_bind Hrun. destruct a as [folded c0].
    apply increment_fold_one_call in Hrun0 as [Hone Hmerge].
    destruct folded as [out|].
    + apply IH in Hrun as (Hle & Heq & Hmerge'). simpl.
      split; [lia|]. split; [intros Hres; specialize (Heq Hres); lia|].
      congruence.
    + read_ret Hrun. simpl. split; [lia|].
      split; [by intros [? ?]|done].
Qed.

(** X5. With a positive [fold_batch_size], the incremental strategy calls
    the model service at most once for each batch of the group, that is
    at most [ceil(len(group) / fold_batch_size)] times, exactly that often
    when it returns a record, and it never records a merge duration. *)
Theorem incremental_reduce_calls_once_per_batch
    (key : Value) (group_list : list (gmap string Value)) (st st' : State)
    (result : option (gmap string Value)) (cost : Qc) :
  0 < fold_batch_size config →
  _incremental_reduce config key group_list st = (Ok (result, cost), st') →
  let batches :=
    (length group_list + fold_batch_size config - 1) / fold_batch_size config in
  length (calls st') ≤ length (calls st) + batches
  ∧ (is_Some result → length (calls st') = length (calls st) + batches)
  ∧ merge_times st' = merge_times st.
Proof.
  intros Hfbs Hrun batches. unfold _incremental_reduce, range_step in Hrun.
  rewrite decide_False in Hrun by lia.
  apply bind_Ok_inv in Hrun as (indices & st0 & Hindices & Hrun).
  read_ret Hindices. apply incremental_loop_calls in Hrun.
  by rewrite range_list_length in Hrun.
Qed.

(** X6. On an empty input [execute] returns no record and no cost, and
    leaves the state as it was, whatever the configuration and the fuel:
    nothing is grouped and the model is not called. *)
Theorem execute_of_empty_input (fuel : nat) (st : State) :
  execute val_lt config fuel [] st = (Ok ([], 0%Qc), st).
Proof.
  unfold execute, grouping, sorted, gather, mbind, M_bind, bind. simpl.
  pose proof (as_completed_perm
                (M (option (gmap string Value) * Qc)) (length (calls st)) [])
    as Hperm.
  apply Permutation_nil_r in Hperm. by rewrite Hperm.
Qed.

End Counting.

(** ** The order of the records within a group *)

Section Stability.
Context `{PyFloat} {Value : Type} `{EqDecision Value}
  (val_lt : Value → Value → bool)
  `{!ModelService (Value:=Value)} `{!Scheduler}.
Variable config : Config.

Lemma filter_all {A} (P : A → Prop) `{∀ x, Decision (P x)} (l : list A) :
  Forall P l → filter P l = l.
Proof.
  induction 1 as [|x l Hx _ IH]; [done|].
  by rewrite filter_cons, decide_True, IH by done.
Qed.

Lemma filter_none {A} (P : A → Prop) `{∀ x, Decision (P x)} (l : list A) :
  Forall (λ x, ¬ P x) l → filter P l = [].
Proof.
  induction 1 as [|x l Hx _ IH]; [done|].
  by rewrite filter_cons, decide_False, IH by done.
Qed.

Lemma filter_insert_by_key (k : Value) x l :
  (∀ a, val_lt a a = false) →
  filter (λ p : Value * gmap string Value, p.1 = k) (insert_by_key val_lt x l)
  = filter (λ p : Value * gmap string Value, p.1 = k) (x :: l).
Proof.
  intros Hirr. induction l as [|y l IH]; [done|]. simpl.
  destruct (val_lt y.1 x.1) eqn:Hyx; [|done].
  rewrite (filter_cons _ y), IH, !filter_cons.
  repeat case_decide; try done.
  assert (y.1 = x.1) as Heq by congruence.
  rewrite Heq, Hirr in Hyx. done.
Qed.

Lemma filter_sort_by_key (k : Value) l :
  (∀ a, val_lt a a = false) →
  filter (λ p : Value * gmap string Value, p.1 = k) (sort_by_key val_lt l)
  = filter (λ p : Value * gmap string Value, p.1 = k) l.
Proof.
  intros Hirr. induction l as [|x l IH]; [done|]. simpl.
  rewrite filter_insert_by_key by done. by rewrite !filter_cons, IH.
Qed.

Lemma filter_decorated (k : Value) (l : list (Value * gmap string Value)) :
  Forall (decorated config) l →
  (filter (λ p : Value * gmap string Value, p.1 = k) l).*2
  = filter (λ r : gmap string Value, r !! reduce_key config = Some k) l.*2.
Proof.
  induction 1 as [|[k0 r] l Hkr _ IH]; [done|].
  unfold decorated in Hkr. simpl in Hkr.
  rewrite fmap_cons, !filter_cons. simpl. rewrite Hkr.
  repeat case_decide; simplify_eq; [by rewrite fmap_cons, IH | done].
Qed.

Lemma filter_other_groups (k : Value)
    (groups : list (Value * list (gmap string Value))) :
  Forall (key_group config) groups → k ∉ groups.*1 →
  filter (λ r : gmap string Value, r !! reduce_key config = Some k)
    (concat groups.*2) = [].
Proof.
  induction 1 as [|[k0 g] groups [_ Hg] _ IH]; [done|].
  rewrite fmap_cons, not_elem_of_cons. intros [Hne Hnotin].
  rewrite fmap_cons, concat_cons, filter_app, IH by done. simpl in *.
  rewrite app_nil_r. apply filter_none.
  eapply Forall_impl; [exact Hg|]. simpl. intros r Hr. congruence.
Qed.

Lemma filter_own_group (groups : list (Value * list (gmap string Value))) :
  Forall (key_group config) groups → NoDup groups.*1 →
  Forall (λ kg, kg.2 = filter (λ r : gmap string Value,
                                 r !! reduce_key config = Some kg.1)
                         (concat groups.*2)) groups.
Proof.
  induction 1 as [|[k g] groups [Hne Hg] Hgroups IH]; [constructor|].
  rewrite fmap_cons, NoDup_cons. intros [Hfresh Hnodup].
  cbn [fst snd] in *. rewrite fmap_cons, concat_cons. cbn [snd].
  constructor.
  - cbn [fst snd].
    rewrite filter_app, filter_other_groups, app_nil_r by done.
    by rewrite filter_all.
  - specialize (IH Hnodup).
    rewrite Forall_forall in IH. apply Forall_forall. intros [k' g'] Hin.
    pose proof (IH _ Hin) as Hown. cbn [fst snd] in *.
    rewrite filter_app, <- Hown.
    rewrite filter_none; [done|].
    eapply Forall_impl; [exact Hg|]. cbn beta. intros r Hr Hr'.
    apply Hfresh. assert (k = k') as -> by congruence.
    apply list_elem_of_fmap. by exists (k', g').
Qed.

Lemma ascending_NoDup (keys : list Value) :
  (∀ a, val_lt a a = false) →
  StronglySorted (λ a b, val_lt a b = true) keys → NoDup keys.
Proof.
  intros Hirr. induction 1 as [|k keys _ IH Hall]; constructor; [|done].
  intros Hin. rewrite Forall_forall in Hall. specialize (Hall _ Hin).
  by rewrite Hirr in Hall.
Qed.

(** X8. When every record carries the reduce key and [<] is a strict
    total order on the key values, the records of a group are the input
    records with the group's key, in the order of the input: sorting is
    stable and grouping keeps the order.  In particular the first record
    of a group, which pass-through reads, is the first input record with
    that key. *)
Theorem groups_keep_input_order
    (input_data : list (gmap string Value)) (st : State) :
  strict_total_order val_lt →
  Forall (λ r, is_Some (r !! reduce_key config)) input_data →
  ∃ groups,
    grouping val_lt config input_data st = (Ok groups, st)
    ∧ Forall (λ kg, kg.2 = filter (λ r : gmap string Value,
                                     r !! reduce_key config = Some kg.1)
                             input_data) groups.
Proof.
  intros Hord Hkeys. pose proof Hord as (Hirr & _ & _).
  destruct (sequence_itemgetter config input_data st Hkeys)
    as (keys & Hseq & Hlen & Hdec).
  set (sorted_pairs := sort_by_key val_lt (zip keys input_data)).
  assert (Forall (decorated config) sorted_pairs) as Hdec'.
  { unfold sorted_pairs. by rewrite sort_by_key_perm. }
  destruct (groupby_spec val_lt config sorted_pairs st Hdec')
    as (groups & Hrun & Hcat & Hgroups & Hsorted).
  exists groups. split.
  { unfold grouping, sorted.
    erewrite bind_Ok; [|by erewrite bind_Ok by exact Hseq]. exact Hrun. }
  pose proof (Hsorted Hord (sort_by_key_sorted val_lt _ Hord)) as Hasc.
  pose proof (filter_own_group groups Hgroups (ascending_NoDup _ Hirr Hasc))
    as Hown.
  eapply Forall_impl; [exact Hown|]. intros [k g] ->. simpl.
  rewrite Hcat. unfold sorted_pairs.
  rewrite <- filter_decorated by done.
  rewrite filter_sort_by_key by done.
  rewrite filter_decorated by done. by rewrite snd_zip by lia.
Qed.

End Stability.

(** ** The early merge *)

Section EarlyMerge.
Context `{PyFloat} {Value : Type} `{EqDecision Value}
  `{!ModelService (Value:=Value)} `{!Scheduler}.
Variable config : Config.

Lemma only_folds_refl st : only_folds st st.
Proof. split; [done|]. exists []. by rewrite app_nil_r. Qed.

Lemma only_folds_same st st' :
  merge_times st' = merge_times st → calls st' = calls st → only_folds st st'.
Proof. intros Hm Hc. split; [done|]. exists []. by rewrite app_nil_r. Qed.

Lemma only_folds_trans st1 st2 st3 :
  only_folds st1 st2 → only_folds st2 st3 → only_folds st1 st3.
Proof.
  intros (Hm1 & new1 & Hc1 & Hn1) (Hm2 & new2 & Hc2 & Hn2).
  split; [congruence|]. exists (new1 ++ new2).
  split; [by rewrite Hc2, Hc1, app_assoc | by apply Forall_app].
Qed.

Lemma within_ret {A} (a : A) : within only_folds (ret a).
Proof. intros st. apply only_folds_refl. Qed.

Lemma within_bind {A B} (m : M A) (f : A → M B) :
  within only_folds m → (∀ a, within only_folds (f a)) →
  within only_folds (m ≫= f).
Proof.
  intros Hm Hf st. unfold mbind, M_bind, bind.
  specialize (Hm st). destruct (m st) as [[a| |] st1]; [|done..].
  eapply only_folds_trans; [exact Hm | apply Hf].
Qed.

Lemma bind_only_folds {A B} (m : M A) (f : A → M B) st :
  only_folds st (m st).2 →
  (∀ a st1, m st = (Ok a, st1) → only_folds st1 (f a st1).2) →
  only_folds st ((m ≫= f) st).2.
Proof.
  intros Hm Hf. unfold mbind, M_bind, bind.
  destruct (m st) as [[a| |] st1]; [|done..].
  eapply only_folds_trans; [exact Hm | by apply Hf].
Qed.

Lemma within_sequence {A} (ms : list (M A)) :
  Forall (within only_folds) ms → within only_folds (sequence ms).
Proof.
  induction 1 as [|m ms Hm _ IH]; cbn [sequence]; [apply within_ret|].
  apply within_bind; [done|]. intros a.
  apply within_bind; [done|]. intros outs. apply within_ret.
Qed.

Lemma within_gather {A} (ms : list (M A)) :
  Forall (within only_folds) ms → within only_folds (gather ms).
Proof.
  intros Hall st. unfold gather. apply within_sequence.
  by rewrite as_completed_perm.
Qed.

Lemma within_reduce_call p : within only_folds (llm config "reduce" p).
Proof.
  intros st. split; [done|].
  eexists [_]. split; [reflexivity|]. by constructor.
Qed.

Lemma within_batch_reduce key group_list :
  within only_folds (_batch_reduce config key group_list).
Proof.
  unfold _batch_reduce. apply within_bind.
  - destruct (gleaning config) as [[vp rounds]|].
    + apply within_bind.
      * intros st. unfold llm_with_gleaning, mbind, M_bind, bind, tick.
        destruct (call_llm_with_gleaning _ _ _ _ _ _ _) as [r gc].
        split; [done|]. eexists [_]. split; [reflexivity|]. by constructor.
      * intros [r gc]. apply within_ret.
    + apply within_bind; [apply within_reduce_call|].
      intros r. apply within_ret.
  - intros [r c]. destruct (validate_output _ _); apply within_ret.
Qed.

Lemma within_increment_fold key batch current_output :
  within only_folds (_increment_fold config key batch current_output).
Proof.
  destruct current_output as [out|]; [|apply within_batch_reduce].
  unfold _increment_fold.
  apply within_bind; [intros st; apply only_folds_refl|]. intros start.
  destruct (fold_prompt config) as [t|]; [|intros st; apply only_folds_refl].
  apply within_bind; [apply within_reduce_call|]. intros r.
  apply within_bind; [by intros st; apply only_folds_same|]. intros _.
  destruct (validate_output _ _); apply within_ret.
Qed.

Lemma within_fold_phase key n remaining fold_results total :
  within only_folds (fold_phase config key n remaining fold_results total).
Proof.
  unfold fold_phase. destruct (fold_jobs _ _ _ _ _) as [jobs rest].
  apply within_bind.
  - apply within_gather, Forall_fmap, Forall_forall. intros job _.
    apply within_increment_fold.
  - intros outs. destruct (collect outs total). apply within_ret.
Qed.

Lemma within_calculate group_list :
  within only_folds (calculate_num_parallel_folds config group_list).
Proof. intros st. rewrite calculate_same_state. apply only_folds_refl. Qed.

(** X9. Once the merge window holds five samples, the loop over the
    remaining items no longer merges: whatever the group, the lanes and
    the outcome, it leaves the merge window as it was and every call it
    makes to the model is a fold, of operation type ["reduce"].  The lane
    accumulators are then merged by the final merge alone. *)
Theorem fold_loop_stops_merging_early
    (fuel : nat) (key : Value) (group_list : list (gmap string Value))
    (num_parallel_folds : Z) (used_default_times : bool)
    (remaining_items fold_results : list (gmap string Value))
    (total_cost : Qc) (st : State) :
  min_samples ≤ length (merge_times st) →
  only_folds st
    (fold_merge_loop config fuel key group_list num_parallel_folds
       used_default_times remaining_items fold_results total_cost st).2.
Proof.
  revert num_parallel_folds used_default_times remaining_items fold_results
    total_cost st.
  induction fuel as [|fuel IH];
    intros n used remaining fold_results total st Hsamples;
    destruct remaining as [|item rest]; cbn [fold_merge_loop];
    try apply only_folds_refl.
  apply bind_only_folds; [apply within_fold_phase|].
  intros [[rem fr] tc] st1 Hphase.
  apply (f_equal snd) in Hphase. simpl in Hphase.
  pose proof (within_fold_phase key n (item :: rest) fold_results total st)
    as [Hm1 _].
  rewrite Hphase in Hm1.
  apply bind_only_folds; [apply only_folds_refl|].
  intros samples st1' [= <- <-].
  rewrite decide_False by (rewrite Hm1; unfold min_samples in *; lia).
  apply bind_only_folds; [apply only_folds_refl|].
  intros [fr' tc'] st1' [= <- <- <-].
  assert (within only_folds
    (if used
     then
       '(new_num_parallel_folds, used_default_times) ←
         calculate_num_parallel_folds config group_list;
       ret ((if used_default_times : bool then n
             else new_num_parallel_folds), used_default_times)
     else ret (n, used))) as Hlanes.
  { destruct used; [|apply within_ret].
    apply within_bind; [apply within_calculate|].
    intros [n' used']. apply within_ret. }
  apply bind_only_folds; [apply Hlanes|].
  intros [n' used'] st2 Hrun. specialize (Hlanes st1) as [Hm2 _].
  rewrite Hrun in Hm2. simpl in Hm2.
  apply IH. by rewrite Hm2, Hm1.
Qed.

End EarlyMerge.

(** ** One record for each group *)

Section Accepted.
Context `{PyFloat} {Value : Type} `{EqDecision Value}
  (val_lt : Value → Value → bool)
  `{!ModelService (Value:=Value)} `{!Scheduler}.
Variable config : Config.
Hypothesis Hvalid : ∀ r, validate_output config r = true.

Lemma accepted_batch_reduce key group_list st o c st' :
  _batch_reduce config key group_list st = (Ok (o, c), st') → is_Some o.
Proof.
  intros Hrun. unfold _batch_reduce in Hrun.
  split_bind Hrun. destruct a as [response item_cost].
  rewrite Hvalid in Hrun. read_ret Hrun. eauto.
Qed.

Lemma accepted_increment_fold key batch current_output st o c st' :
  _increment_fold config key batch current_output st = (Ok (o, c), st') →
  is_Some o.
Proof.
  destruct current_output as [out|]; [|apply accepted_batch_reduce].
  intros Hrun. unfold _increment_fold in Hrun.
  split_bind Hrun. destruct (fold_prompt config) as [t|]; [|done].
  split_bind Hrun. split_bind Hrun.
  rewrite Hvalid in Hrun. read_ret Hrun. eauto.
Qed.

Lemma accepted_merge_results key outputs st o c st' :
  _merge_results config key outputs st = (Ok (o, c), st') → is_Some o.
Proof.
  intros Hrun. unfold _merge_results in Hrun.
  split_bind Hrun. destruct (merge_prompt config) as [t|]; [|done].
  split_bind Hrun. split_bind Hrun.
  rewrite Hvalid in Hrun. read_ret Hrun. eauto.
Qed.

Lemma length_omap_Some {A} (outs : list (option A * Qc)) :
  Forall (λ out, is_Some out.1) outs → length (omap fst outs) = length outs.
Proof.
  induction 1 as [|[o c] outs [r Hr] _ IH]; [done|].
  simpl in Hr. subst o. csimpl. by rewrite IH.
Qed.

Lemma accepted_gather {A} (ms : list (M (option A * Qc))) st outs st' :
  Forall (λ m, ∀ st a st', m st = (Ok a, st') → is_Some a.1) ms →
  gather ms st = (Ok outs, st') →
  length (omap fst outs) = length ms.
Proof.
  intros Hall Hrun.
  rewrite length_omap_Some by (by eapply gather_Forall).
  by eapply gather_length.
Qed.

Lemma accepted_merge_round key fold_results total st new total' st' :
  merge_round config key fold_results total st = (Ok (new, total'), st') →
  fold_results ≠ [] → new ≠ [].
Proof.
  intros Hrun Hne. unfold merge_round, range_step in Hrun.
  apply bind_Ok_inv in Hrun as (indices & st0 & Hindices & Hrun).
  case_decide as Hstep; [done|]. read_ret Hindices.
  apply bind_Ok_inv in Hrun as (outs & st1 & Hgather & Hrun).
  rewrite collect_spec in Hrun. read_ret Hrun.
  apply accepted_gather in Hgather.
  - rewrite length_fmap, range_list_length in Hgather.
    pose proof (div_up_ge (length fold_results) (merge_batch_size config)
                  ltac:(lia)) as Hge.
    destruct fold_results; [done|]. simpl in Hge.
    intros Hnil. rewrite Hnil in Hgather. simpl in *. nia.
  - apply Forall_fmap, Forall_forall. intros i _ st2 [o c] st3 Hmerge.
    by eapply accepted_merge_results.
Qed.

Lemma accepted_fold_phase key n remaining fold_results total st
    remaining' fold_results' total' st' :
  fold_phase config key n remaining fold_results total st
  = (Ok (remaining', fold_results', total'), st') →
  (1 ≤ n)%Z → remaining ≠ [] → fold_results' ≠ [].
Proof.
  intros Hrun Hn Hne. unfold fold_phase in Hrun.
  rewrite fold_jobs_spec in Hrun.
  apply bind_Ok_inv in Hrun as (outs & st1 & Hgather & Hrun).
  rewrite collect_spec in Hrun. read_ret Hrun.
  apply accepted_gather in Hgather.
  - rewrite !length_fmap, length_seq in Hgather.
    destruct remaining; [done|]. simpl in Hgather.
    intros Hnil. apply app_eq_nil in Hnil as [Hnil _].
    rewrite Hnil in Hgather. simpl in Hgather. lia.
  - apply Forall_fmap, Forall_forall. intros job _ st2 [o c] st3 Hfold.
    by eapply accepted_increment_fold.
Qed.

Lemma accepted_fold_merge_loop fuel key group_list n used remaining
    fold_results total st new total' st' :
  fold_merge_loop config fuel key group_list n used remaining fold_results
    total st = (Ok (new, total'), st') →
  (1 ≤ n)%Z → remaining ≠ [] ∨ fold_results ≠ [] → new ≠ [].
Proof.
  revert n used remaining fold_results total st.
  induction fuel as [|fuel IH];
    intros n used remaining fold_results total st Hrun Hn Hne;
    destruct remaining as [|item rest]; cbn [fold_merge_loop] in Hrun;
    try done; try (read_ret Hrun; by destruct Hne).
  apply bind_Ok_inv in Hrun as ([[rem1 fr1] tc1] & st1 & Hphase & Hrun).
  apply accepted_fold_phase in Hphase; [|done..].
  apply bind_Ok_inv in Hrun as (samples & st2 & _ & Hrun).
  apply bind_Ok_inv in Hrun as ([fr2 tc2] & st3 & Hmerge & Hrun).
  assert (fr2 ≠ []) as Hfr2.
  { case_decide; [by eapply accepted_merge_round | by read_ret Hmerge]. }
  apply bind_Ok_inv in Hrun as ([n' used'] & st4 & Hlanes & Hrun).
  eapply IH; [exact Hrun| |by right].
  destruct used; [|by read_ret Hlanes].
  apply bind_Ok_inv in Hlanes as ([n0 used0] & st5 & Hcalc & Hlanes).
  apply calculate_at_least_one in Hcalc as [Hone _].
  read_ret Hlanes. by destruct used'.
Qed.

Lemma accepted_final_merge fuel key fold_results total st new total' st' :
  final_merge config fuel key fold_results total st = (Ok (new, total'), st') →
  fold_results ≠ [] → length new = 1.
Proof.
  revert fold_results total st.
  induction fuel as [|fuel IH]; intros fold_results total st Hrun Hne;
    cbn [final_merge] in Hrun; case_decide; try done;
    try (read_ret Hrun; destruct new; simpl in *; [done|lia]).
  apply bind_Ok_inv in Hrun as ([merged tc] & st1 & Hround & Hrun).
  eapply IH; [exact Hrun|]. by eapply accepted_merge_round.
Qed.

Lemma accepted_incremental_loop key group_list indices cur total st
    res total' st' :
  incremental_loop config key group_list indices cur total st
  = (Ok (res, total'), st') →
  is_Some cur ∨ indices ≠ [] → is_Some res.
Proof.
  revert cur total st. induction indices as [|i indices IH];
    intros cur total st Hrun Hne; cbn [incremental_loop] in Hrun.
  - read_ret Hrun. by destruct Hne.
  - apply bind_Ok_inv in Hrun as ([folded c] & st1 & Hfold & Hrun).
    apply accepted_increment_fold in Hfold as [out ->].
    eapply IH; [exact Hrun|]. left. eauto.
Qed.

Lemma accepted_run_strategy fuel key group_list st o c st' :
  run_strategy config fuel key group_list st = (Ok (o, c), st') →
  group_list ≠ [] → is_Some o.
Proof.
  intros Hrun Hne. unfold run_strategy in Hrun.
  destruct (merge_prompt config).
  - unfold _parallel_fold_and_merge in Hrun.
    apply bind_Ok_inv in Hrun as ([n used] & st1 & Hcalc & Hrun).
    apply bind_Ok_inv in Hrun as ([fr tc] & st2 & Hloop & Hrun).
    apply bind_Ok_inv in Hrun as ([fr' tc'] & st3 & Hfinal & Hrun).
    apply calculate_at_least_one in Hcalc as [Hone _].
    apply accepted_fold_merge_loop in Hloop; [|done|by left].
    apply accepted_final_merge in Hfinal; [|done].
    read_ret Hrun. destruct fr'; [done|]. simpl. eauto.
  - destruct (fold_prompt config); [|by eapply accepted_batch_reduce].
    unfold _incremental_reduce, range_step in Hrun.
    apply bind_Ok_inv in Hrun as (indices & st1 & Hindices & Hrun).
    case_decide as Hstep; [done|]. read_ret Hindices.
    eapply accepted_incremental_loop; [exact Hrun|]. right.
    intros Hnil. apply (f_equal length) in Hnil.
    rewrite range_list_length in Hnil. simpl in Hnil.
    pose proof (div_up_ge (length group_list) (fold_batch_size config)
                  ltac:(lia)) as Hge.
    destruct group_list; [done|]. simpl in *. nia.
Qed.

Lemma accepted_process_group fuel key group_list st o c st' :
  process_group config fuel key group_list st = (Ok (o, c), st') →
  group_list ≠ [] → is_Some o.
Proof.
  intros Hrun Hne. unfold process_group in Hrun.
  apply bind_Ok_inv in Hrun as ([result cost] & st1 & Hstrategy & Hrun).
  apply accepted_run_strategy in Hstrategy as [r ->].
  - destruct (pass_through config); [|read_ret Hrun; eauto].
    destruct (strategy_input config group_list); read_ret Hrun; eauto.
  - unfold strategy_input. case_decide; [done|].
    destruct group_list; [done|]. by rewrite fmap_cons.
Qed.

Lemma sequence_Forall2 {X A} (P : X → A → Prop) (xs : list X)
    (ms : list (M A)) st outs st' :
  Forall2 (λ x m, ∀ st a st', m st = (Ok a, st') → P x a) xs ms →
  sequence ms st = (Ok outs, st') → Forall2 P xs outs.
Proof.
  intros Hall. revert st outs.
  induction Hall as [|x m xs ms Hm _ IH]; intros st outs Hrun;
    cbn [sequence] in Hrun.
  - read_ret Hrun. constructor.
  - split_bind Hrun. split_bind Hrun. read_ret Hrun.
    constructor; [by eapply Hm | by eapply IH].
Qed.

Lemma accepted_tasks fuel
    (groups : list (Value * list (gmap string Value)))
    (tasks : list (M (option (gmap string Value) * Qc))) :
  Forall2 (λ kg m, m = process_group config fuel kg.1 kg.2) groups tasks →
  Forall (key_group config) groups →
  Forall2 (λ kg m, ∀ st a st',
             m st = (Ok a, st') →
             ∃ r, a.1 = Some r ∧ r !! reduce_key config = Some kg.1)
    groups tasks.
Proof.
  induction 1 as [|kg m gs ms -> _ IH]; intros Hgroups; [constructor|].
  apply Forall_cons in Hgroups as [[Hne _] Hgroups].
  constructor; [|by apply IH].
  intros st0 [o c] st1 Hgroup.
  pose proof Hgroup as Hsome.
  apply accepted_process_group in Hsome as [r ->]; [|done].
  exists r. split; [done|]. by eapply keyed_process_group.
Qed.

End Accepted.

(** ** The batches of a folding phase *)

Section Lanes.
Context `{PyFloat} {Value : Type} `{EqDecision Value}
  `{!ModelService (Value:=Value)} `{!Scheduler}.
Variable config : Config.

Lemma shows_batch_reduce key group_list :
  shows group_list (_batch_reduce config key group_list).
Proof.
  unfold shows, _batch_reduce, llm, llm_with_gleaning, mbind, M_bind, bind,
    tick, log_call, ret.
  intros st a st'.
  destruct (gleaning config) as [[vp rounds]|];
    [destruct (call_llm_with_gleaning _ _ _ _ _ _ _) as [r gc]|];
    destruct (validate_output _ _); intros [= <- <-]; simpl;
    by eexists.
Qed.

Lemma shows_increment_fold key batch current_output :
  shows batch (_increment_fold config key batch current_output).
Proof.
  destruct current_output as [out|]; [|apply shows_batch_reduce].
  unfold shows, _increment_fold, llm, mbind, M_bind, bind, tick, log_call,
    _update_fold_time, ret.
  intros st a st'. destruct (fold_prompt config); [|done].
  destruct (validate_output _ _); intros [= <- <-]; simpl; by eexists.
Qed.

Lemma sequence_shows {A} (batches : list (list (gmap string Value)))
    (ms : list (M A)) st outs st' :
  Forall2 shows batches ms →
  sequence ms st = (Ok outs, st') →
  ∃ new, calls st' = calls st ++ new ∧ call_values <$> new = batches.
Proof.
  intros Hall. revert st outs.
  induction Hall as [|b m bs ms Hm _ IH]; intros st outs Hrun;
    cbn [sequence] in Hrun.
  - read_ret Hrun. exists []. by rewrite app_nil_r.
  - apply bind_Ok_inv in Hrun as (a & st1 & Hhead & Hrun).
    apply bind_Ok_inv in Hrun as (rest & st2 & Htail & Hrun).
    read_ret Hrun.
    apply Hm in Hhead as (c & Hcalls & Hvalues).
    apply IH in Htail as (new & Hcalls' & Hnew).
    exists (c :: new). split.
    + by rewrite Hcalls', Hcalls, <- app_assoc.
    + by rewrite fmap_cons, Hvalues, Hnew.
Qed.

(** X11. With a fold prompt configured, the folding phase returns, and it
    has called the model service exactly once for each scheduled lane, that is
    [min(num_parallel_folds, len(remaining_items))] times, showing each
    lane's batch in one call.  Lanes are counted in records and not in
    batches: a lane whose index is [ceil(len(remaining_items) /
    fold_batch_size)] or more gets an empty batch, and the model is called
    on it all the same. *)
Theorem fold_phase_calls_once_per_lane
    (key : Value) (num_parallel_folds : Z)
    (remaining_items fold_results : list (gmap string Value))
    (total_cost : Qc) (st : State) :
  is_Some (fold_prompt config) →
  let size := fold_batch_size config in
  let n := Z.to_nat (Z.min num_parallel_folds
                       (Z.of_nat (length remaining_items))) in
  ∃ result st' new,
    fold_phase config key num_parallel_folds remaining_items fold_results
      total_cost st = (Ok result, st')
    ∧ calls st' = calls st ++ new
    ∧ length new = n
    ∧ call_values <$> new
      ≡ₚ (λ i, take size (drop (i * size) remaining_items)) <$> seq 0 n
    ∧ (∀ i, (length remaining_items + size - 1) / size ≤ i →
            take size (drop (i * size) remaining_items) = []).
Proof.
  intros Hprompt size n.
  destruct (returns_fold_phase config key num_parallel_folds remaining_items
              fold_results total_cost Hprompt st)
    as (result & st' & Hrun & _).
  pose proof Hrun as Hphase.
  unfold fold_phase in Hphase. rewrite fold_jobs_spec in Hphase.
  fold size n in Hphase.
  apply bind_Ok_inv in Hphase as (outs & st1 & Hgather & Hphase).
  rewrite collect_spec in Hphase. read_ret Hphase.
  set (jobs := (λ j, (take size (drop (j * size) remaining_items),
                      fold_results !! (0 + j))) <$> seq 0 n) in *.
  unfold gather in Hgather.
  destruct (Permutation_Forall2
              (P:=λ m (job : list (gmap string Value)
                             * option (gmap string Value)),
                    m = _increment_fold config key job.1 job.2)
              (l1:=(λ job, _increment_fold config key job.1 job.2) <$> jobs)
              (l1':=as_completed _ (length (calls st))
                      ((λ job, _increment_fold config key job.1 job.2)
                         <$> jobs))
              (l2:=jobs))
    as (order & Hperm & Htasks).
  { symmetry. apply as_completed_perm. }
  { apply Forall2_fmap_l, Forall_Forall2_diag, Forall_forall. done. }
  assert (Forall2 shows order.*1
            (as_completed _ (length (calls st))
               ((λ job, _increment_fold config key job.1 job.2) <$> jobs)))
    as Hshows.
  { apply Forall2_fmap_l, Forall2_flip.
    eapply Forall2_impl; [exact Htasks|].
    intros m job ->. apply shows_increment_fold. }
  destruct (sequence_shows _ _ _ _ _ Hshows Hgather) as (new & Hcalls & Hnew).
  assert (jobs.*1 = (λ i, take size (drop (i * size) remaining_items))
                      <$> seq 0 n) as Hbatches.
  { unfold jobs. rewrite <- list_fmap_compose. done. }
  eexists _, st', new. split; [exact Hrun|]. split; [done|].
  split; [|split].
  - apply (f_equal length) in Hnew. rewrite !length_fmap in Hnew.
    rewrite Hnew, <- Hperm. unfold jobs. by rewrite length_fmap, length_seq.
  - by rewrite Hnew, <- Hperm, Hbatches.
  - intros i Hi. destruct (decide (size = 0)) as [->|Hsize]; [done|].
    rewrite drop_ge; [apply take_nil|].
    pose proof (div_up_ge (length remaining_items) size ltac:(lia)). nia.
Qed.

End Lanes.

(** ** Exceptions *)

Section Exceptions.
Context `{PyFloat} {Value : Type} `{EqDecision Value}
  (val_lt : Value → Value → bool)
  `{!ModelService (Value:=Value)} `{!Scheduler}.
Variable config : Config.

Lemma never_raises_ret {A} (a : A) : never_raises (ret a).
Proof. by intros st e st'. Qed.

Lemma never_raises_bind {A B} (m : M A) (f : A → M B) :
  never_raises m → (∀ a, never_raises (f a)) → never_raises (m ≫= f).
Proof.
  intros Hm Hf st e st'. unfold mbind, M_bind, bind.
  specialize (Hm st). destruct (m st) as [[a| |] st1]; [apply Hf| |done].
  by destruct (Hm e0 st1).
Qed.

Lemma never_raises_sequence {A} (ms : list (M A)) :
  Forall never_raises ms → never_raises (sequence ms).
Proof.
  induction 1 as [|m ms Hm _ IH]; cbn [sequence]; [apply never_raises_ret|].
  apply never_raises_bind; [done|]. intros a.
  apply never_raises_bind; [done|]. intros outs. apply never_raises_ret.
Qed.

Lemma never_raises_gather {A} (ms : list (M A)) :
  Forall never_raises ms → never_raises (gather ms).
Proof.
  intros Hall st. unfold gather. apply never_raises_sequence.
  by rewrite as_completed_perm.
Qed.

Lemma never_raises_llm op_type p : never_raises (llm config op_type p).
Proof. by intros st e st'. Qed.

Lemma never_raises_batch_reduce key group_list :
  never_raises (_batch_reduce config key group_list).
Proof.
  unfold _batch_reduce. apply never_raises_bind.
  - destruct (gleaning config) as [[vp rounds]|].
    + apply never_raises_bind.
      * intros st e st'. unfold llm_with_gleaning, mbind, M_bind, bind, tick.
        by destruct (call_llm_with_gleaning _ _ _ _ _ _ _) as [r gc].
      * intros [r gc]. apply never_raises_ret.
    + apply never_raises_bind; [apply never_raises_llm|].
      intros r. apply never_raises_ret.
  - intros [r c]. destruct (validate_output _ _); apply never_raises_ret.
Qed.

Lemma never_raises_increment_fold key batch current_output :
  is_Some (fold_prompt config) →
  never_raises (_increment_fold config key batch current_output).
Proof.
  intros [t Ht].
  destruct current_output as [out|]; [|apply never_raises_batch_reduce].
  unfold _increment_fold. rewrite Ht.
  apply never_raises_bind; [done|]. intros start.
  apply never_raises_bind; [apply never_raises_llm|]. intros r.
  apply never_raises_bind; [done|]. intros _.
  destruct (validate_output _ _); apply never_raises_ret.
Qed.

Lemma never_raises_merge_results key outputs :
  is_Some (merge_prompt config) →
  never_raises (_merge_results config key outputs).
Proof.
  intros [t Ht]. unfold _merge_results. rewrite Ht.
  apply never_raises_bind; [done|]. intros start.
  apply never_raises_bind; [apply never_raises_llm|]. intros r.
  apply never_raises_bind; [done|]. intros _.
  destruct (validate_output _ _); apply never_raises_ret.
Qed.

Lemma never_raises_merge_round key fold_results total :
  is_Some (merge_prompt config) → 0 < merge_batch_size config →
  never_raises (merge_round config key fold_results total).
Proof.
  intros Hprompt Hsize. unfold merge_round, range_step.
  rewrite decide_False by lia.
  apply never_raises_bind; [apply never_raises_ret|]. intros indices.
  apply never_raises_bind; [|intros outs; apply never_raises_ret].
  apply never_raises_gather, Forall_fmap, Forall_forall. intros i _.
  by apply never_raises_merge_results.
Qed.

Lemma never_raises_fold_phase key n remaining fold_results total :
  is_Some (fold_prompt config) →
  never_raises (fold_phase config key n remaining fold_results total).
Proof.
  intros Hprompt. unfold fold_phase.
  destruct (fold_jobs _ _ _ _ _) as [jobs rest].
  apply never_raises_bind.
  - apply never_raises_gather, Forall_fmap, Forall_forall. intros job _.
    by apply never_raises_increment_fold.
  - intros outs. destruct (collect outs total). apply never_raises_ret.
Qed.

Lemma never_raises_final_merge fuel key fold_results total :
  is_Some (merge_prompt config) → 0 < merge_batch_size config →
  never_raises (final_merge config fuel key fold_results total).
Proof.
  intros Hmerge Hsize. revert fold_results total.
  induction fuel as [|fuel IH]; intros fold_results total;
    cbn [final_merge]; case_decide; try apply never_raises_ret; [done|].
  apply never_raises_bind; [by apply never_raises_merge_round|].
  intros [fr tc]. apply IH.
Qed.

Lemma never_raises_incremental_loop key group_list indices cur total :
  is_Some (fold_prompt config) →
  never_raises (incremental_loop config key group_list indices cur total).
Proof.
  intros Hfold. revert cur total.
  induction indices as [|i indices IH]; intros cur total;
    cbn [incremental_loop]; [apply never_raises_ret|].
  apply never_raises_bind; [by apply never_raises_increment_fold|].
  intros [[out|] c]; [apply IH | apply never_raises_ret].
Qed.

Lemma raises_only_never {A} (P : exception → State → Prop) (m : M A) :
  never_raises m → raises_only P m.
Proof. intros Hm st e st' Hrun. by destruct (Hm st e st'). Qed.

Lemma raises_only_bind {A B} (P : exception → State → Prop)
    (m : M A) (f : A → M B) :
  raises_only P m → (∀ a, raises_only P (f a)) → raises_only P (m ≫= f).
Proof.
  intros Hm Hf st e st'. unfold mbind, M_bind, bind.
  specialize (Hm st). destruct (m st) as [[a| |] st1]; [apply Hf| |done].
  intros [= <- <-]. by apply Hm.
Qed.

Lemma raises_only_sequence {A} (P : exception → State → Prop)
    (ms : list (M A)) :
  Forall (raises_only P) ms → raises_only P (sequence ms).
Proof.
  induction 1 as [|m ms Hm _ IH]; cbn [sequence];
    [apply raises_only_never, never_raises_ret|].
  apply raises_only_bind; [done|]. intros a.
  apply raises_only_bind; [done|]. intros outs.
  apply raises_only_never, never_raises_ret.
Qed.

Lemma raises_only_gather {A} (P : exception → State → Prop)
    (ms : list (M A)) :
  Forall (raises_only P) ms → raises_only P (gather ms).
Proof.
  intros Hall st. unfold gather. apply raises_only_sequence.
  by rewrite as_completed_perm.
Qed.

Lemma raises_only_calculate group_list :
  is_Some (merge_prompt config) → 0 < merge_batch_size config →
  raises_only (raised_by_estimate config)
    (calculate_num_parallel_folds config group_list).
Proof.
  intros Hmerge Hsize st e st' Hrun.
  destruct (calculate_raises config group_list st e st' Hsize Hrun)
    as [Herror ->].
  split; [done|]. split; [done|]. by exists group_list.
Qed.

Lemma raises_only_fold_merge_loop fuel key group_list n used remaining
    fold_results total :
  is_Some (fold_prompt config) → is_Some (merge_prompt config) →
  0 < merge_batch_size config →
  raises_only (raised_by_estimate config)
    (fold_merge_loop config fuel key group_list n used remaining
       fold_results total).
Proof.
  intros Hfold Hmerge Hsize.
  revert n used remaining fold_results total.
  induction fuel as [|fuel IH]; intros n used remaining fold_results total;
    destruct remaining as [|item rest]; cbn [fold_merge_loop];
    try (apply raises_only_never, never_raises_ret); [by intros st e st'|].
  apply raises_only_bind;
    [by apply raises_only_never, never_raises_fold_phase|].
  intros [[rem fr] tc].
  apply raises_only_bind; [by intros st e st'|]. intros samples.
  apply raises_only_bind.
  { apply raises_only_never.
    case_decide; [by apply never_raises_merge_round|apply never_raises_ret]. }
  intros [fr' tc'].
  apply raises_only_bind; [|intros [n' used']; apply IH].
  destruct used; [|apply raises_only_never, never_raises_ret].
  apply raises_only_bind; [by apply raises_only_calculate|].
  intros [n' used']. apply raises_only_never, never_raises_ret.
Qed.

Lemma raises_only_run_strategy fuel key group_list :
  well_formed config →
  raises_only (raised_by_estimate config)
    (run_strategy config fuel key group_list).
Proof.
  intros [Hmerge Hfold]. unfold run_strategy.
  destruct (merge_prompt config) as [mp|] eqn:Hmp.
  - destruct Hmerge as [Hfp Hsize]; [eauto|].
    assert (is_Some (merge_prompt config)) as Hprompt
      by (rewrite Hmp; eauto).
    unfold _parallel_fold_and_merge.
    apply raises_only_bind; [by apply raises_only_calculate|].
    intros [n used].
    apply raises_only_bind; [by apply raises_only_fold_merge_loop|].
    intros [fr tc].
    apply raises_only_bind;
      [|intros [fr' tc']; apply raises_only_never, never_raises_ret].
    apply raises_only_never, never_raises_final_merge; [|done].
    rewrite Hmp. eauto.
  - apply raises_only_never.
    destruct (fold_prompt config) as [fp|] eqn:Hfp;
      [|apply never_raises_batch_reduce].
    unfold _incremental_reduce, range_step.
    rewrite decide_False by (specialize (Hfold ltac:(eauto)); lia).
    apply never_raises_bind; [apply never_raises_ret|]. intros indices.
    apply never_raises_incremental_loop. rewrite Hfp. eauto.
Qed.

Lemma raises_only_process_group fuel key group_list :
  well_formed config →
  raises_only (raised_by_estimate config)
    (process_group config fuel key group_list).
Proof.
  intros Hwf. unfold process_group.
  apply raises_only_bind; [by apply raises_only_run_strategy|].
  intros [[result|] cost]; apply raises_only_never;
    [|apply never_raises_ret].
  destruct (pass_through config); [|apply never_raises_ret].
  destruct (strategy_input config group_list); apply never_raises_ret.
Qed.

(** X12. With the prompts and batch sizes as [syntax_check] leaves them,
    [execute] raises in two cases only.  One is the [KeyError] of the sort
    for a record that lacks the reduce key, raised before any group is
    formed: the state is as it was, so no call has been made and no
    duration recorded.  The other needs a merge prompt and records that
    all carry the reduce key: it is an exception of the lane estimate of
    some group, raised in the state in which that estimate was computed,
    and it is the [OverflowError] of a size with no float or of an
    infinite quotient, the [ZeroDivisionError] of a zero divisor
    [fold_batch_size * merge_time], or the [ValueError] of a quotient that
    is a NaN. *)
Theorem execute_raises_for_key_or_estimate
    (fuel : nat) (input_data : list (gmap string Value)) (st st' : State)
    (e : exception) :
  well_formed config →
  execute val_lt config fuel input_data st = (Raise e, st') →
  (e = KeyError (reduce_key config)
   ∧ Exists (λ r, r !! reduce_key config = None) input_data
   ∧ st' = st)
  ∨ (is_Some (merge_prompt config)
     ∧ Forall (λ r, is_Some (r !! reduce_key config)) input_data
     ∧ estimate_error e
     ∧ ∃ group_list,
         calculate_num_parallel_folds config group_list st'
         = (Raise e, st')).
Proof.
  intros Hwf Hrun.
  destruct (decide (Forall (λ r, is_Some (r !! reduce_key config))
                      input_data)) as [Hkeys|Hmissing].
  - right.
    destruct (grouping_total val_lt config input_data st Hkeys)
      as (groups & Hgrouping).
    unfold execute in Hrun. erewrite bind_Ok in Hrun by exact Hgrouping.
    assert (raised_by_estimate config e st') as (Hmerge & Herror & Hestimate).
    { revert Hrun. apply raises_only_bind;
        [|intros outs; apply raises_only_never, never_raises_ret].
      apply raises_only_gather, Forall_fmap, Forall_forall. intros kg _.
      by apply raises_only_process_group. }
    done.
  - left. apply not_Forall_Exists in Hmissing; [|apply _].
    assert (Exists (λ r, r !! reduce_key config = None) input_data) as Hex.
    { eapply Exists_impl; [exact Hmissing|]. simpl.
      intros r Hr. destruct (r !! reduce_key config); [|done].
      exfalso. apply Hr. eauto. }
    unfold execute, grouping, sorted in Hrun.
    erewrite bind_Raise in Hrun.
    + injection Hrun as <- <-. done.
    + erewrite bind_Raise; [done|].
      erewrite bind_Raise; [done|].
      by apply sequence_itemgetter_missing.
Qed.

End Exceptions.

(** ** The divisor of the lane estimate *)

Section Divisor.
Context {Value : Type} `{EqDecision Value}
  (val_lt : Value → Value → bool)
  `{!ModelService (H:=RFloat) (Value:=Value)} `{!Scheduler}.
Variable config : Config (H:=RFloat).

Lemma foldl_Rplus_positive (acc : R) (l : list R) :
  (0 < acc)%R → Forall (λ t, (0 < t)%R) l → (0 < foldl Rplus acc l)%R.
Proof.
  intros Hacc Hall. revert acc Hacc.
  induction Hall as [|t l Ht _ IH]; intros acc Hacc; [done|].
  simpl. apply IH. lra.
Qed.

Lemma mean_positive (l : list R) :
  Forall (λ t, (0 < t)%R) l → l ≠ [] → (0 < mean (H:=RFloat) l)%R.
Proof.
  intros Hall Hne. destruct l as [|t l]; [done|].
  apply Forall_cons in Hall as [Ht Hall].
  unfold mean, float_sum. cbn [float_div float_add float_of_int RFloat foldl].
  apply Rdiv_lt_0_compat.
  - apply foldl_Rplus_positive; [lra|done].
  - apply (IZR_lt 0). simpl length. lia.
Qed.

Lemma merge_time_positive (st : State) :
  positive_merge_times config st →
  ∃ t d, get_merge_time config st = (Ok (t, d), st) ∧ (0 < t)%R.
Proof.
  intros (Hconfigured & Hsamples & _). unfold get_merge_time.
  destruct (merge_time config) as [t|] eqn:Ht.
  - exists t, false. split; [done|]. by apply Hconfigured.
  - case_decide as Hlen.
    + eexists _, false. split; [reflexivity|].
      apply mean_positive; [done|].
      intros Hnil. rewrite Hnil in Hlen. unfold min_samples in Hlen.
      simpl in Hlen. lia.
    + eexists _, true. split; [reflexivity|]. simpl. lra.
Qed.

Lemma positive_merge_times_log c :
  preserves (positive_merge_times config) (log_call c).
Proof. by intros st. Qed.

Lemma positive_merge_times_fold n :
  preserves (positive_merge_times config) (_update_fold_time (elapsed n)).
Proof. by intros st. Qed.

Lemma positive_merge_times_merge n :
  preserves (positive_merge_times config) (_update_merge_time (elapsed n)).
Proof.
  intros st (Hconfigured & Hsamples & Hclock).
  split; [done|]. split; [|done]. simpl. unfold deque_append.
  assert (Forall (λ t, (0 < t)%R) (merge_times st ++ [elapsed n])) as Hall.
  { apply Forall_app. split; [done|]. constructor; [apply Hclock|constructor]. }
  case_decide; [by apply Forall_drop | done].
Qed.

(** X16. With durations read as real numbers: when the configured
    [merge_time], the samples of the merge window and every duration the
    clock measures are positive, an execution keeps it so, however it
    ends; and in such a state the merge time the lane estimate reads is
    positive, so that with a positive [fold_batch_size] its divisor
    [fold_batch_size * merge_time] is not zero. *)
Theorem lane_estimate_divisor_is_positive
    (fuel : nat) (input_data : list (gmap string Value)) (st : State) :
  positive_merge_times config st →
  0 < fold_batch_size config →
  positive_merge_times config (execute val_lt config fuel input_data st).2
  ∧ ∀ st', positive_merge_times config st' →
           ∃ t d, get_merge_time config st' = (Ok (t, d), st')
                  ∧ (0 < t)%R
                  ∧ (0 < @float_mul RFloat
                           (float_of_int (Z.of_nat (fold_batch_size config)))
                           t)%R.
Proof.
  intros Hst Hsize. split.
  - apply (preserves_execute val_lt config (positive_merge_times config));
      [apply positive_merge_times_log | apply positive_merge_times_fold
      | apply positive_merge_times_merge | done].
  - intros st' Hst'.
    destruct (merge_time_positive st' Hst') as (t & d & Hread & Ht).
    exists t, d. split; [done|]. split; [done|]. simpl.
    apply Rmult_lt_0_compat; [|done]. apply (IZR_lt 0). lia.
Qed.

End Divisor.

(** ** The accumulators that reach the final merge *)

Section UnitMerge.
Context `{PyFloat} {Value : Type} `{EqDecision Value}
  `{!ModelService (Value:=Value)} `{!Scheduler}.
Variable config : Config.

Lemma fold_phase_length key n remaining fold_results total st
    remaining' fold_results' total' st' :
  fold_phase config key n remaining fold_results total st
  = (Ok (remaining', fold_results', total'), st') →
  length fold_results'
  ≤ Z.to_nat (Z.min n (Z.of_nat (length remaining))) `max` length fold_results.
Proof.
  intros Hrun. unfold fold_phase in Hrun. rewrite fold_jobs_spec in Hrun.
  split_bind Hrun. rewrite collect_spec in Hrun. read_ret Hrun.
  apply gather_length in Hrun0. rewrite !length_fmap, length_seq in Hrun0.
  pose proof (length_omap_le fst a).
  rewrite length_app, length_drop. lia.
Qed.

Lemma merge_round_shrinks key fold_results total st new total' st' :
  merge_round config key fold_results total st = (Ok (new, total'), st') →
  length new ≤ length fold_results.
Proof.
  intros Hrun. unfold merge_round, range_step in Hrun.
  split_bind Hrun. case_decide as Hstep; [done|]. read_ret Hrun0.
  split_bind Hrun. rewrite collect_spec in Hrun. read_ret Hrun.
  apply gather_length in Hrun0.
  rewrite length_fmap, range_list_length in Hrun0.
  etrans; [apply length_omap_le|]. rewrite Hrun0.
  apply div_up_le. lia.
Qed.

(** With [merge_batch_size = 1] the folding loop runs one lane, and keeps
    at most one accumulator. *)
Lemma unit_lanes_loop fuel key group_list used remaining fold_results total
    st accs total' st' :
  zero_laws →
  merge_batch_size config = 1 →
  fold_merge_loop config fuel key group_list 1 used remaining fold_results
    total st = (Ok (accs, total'), st') →
  length fold_results ≤ 1 →
  length accs ≤ 1.
Proof.
  intros Hlaws Hone. revert used remaining fold_results total st.
  induction fuel as [|fuel IH];
    intros used remaining fold_results total st Hrun Hlen;
    destruct remaining as [|item rest]; cbn [fold_merge_loop] in Hrun;
    try done; try (by read_ret Hrun).
  split_bind Hrun. destruct a as [[remaining1 fold_results1] total1].
  apply fold_phase_length in Hrun0. simpl in Hrun0.
  split_bind Hrun. split_bind Hrun. destruct a0 as [fold_results2 total2].
  assert (length fold_results2 ≤ 1) as Hlen2.
  { case_decide.
    - apply merge_round_shrinks in Hrun2. lia.
    - read_ret Hrun2. lia. }
  split_bind Hrun. destruct a0 as [n' used'].
  assert (n' = 1%Z) as ->.
  { destruct used; [|by read_ret Hrun3].
    split_bind Hrun3. destruct a0 as [n0 used0].
    apply (unit_lane_estimate config) in Hrun4 as ->; [|done..].
    read_ret Hrun3. by destruct used'. }
  by eapply IH.
Qed.

(** C2. With a positive [merge_batch_size = k], every round of the final
    merge merges the contiguous chunks of [k] accumulators.  With at
    least one accumulator and merges that always return a record, the
    loop stops after exactly [rounds] rounds with one accumulator, where
    [rounds] is the least number with [N <= k ^ rounds], that is
    [ceil(log_k N)] (no round for one accumulator): any fuel of at least
    [rounds] gives the result and any smaller fuel runs out.  This holds
    for every list of accumulators when [k >= 2], and for one accumulator
    when [k = 1]; and with [k = 1] no other list reaches the loop, since
    the lane estimate is then one lane and the folding loop of
    [_parallel_fold_and_merge] hands on at most one accumulator. *)
Theorem final_merge_rounds (key : Value)
    (fold_results : list (gmap string Value)) (total_cost : Qc) (st : State) :
  0 < merge_batch_size config →
  1 ≤ length fold_results →
  (∀ outputs, yields_record (_merge_results config key outputs)) →
  let k := merge_batch_size config in
  (∀ accs total st,
     concat (chunks k accs) = accs
     ∧ merge_round config key accs total st
       = (outs ← gather (_merge_results config key <$> chunks k accs);
          ret (collect outs total)) st)
  ∧ (2 ≤ k ∨ length fold_results = 1 →
     ∃ rounds result total_cost' st',
       length fold_results ≤ k ^ rounds
       ∧ (rounds = 0 ∨ k ^ (rounds - 1) < length fold_results)
       ∧ (∀ fuel, rounds ≤ fuel →
            final_merge config fuel key fold_results total_cost st
            = (Ok ([result], total_cost'), st'))
       ∧ (∀ fuel, fuel < rounds →
            (final_merge config fuel key fold_results total_cost st).1
            = Diverge))
  ∧ (k = 1 → zero_laws →
     ∀ fuel group_list lanes used st0 st1 accs total st2,
       calculate_num_parallel_folds config group_list st0
       = (Ok (lanes, used), st1) →
       fold_merge_loop config fuel key group_list lanes used group_list []
         0%Qc st1 = (Ok (accs, total), st2) →
       length accs ≤ 1).
Proof.
  intros Hk Hone Hyes k. split; [|split].
  - intros accs total st0. split.
    + apply concat_chunks. unfold k. lia.
    + apply merge_round_chunks. lia.
  - intros Hreach. by apply final_merge_in_rounds.
  - intros Hunit Hlaws fuel group_list lanes used st0 st1 accs total st2
      Hestimate Hloop.
    apply (unit_lane_estimate config) in Hestimate as ->; [|done..].
    eapply unit_lanes_loop; [done|done|exact Hloop|]. simpl. lia.
Qed.

End UnitMerge.

(** ** The keys of the results *)

Section GroupKeys.
Context `{PyFloat} {Value : Type} `{EqDecision Value}
  (val_lt : Value → Value → bool)
  `{!ModelService (Value:=Value)} `{!Scheduler}.
Variable config : Config.

(** The groups in the order in which their tasks complete. *)
Lemma completion_order fuel
    (groups : list (Value * list (gmap string Value))) (n : nat) :
  ∃ order,
    order ≡ₚ groups
    ∧ as_completed _ n
        ((λ kg, process_group config fuel kg.1 kg.2) <$> groups)
      = (λ kg, process_group config fuel kg.1 kg.2) <$> order.
Proof.
  pose proof (as_completed_perm _ n
    ((λ kg, process_group config fuel kg.1 kg.2) <$> groups)) as Hperm.
  apply Permutation_map_inv in Hperm as (order & Horder & Hgroups).
  exists order. split; [by symmetry | exact Horder].
Qed.

Lemma sequence_Forall2_fmap {X A} (P : X → A → Prop) (f : X → M A)
    (xs : list X) st outs st' :
  (∀ x st a st', x ∈ xs → f x st = (Ok a, st') → P x a) →
  sequence (f <$> xs) st = (Ok outs, st') → Forall2 P xs outs.
Proof.
  revert st outs. induction xs as [|x xs IH]; intros st outs Hall Hrun;
    cbn [sequence fmap list_fmap] in Hrun.
  - read_ret Hrun. constructor.
  - split_bind Hrun. split_bind Hrun. read_ret Hrun.
    constructor; [eapply Hall; [left|done]|].
    eapply IH; [|done]. intros x0 st2 a1 st3 Hin. apply Hall. by right.
Qed.

(** The groups are formed of the input: the key of a group is the value
    an input record has under the reduce key. *)
Lemma groups_of_input input_data st groups st0 :
  grouping val_lt config input_data st = (Ok groups, st0) →
  st0 = st
  ∧ Forall (λ kg, ∃ item, item ∈ input_data
                   ∧ item !! reduce_key config = Some kg.1) groups.
Proof.
  intros Hgrouping.
  assert (st0 = st) as ->.
  { pose proof (grouping_same_state val_lt config input_data st) as Hsame.
    by rewrite Hgrouping in Hsame. }
  split; [done|].
  destruct (decide (Forall (λ r, is_Some (r !! reduce_key config))
                      input_data)) as [Hkeys|Hmissing].
  - destruct (sequence_itemgetter config input_data st Hkeys)
      as (keys & Hseq & Hlen & Hdec).
    assert (Forall (decorated config)
              (sort_by_key val_lt (zip keys input_data))) as Hdec'
      by (by rewrite sort_by_key_perm).
    destruct (groupby_spec val_lt config _ st Hdec')
      as (groups' & Hgrun & Hcat & Hkg & _).
    assert (grouping val_lt config input_data st = (Ok groups', st)) as Hrun.
    { unfold grouping, sorted.
      erewrite bind_Ok; [|by erewrite bind_Ok by exact Hseq]. exact Hgrun. }
    rewrite Hrun in Hgrouping. injection Hgrouping as ->.
    apply Forall_forall. intros [k g] Hin.
    rewrite Forall_forall in Hkg. destruct (Hkg _ Hin) as [Hne Hall].
    simpl in *. destruct g as [|item g]; [done|].
    apply Forall_cons in Hall as [Hitem _].
    exists item. split; [|done].
    assert (item ∈ concat groups.*2) as Hconcat.
    { apply list_elem_of_split in Hin as (g1 & g2 & ->).
      rewrite fmap_app, fmap_cons, concat_app, concat_cons. simpl.
      set_solver. }
    rewrite Hcat, sort_by_key_perm, snd_zip in Hconcat by lia. done.
  - apply not_Forall_Exists in Hmissing; [|apply _].
    unfold grouping, sorted in Hgrouping.
    erewrite bind_Raise in Hgrouping; [done|].
    erewrite bind_Raise; [done|].
    apply sequence_itemgetter_missing.
    eapply Exists_impl; [exact Hmissing|]. simpl.
    intros r Hr. destruct (r !! reduce_key config); [|done].
    exfalso. apply Hr. eauto.
Qed.

(** X3. When [execute] returns, every record it returns is tagged with
    the key of the group it was computed for.  With [order] the groups in
    the order of completion, that is the order in which [as_completed]
    yields their tasks, the outcomes [outs] are those of processing the
    groups of [order] one after the other; the outcome of a group is
    [None] or a record that holds the key of that very group under the
    reduce key, whatever the strategy, the model's answers and the
    pass-through copy; that key is the value some input record has under
    the reduce key; and the results are the records of [outs], in that
    order. *)
Theorem results_carry_group_key
    (fuel : nat) (input_data : list (gmap string Value)) (st st' : State)
    (results : list (gmap string Value)) (total_cost : Qc) :
  execute val_lt config fuel input_data st = (Ok (results, total_cost), st') →
  ∃ groups order outs,
    grouping val_lt config input_data st = (Ok groups, st)
    ∧ order ≡ₚ groups
    ∧ as_completed _ (length (calls st))
        ((λ kg, process_group config fuel kg.1 kg.2) <$> groups)
      = (λ kg, process_group config fuel kg.1 kg.2) <$> order
    ∧ sequence ((λ kg, process_group config fuel kg.1 kg.2) <$> order) st
      = (Ok outs, st')
    ∧ Forall2 (λ kg out,
                 (∃ item, item ∈ input_data
                          ∧ item !! reduce_key config = Some kg.1)
                 ∧ ∀ r, out.1 = Some r →
                        r !! reduce_key config = Some kg.1)
        order outs
    ∧ results = omap fst outs.
Proof.
  intros Hrun. unfold execute in Hrun.
  apply bind_Ok_inv in Hrun as (groups & st0 & Hgrouping & Hrun).
  destruct (groups_of_input _ _ _ _ Hgrouping) as [-> Hgroups].
  apply bind_Ok_inv in Hrun as (outs & st1 & Hgather & Hrun).
  rewrite collect_spec in Hrun. read_ret Hrun.
  destruct (completion_order fuel groups (length (calls st)))
    as (order & Hperm & Horder).
  unfold gather in Hgather. rewrite Horder in Hgather.
  exists groups, order, outs.
  split; [done|]. split; [done|]. split; [done|]. split; [done|].
  split; [|done].
  eapply sequence_Forall2_fmap; [|exact Hgather].
  intros [k g] st2 [o c] st3 Hin Hgroup. simpl. split.
  - rewrite Forall_forall in Hgroups. apply (Hgroups (k, g)).
    by rewrite <- Hperm.
  - intros r ->. by eapply keyed_process_group.
Qed.

End GroupKeys.

(** ** Executions whose lane estimate is defined *)

Section Defined.
Context `{PyFloat} {Value : Type} `{EqDecision Value}
  (val_lt : Value → Value → bool)
  `{!ModelService (Value:=Value)} `{!Scheduler}.
Variable config : Config.

(** A property of the state that logging a call and recording a measured
    duration keep, and in which the lane estimate of a group of at most
    [longest] records returns. *)
Variable I : State → Prop.
Hypothesis I_log : ∀ c, preserves I (log_call c).
Hypothesis I_fold : ∀ n, preserves I (_update_fold_time (elapsed n)).
Hypothesis I_merge : ∀ n, preserves I (_update_merge_time (elapsed n)).
Variable longest : nat.
Hypothesis I_estimate :
  is_Some (merge_prompt config) → estimate_defined config I longest.

Lemma returns_in_intro {A} (P : A → Prop) (m : M A) :
  returns_with P m → preserves I m → returns_in I P m.
Proof.
  intros Hm Hkeep st Hst. destruct (Hm st) as (a & st' & Hrun & Ha).
  exists a, st'. split; [done|]. split; [done|].
  specialize (Hkeep st Hst). by rewrite Hrun in Hkeep.
Qed.

Lemma returns_in_ret {A} (P : A → Prop) (a : A) :
  P a → returns_in I P (ret a).
Proof. intros Ha st Hst. by exists a, st. Qed.

Lemma returns_in_bind {A B} (P : A → Prop) (Q : B → Prop)
    (m : M A) (f : A → M B) :
  returns_in I P m → (∀ a, P a → returns_in I Q (f a)) →
  returns_in I Q (m ≫= f).
Proof.
  intros Hm Hf st Hst. destruct (Hm st Hst) as (a & st1 & Hrun & Ha & Hst1).
  destruct (Hf a Ha st1 Hst1) as (b & st' & Hrun' & Hb & Hst').
  exists b, st'. split; [|done]. by erewrite bind_Ok by exact Hrun.
Qed.

Lemma returns_in_weaken {A} (P Q : A → Prop) (m : M A) :
  (∀ a, P a → Q a) → returns_in I P m → returns_in I Q m.
Proof.
  intros HPQ Hm st Hst. destruct (Hm st Hst) as (a & st' & Hrun & Ha & Hst').
  exists a, st'. auto.
Qed.

Lemma returns_in_sequence {A} (ms : list (M A)) :
  Forall (returns_in I (λ _, True)) ms →
  returns_in I (λ outs, length outs = length ms) (sequence ms).
Proof.
  induction 1 as [|m ms Hm _ IH]; cbn [sequence].
  - by apply returns_in_ret.
  - eapply returns_in_bind; [exact Hm|]. intros a _.
    eapply returns_in_bind; [exact IH|]. intros outs Houts.
    apply returns_in_ret. simpl. by rewrite Houts.
Qed.

Lemma returns_in_gather {A} (ms : list (M A)) :
  Forall (returns_in I (λ _, True)) ms →
  returns_in I (λ outs, length outs = length ms) (gather ms).
Proof.
  intros Hall st Hst. unfold gather.
  pose proof (as_completed_perm _ (length (calls st)) ms) as Hperm.
  rewrite <- Hperm in Hall.
  destruct (returns_in_sequence _ Hall st Hst)
    as (outs & st' & Hrun & Hlen & Hst').
  exists outs, st'. split; [done|]. split; [|done]. by rewrite Hlen, Hperm.
Qed.

Lemma returns_in_calculate group_list :
  is_Some (merge_prompt config) → length group_list ≤ longest →
  returns_in I (λ r, (1 ≤ r.1)%Z)
    (calculate_num_parallel_folds config group_list).
Proof.
  intros Hmerge Hlen st Hst.
  destruct (I_estimate Hmerge st group_list Hst Hlen) as ([lanes used] & Hrun).
  exists (lanes, used), st. split; [done|]. split; [|done].
  by destruct (calculate_at_least_one config group_list st lanes used st Hrun).
Qed.

Lemma returns_in_fold_phase key n remaining fold_results total :
  is_Some (fold_prompt config) →
  returns_in I
    (λ r, r.1.1
          = drop (Z.to_nat (Z.min n (Z.of_nat (length remaining)))
                  * fold_batch_size config) remaining
          ∧ length r.1.2
            ≤ Z.to_nat (Z.min n (Z.of_nat (length remaining)))
              `max` length fold_results)
    (fold_phase config key n remaining fold_results total).
Proof.
  intros Hfold. apply returns_in_intro; [by apply returns_fold_phase|].
  by apply preserves_fold_phase.
Qed.

Lemma returns_in_merge_round key fold_results total :
  is_Some (merge_prompt config) → 0 < merge_batch_size config →
  returns_in I
    (λ r, length r.1
          ≤ (length fold_results + merge_batch_size config - 1)
            / merge_batch_size config)
    (merge_round config key fold_results total).
Proof.
  intros Hmerge Hsize. apply returns_in_intro; [by apply returns_merge_round|].
  by apply preserves_merge_round.
Qed.

Lemma returns_in_fold_merge_loop fuel key group_list n used remaining
    fold_results total bound :
  is_Some (fold_prompt config) → is_Some (merge_prompt config) →
  0 < fold_batch_size config → 0 < merge_batch_size config →
  length group_list ≤ longest →
  (1 ≤ n)%Z →
  length remaining ≤ fuel → length remaining ≤ bound →
  length fold_results ≤ bound →
  returns_in I (λ r, length r.1 ≤ bound)
    (fold_merge_loop config fuel key group_list n used remaining
       fold_results total).
Proof.
  intros Hfold Hmerge Hfbs Hmbs Hgroup.
  revert n used remaining fold_results total.
  induction fuel as [|fuel IH];
    intros n used remaining fold_results total Hn Hfuel Hrem Hacc;
    destruct remaining as [|item rest]; cbn [fold_merge_loop];
    try (by apply returns_in_ret); [simpl in Hfuel; lia|].
  set (remaining := item :: rest) in *.
  assert (1 ≤ length remaining) as Hsome by (simpl; lia).
  assert (1 ≤ Z.to_nat (Z.min n (Z.of_nat (length remaining)))
          ≤ length remaining) as Hlanes by lia.
  eapply returns_in_bind; [by apply returns_in_fold_phase|].
  intros [[remaining' fold_results'] total'] [Hrest Hlen].
  cbn [fst snd] in Hrest, Hlen.
  eapply (returns_in_bind (λ _, True)).
  { apply returns_in_intro; [|by apply preserves_same].
    intros st0. by eexists _, _. }
  intros samples _.
  eapply (returns_in_bind (λ r, length r.1 ≤ bound)).
  { case_decide.
    - eapply returns_in_weaken; [|by apply returns_in_merge_round].
      intros r Hr. etrans; [exact Hr|].
      etrans; [by apply div_up_le|]. lia.
    - apply returns_in_ret. cbn [fst snd]. lia. }
  intros [fold_results'' total''] Hlen'. cbn [fst snd] in Hlen'.
  eapply (returns_in_bind (λ r, (1 ≤ r.1)%Z)).
  { destruct used.
    - eapply returns_in_bind; [by apply returns_in_calculate|].
      intros [n' used'] Hn'. apply returns_in_ret. simpl in Hn' |- *.
      by destruct used'.
    - by apply returns_in_ret. }
  intros [n' used'] Hn'. cbn [fst snd] in Hn'.
  apply IH; [done| | |done].
  - rewrite Hrest, length_drop. nia.
  - rewrite Hrest, length_drop. lia.
Qed.

Lemma returns_in_final_merge fuel key fold_results total :
  is_Some (merge_prompt config) → 2 ≤ merge_batch_size config →
  length fold_results ≤ fuel →
  returns_in I (λ _, True) (final_merge config fuel key fold_results total).
Proof.
  intros Hmerge Hk Hfuel.
  apply returns_in_intro; [by apply returns_final_merge|].
  by apply preserves_final_merge.
Qed.

Lemma returns_in_run_strategy fuel key group_list :
  terminating config →
  length group_list ≤ fuel → length group_list ≤ longest →
  returns_in I (λ _, True) (run_strategy config fuel key group_list).
Proof.
  intros [[Hprompts Hsize] Hshrink] Hfuel Hgroup. unfold run_strategy.
  assert (is_Some (merge_prompt config) ∨ merge_prompt config = None)
    as [Hmerge | Hmp] by (destruct (merge_prompt config); eauto).
  - destruct Hprompts as [Hfold _]; [done|].
    specialize (Hshrink Hmerge). specialize (Hsize Hfold).
    pose proof Hmerge as [mp Hmp]. rewrite Hmp.
    unfold _parallel_fold_and_merge.
    eapply returns_in_bind; [by apply returns_in_calculate|].
    intros [n used] Hn. simpl in Hn.
    eapply (returns_in_bind (λ r, length r.1 ≤ length group_list)).
    { apply returns_in_fold_merge_loop; try done; simpl; lia. }
    intros [fold_results total] Hlen. simpl in Hlen.
    eapply returns_in_bind; [apply returns_in_final_merge; [done|done|lia]|].
    intros [fold_results' total'] _. by apply returns_in_ret.
  - rewrite Hmp.
    apply returns_in_intro;
      [|pose proof (preserves_run_strategy config I I_log I_fold I_merge
                      fuel key group_list) as Hkeep;
        unfold run_strategy in Hkeep; by rewrite Hmp in Hkeep].
    destruct (fold_prompt config) as [fp|] eqn:Hfp;
      [|apply returns_batch_reduce].
    unfold _incremental_reduce, range_step.
    rewrite decide_False by (specialize (Hsize ltac:(eauto)); lia).
    eapply (returns_bind (λ _, True)); [by apply returns_ret|].
    intros indices _. apply returns_incremental_loop. rewrite Hfp. eauto.
Qed.

Lemma returns_in_process_group fuel key group_list :
  terminating config →
  length group_list ≤ fuel → length group_list ≤ longest →
  returns_in I (λ _, True) (process_group config fuel key group_list).
Proof.
  intros Hready Hfuel Hgroup. unfold process_group.
  eapply returns_in_bind.
  - apply returns_in_run_strategy; [done|..];
      unfold strategy_input; (case_decide; [done|]); by rewrite length_fmap.
  - intros [[result|] cost] _; [|by apply returns_in_ret].
    destruct (pass_through config); [|by apply returns_in_ret].
    destruct (strategy_input config group_list); by apply returns_in_ret.
Qed.

(** With a configuration whose loops end, records that all carry the
    reduce key and fuel for as many rounds as there are records, the
    groups are formed and every group is processed to its end. *)
Lemma execute_runs_groups (fuel : nat)
    (input_data : list (gmap string Value)) (st : State) :
  terminating config →
  Forall (λ r, is_Some (r !! reduce_key config)) input_data →
  length input_data ≤ fuel → length input_data ≤ longest →
  I st →
  ∃ groups outs st',
    grouping val_lt config input_data st = (Ok groups, st)
    ∧ Forall (key_group config) groups
    ∧ gather ((λ kg, process_group config fuel kg.1 kg.2) <$> groups) st
      = (Ok outs, st')
    ∧ execute val_lt config fuel input_data st
      = (Ok (collect outs 0%Qc), st')
    ∧ I st'.
Proof.
  intros Hready Hkeys Hfuel Hlongest Hst.
  destruct (sequence_itemgetter config input_data st Hkeys)
    as (keys & Hseq & Hlen & Hdec).
  assert (Forall (decorated config) (sort_by_key val_lt (zip keys input_data)))
    as Hdec' by (by rewrite sort_by_key_perm).
  destruct (groupby_spec val_lt config _ st Hdec')
    as (groups & Hrun & Hcat & Hgroups & _).
  assert (grouping val_lt config input_data st = (Ok groups, st)) as Hgrouping.
  { unfold grouping, sorted.
    erewrite bind_Ok; [|by erewrite bind_Ok by exact Hseq]. exact Hrun. }
  assert (Forall (λ kg, length kg.2 ≤ length input_data) groups) as Hsmall.
  { apply Forall_forall. intros kg Hkg.
    assert (length (concat groups.*2) = length input_data) as Hsame.
    { rewrite Hcat, sort_by_key_perm, snd_zip by lia. done. }
    apply list_elem_of_split in Hkg as (g1 & g2 & ->).
    rewrite fmap_app, fmap_cons, concat_app, concat_cons in Hsame.
    rewrite !length_app in Hsame. lia. }
  destruct (returns_in_gather
    ((λ kg, process_group config fuel kg.1 kg.2) <$> groups)) with st
    as (outs & st' & Hgather & _ & Hst'); [|done|].
  { apply Forall_fmap. eapply Forall_impl; [exact Hsmall|].
    intros kg Hkg. simpl in Hkg.
    apply returns_in_process_group; [done|lia..]. }
  exists groups, outs, st'. split; [done|]. split; [done|]. split; [done|].
  split; [|done].
  unfold execute. erewrite bind_Ok by exact Hgrouping.
  by erewrite bind_Ok by exact Hgather.
Qed.

(** X7. Let [I] be a property of the state that logging a call and
    recording a measured duration keep, and in which, when a merge prompt
    is configured, the lane estimate of a group of at most [longest]
    records returns (it raises neither for its divisor nor for its
    quotient).  With the prompts and batch sizes as [syntax_check] leaves
    them, a [merge_batch_size] of at least 2 where there is a merge
    prompt, at most [longest] records that all carry the reduce key and
    fuel for as many rounds as there are records, [execute] returns from
    every state that satisfies [I]: its loops end and nothing is raised;
    and [I] holds afterwards. *)
Theorem execute_terminates
    (fuel : nat) (input_data : list (gmap string Value)) (st : State) :
  terminating config →
  Forall (λ r, is_Some (r !! reduce_key config)) input_data →
  length input_data ≤ fuel → length input_data ≤ longest →
  I st →
  ∃ result st',
    execute val_lt config fuel input_data st = (Ok result, st') ∧ I st'.
Proof.
  intros Hready Hkeys Hfuel Hlongest Hst.
  destruct (execute_runs_groups fuel input_data st Hready Hkeys Hfuel
              Hlongest Hst) as (groups & outs & st' & _ & _ & _ & Hrun & Hst').
  by eexists _, st'.
Qed.

(** X10. Under the conditions of X7 and with a validator that accepts
    every record, [execute] returns exactly one record for each group, in
    the order in which the groups complete: with [order] the groups in the
    order in which [as_completed] yields their tasks, the values the
    results hold under the reduce key are the keys of [order], one after
    the other. *)
Theorem accepted_answers_give_one_record_per_group
    (fuel : nat) (input_data : list (gmap string Value)) (st : State) :
  (∀ r, validate_output config r = true) →
  terminating config →
  Forall (λ r, is_Some (r !! reduce_key config)) input_data →
  length input_data ≤ fuel → length input_data ≤ longest →
  I st →
  ∃ groups order results total_cost st',
    grouping val_lt config input_data st = (Ok groups, st)
    ∧ order ≡ₚ groups
    ∧ as_completed _ (length (calls st))
        ((λ kg, process_group config fuel kg.1 kg.2) <$> groups)
      = (λ kg, process_group config fuel kg.1 kg.2) <$> order
    ∧ execute val_lt config fuel input_data st
      = (Ok (results, total_cost), st')
    ∧ length results = length groups
    ∧ (λ r : gmap string Value, r !! reduce_key config) <$> results
      = Some <$> order.*1.
Proof.
  intros Hvalid Hready Hkeys Hfuel Hlongest Hst.
  destruct (execute_runs_groups fuel input_data st Hready Hkeys Hfuel
              Hlongest Hst)
    as (groups & outs & st' & Hgrouping & Hgroups & Hgather & Hrun & _).
  rewrite collect_spec in Hrun.
  destruct (completion_order config fuel groups (length (calls st)))
    as (order & Hperm & Horder).
  eexists groups, order, (omap fst outs), _, st'.
  split; [done|]. split; [done|]. split; [done|]. split; [exact Hrun|].
  unfold gather in Hgather. rewrite Horder in Hgather.
  assert (Forall2 (λ kg out, ∃ r, out.1 = Some r
                             ∧ r !! reduce_key config = Some kg.1)
            order outs) as Houts.
  { eapply sequence_Forall2_fmap; [|exact Hgather].
    intros [k g] st0 [o c] st1 Hin Hgroup. simpl.
    assert (g ≠ []) as Hne.
    { rewrite Forall_forall in Hgroups.
      destruct (Hgroups (k, g)) as [Hne _]; [by rewrite <- Hperm | done]. }
    pose proof Hgroup as Hsome.
    apply (accepted_process_group config Hvalid) in Hsome as [r ->]; [|done].
    exists r. split; [done|]. by eapply keyed_process_group. }
  assert ((λ r : gmap string Value, r !! reduce_key config)
            <$> omap fst outs = Some <$> order.*1) as Hkeyed.
  { clear -Houts. induction Houts as [|kg [o c] gs outs (r & Ho & Hr) _ IH];
      [done|].
    simpl in Ho. subst o. csimpl. by rewrite Hr, IH. }
  split; [|done].
  apply (f_equal length) in Hkeyed. rewrite !length_fmap in Hkeyed.
  by rewrite Hkeyed, Hperm.
Qed.

End Defined.

(** ** Binary64 arithmetic with a zero *)

Section Binary64Laws.
Import Floats.

Lemma binary_is_zero (x : PrimFloat.float) :
  PrimFloat.is_zero x = true ↔ ∃ s, Prim2SF x = S754_zero s.
Proof.
  unfold PrimFloat.is_zero. rewrite FloatAxioms.eqb_spec.
  change (Prim2SF PrimFloat.zero) with (S754_zero false).
  destruct (Prim2SF x) as [s|s| |s m e]; unfold SFeqb; simpl.
  - split; [eauto|done].
  - split; [by destruct s | by intros [? [=]]].
  - split; [done | by intros [? [=]]].
  - split; [by destruct s | by intros [? [=]]].
Qed.

Lemma binary_is_nan (x : PrimFloat.float) :
  PrimFloat.is_nan x = true ↔ Prim2SF x = S754_nan.
Proof.
  unfold PrimFloat.is_nan. rewrite FloatAxioms.eqb_spec.
  destruct (Prim2SF x) as [s|s| |s m e]; unfold SFeqb; simpl.
  - done.
  - by destruct s.
  - done.
  - rewrite Z.compare_refl, Pos.compare_cont_refl. by destruct s.
Qed.

(** IEEE 754: [x * 0] is a zero or, for an infinite or NaN [x], a NaN;
    [0 / y] is a zero or, for a zero or NaN [y], a NaN; [NaN / y] is a
    NaN; and [math.log(1)] is [0.0]. *)
Lemma binary64_zero_laws : zero_laws (H:=Binary64).
Proof.
  split; unfold zero_or_nan; simpl.
  - done.
  - intros x y. rewrite !binary_is_zero, binary_is_nan, FloatAxioms.mul_spec.
    intros [s ->]. unfold SF64mul.
    destruct (Prim2SF x); simpl; eauto.
  - intros x y.
    rewrite !binary_is_zero, !binary_is_nan, FloatAxioms.div_spec.
    unfold SF64div. intros [[s ->] | ->]; [|by right].
    destruct (Prim2SF y); simpl; eauto.
  - intros x. rewrite binary_is_zero. intros [s Hx].
    unfold Binary.trunc. by rewrite Hx.
Qed.

End Binary64Laws.

(** ** The configuration check *)

Section SyntaxCheckProperties.
#[local] Set Warnings "-clear-no-such-hyp".
Variable template_names : PyVal → option (list string).
Variable gleaning_check : gmap string PyVal → Verdict unit.

Lemma verdict_bind_inr {A B} (m : Verdict A) (f : A → Verdict B) b :
  m ≫= f = inr b ↔ ∃ a, m = inr a ∧ f a = inr b.
Proof.
  unfold mbind, Verdict_bind. destruct m as [e|a]; split.
  - done.
  - by intros (a & ? & _).
  - eauto.
  - by intros (a' & [= <-] & ?).
Qed.

Lemma unless_inr c e : unless c e = inr () ↔ c = true.
Proof. by destruct c. Qed.

Lemma has_true config k : has config k = true ↔ is_Some (config !! k).
Proof. unfold has. by rewrite bool_decide_eq_true. Qed.

Lemma config_getitem_inr config k v :
  config_getitem config k = inr v ↔ config !! k = Some v.
Proof.
  unfold config_getitem. destruct (config !! k); split; congruence.
Qed.

Lemma is_dict_true v : is_dict v = true ↔ ∃ d, v = PyDict d.
Proof.
  destruct v; simpl; split; try done; try (by intros [? ?]). eauto.
Qed.

Lemma is_str_true v : is_str v = true ↔ ∃ s, v = PyStr s.
Proof.
  destruct v; simpl; split; try done; try (by intros [? ?]). eauto.
Qed.

Lemma positive_int_true v :
  is_int v && negb (int_le_0 v) = true ↔ positive_int v.
Proof.
  unfold positive_int. destruct v as [|b|n|x|s|l|d]; simpl; split;
    try done; try (by intros [(? & ? & ?)|?]).
  - destruct b; [by right|done].
  - intros [(? & ? & ?)|[= ->]]; done.
  - rewrite negb_true_iff, bool_decide_eq_false. intros Hn.
    left. exists n. split; [done|lia].
  - intros [(n' & [= <-] & Hn)|?]; [|done].
    rewrite negb_true_iff, bool_decide_eq_false. lia.
Qed.

Lemma forallb_names (names required : list string) :
  forallb (λ v, bool_decide (v ∈ names)) required = true
  ↔ Forall (λ v, v ∈ names) required.
Proof.
  induction required as [|v required IH]; simpl.
  - split; [constructor|done].
  - by rewrite andb_true_iff, Forall_cons, bool_decide_eq_true, IH.
Qed.

Lemma check_template_inr source required :
  check_template template_names source required = inr ()
  ↔ template_with template_names required source.
Proof.
  unfold check_template, template_with.
  destruct (template_names source) as [names|].
  - rewrite unless_inr, forallb_names. split; [eauto|].
    by intros (names' & [= <-] & Hall).
  - split; [done|]. by intros (names & ? & _).
Qed.

(** The value under [key] of a value that passed [key in] and was then
    indexed by [key]. *)
Lemma schema_of_inr container v :
  schema_of container = inr v
  ↔ ∃ d, container = PyDict d ∧ d !! "schema" = Some v.
Proof.
  unfold schema_of. destruct container as [|b|n|x|s|l|d]; simpl; split;
    try done; try (by intros (? & ? & ?)).
  - unfold mbind, Verdict_bind, unless. by case_bool_decide.
  - unfold mbind, Verdict_bind, unless. by destruct (existsb _ _).
  - unfold mbind, Verdict_bind, unless. case_bool_decide; [|done].
    simpl. destruct (d !! "schema") eqn:Hd; [|done].
    intros [= ->]. eauto.
  - intros (d' & [= <-] & Hd).
    unfold mbind, Verdict_bind, unless.
    rewrite bool_decide_true by (rewrite Hd; eauto). simpl. by rewrite Hd.
Qed.

Lemma check_output_inr config :
  check_output config = inr ()
  ↔ ∃ output schema,
      config !! "output" = Some (PyDict output)
      ∧ output !! "schema" = Some (PyDict schema) ∧ schema ≠ ∅.
Proof.
  unfold check_output. rewrite verdict_bind_inr. split.
  - intros (output & Hout%config_getitem_inr & Hrest).
    apply verdict_bind_inr in Hrest as (schema & Hschema & Hrest).
    apply schema_of_inr in Hschema as (d & -> & Hd).
    apply verdict_bind_inr in Hrest as ([] & Hdict & Htruthy).
    apply unless_inr, is_dict_true in Hdict as [sd ->].
    apply unless_inr in Htruthy. simpl in Htruthy.
    apply negb_true_iff, bool_decide_eq_false in Htruthy.
    by exists d, sd.
  - intros (output & schema & Hout & Hschema & Hne).
    exists (PyDict output). split; [by apply config_getitem_inr|].
    apply verdict_bind_inr. exists (PyDict schema).
    split; [apply schema_of_inr; eauto|].
    simpl. by rewrite bool_decide_false.
Qed.

Lemma check_required_inr config keys :
  check_required config keys = inr ()
  ↔ Forall (λ k, is_Some (config !! k)) keys.
Proof.
  induction keys as [|k keys IH]; simpl.
  - split; [constructor|done].
  - rewrite verdict_bind_inr, Forall_cons, <- IH, <- has_true. split.
    + by intros ([] & Hk%unless_inr & Hrest).
    + intros [Hk Hrest]. exists (). by rewrite unless_inr.
Qed.

Lemma check_prompt_inr config :
  check_prompt template_names config = inr ()
  ↔ ∃ p, config !! "prompt" = Some p
         ∧ template_with template_names ["values"] p.
Proof.
  unfold check_prompt. rewrite verdict_bind_inr.
  by setoid_rewrite config_getitem_inr; setoid_rewrite check_template_inr.
Qed.

Lemma when_has_inr config k (body : Verdict unit) :
  (if has config k then body else accept) = inr ()
  ↔ (is_Some (config !! k) → body = inr ()).
Proof.
  destruct (has config k) eqn:Hk.
  - apply has_true in Hk. naive_solver.
  - split; [|done]. intros _ Hk'%has_true. congruence.
Qed.

Lemma step_inr (m body : Verdict unit) :
  (_ ← m; body) = inr () ↔ m = inr () ∧ body = inr ().
Proof.
  rewrite verdict_bind_inr. split; [by intros ([] & ? & ?)|].
  intros [? ?]. by exists ().
Qed.

Lemma read_inr config k (body : PyVal → Verdict unit) :
  (v ← config_getitem config k; body v) = inr ()
  ↔ ∃ v, config !! k = Some v ∧ body v = inr ().
Proof.
  rewrite verdict_bind_inr. by setoid_rewrite config_getitem_inr.
Qed.

Lemma check_fold_inr config :
  check_fold template_names config = inr ()
  ↔ (is_Some (config !! "merge_prompt") → is_Some (config !! "fold_prompt"))
    ∧ (∀ p, config !! "fold_prompt" = Some p →
            is_Some (config !! "fold_batch_size")
            ∧ template_with template_names ["values"; "output"] p).
Proof.
  unfold check_fold.
  rewrite step_inr, !when_has_inr, step_inr, read_inr, !unless_inr, !has_true.
  setoid_rewrite check_template_inr. unfold is_Some. naive_solver.
Qed.

Lemma check_merge_inr config :
  check_merge template_names config = inr ()
  ↔ ∀ p, config !! "merge_prompt" = Some p →
         is_Some (config !! "merge_batch_size")
         ∧ template_with template_names ["outputs"] p.
Proof.
  unfold check_merge.
  rewrite when_has_inr, step_inr, read_inr, unless_inr, has_true.
  setoid_rewrite check_template_inr. unfold is_Some. naive_solver.
Qed.

Lemma check_model_and_key_inr config :
  check_model_and_key config = inr ()
  ↔ (∀ v, config !! "model" = Some v → ∃ s, v = PyStr s)
    ∧ ∃ s, config !! "reduce_key" = Some (PyStr s).
Proof.
  unfold check_model_and_key.
  rewrite step_inr, when_has_inr, !read_inr.
  setoid_rewrite unless_inr. setoid_rewrite is_str_true.
  unfold is_Some. naive_solver.
Qed.

Lemma check_input_inr config :
  check_input config = inr ()
  ↔ ∀ v, config !! "input" = Some v →
         ∃ input schema, v = PyDict input
                         ∧ input !! "schema" = Some (PyDict schema).
Proof.
  unfold check_input. rewrite when_has_inr, read_inr.
  setoid_rewrite verdict_bind_inr. setoid_rewrite schema_of_inr.
  setoid_rewrite unless_inr. setoid_rewrite is_dict_true.
  unfold is_Some. naive_solver.
Qed.

Lemma check_sizes_inr config keys :
  check_sizes config keys = inr ()
  ↔ ∀ k v, k ∈ keys → config !! k = Some v → positive_int v.
Proof.
  induction keys as [|k keys IH]; simpl.
  - split; [|done]. intros _ k v Hk. by apply elem_of_nil in Hk.
  - rewrite step_inr, when_has_inr, read_inr, IH.
    setoid_rewrite unless_inr. setoid_rewrite positive_int_true.
    setoid_rewrite elem_of_cons. unfold is_Some. naive_solver.
Qed.

Lemma syntax_check_inr (config : gmap string PyVal) :
  syntax_check template_names gleaning_check config = inr ()
  ↔ Forall (λ k, is_Some (config !! k)) ["reduce_key"; "prompt"; "output"]
    ∧ (∃ output schema,
         config !! "output" = Some (PyDict output)
         ∧ output !! "schema" = Some (PyDict schema) ∧ schema ≠ ∅)
    ∧ (∃ p, config !! "prompt" = Some p
            ∧ template_with template_names ["values"] p)
    ∧ ((is_Some (config !! "merge_prompt") →
        is_Some (config !! "fold_prompt"))
       ∧ (∀ p, config !! "fold_prompt" = Some p →
               is_Some (config !! "fold_batch_size")
               ∧ template_with template_names ["values"; "output"] p))
    ∧ (∀ p, config !! "merge_prompt" = Some p →
            is_Some (config !! "merge_batch_size")
            ∧ template_with template_names ["outputs"] p)
    ∧ ((∀ v, config !! "model" = Some v → ∃ s, v = PyStr s)
       ∧ ∃ s, config !! "reduce_key" = Some (PyStr s))
    ∧ (∀ v, config !! "input" = Some v →
            ∃ input schema, v = PyDict input
                            ∧ input !! "schema" = Some (PyDict schema))
    ∧ (∀ k v, k ∈ ["fold_batch_size"; "merge_batch_size"] →
              config !! k = Some v → positive_int v)
    ∧ gleaning_check config = inr ().
Proof.
  unfold syntax_check.
  by rewrite !step_inr, check_required_inr, check_output_inr,
    check_prompt_inr, check_fold_inr, check_merge_inr,
    check_model_and_key_inr, check_input_inr, check_sizes_inr.
Qed.

(** X13. [syntax_check] accepts a configuration exactly when it has this
    shape and [gleaning_check] accepts it: a string under [reduce_key]; a
    dictionary under [output] whose [schema] is a dictionary that is not
    empty; a prompt that is a template with the variable [values]; with a
    fold prompt, a template with [values] and [output] and a
    [fold_batch_size]; with a merge prompt, a template with [outputs], a
    fold prompt and a [merge_batch_size]; a string under [model] and a
    dictionary with a dictionary [schema] under [input], where present;
    and batch sizes, where present, that are positive integers or [True].
    Nothing more is asked: a [merge_batch_size] of 1 is accepted. *)
Theorem syntax_check_accepts_exactly (config : gmap string PyVal) :
  syntax_check template_names gleaning_check config = inr ()
  ↔ accepted_shape template_names config ∧ gleaning_check config = inr ().
Proof.
  rewrite syntax_check_inr, !Forall_cons. split.
  - intros ((Hkey & Hprompt & Hout & _) & Houtput & Hp & [Hmf Hfold] & Hmerge
            & [Hmodel Hrk] & Hinput & Hsizes & Hgleaning).
    split; [|done]. split; try done.
    + intros p Hfp. destruct (Hfold p Hfp) as [[size Hsize] Htemplate].
      split; [done|]. exists size. split; [done|].
      eapply Hsizes; [|exact Hsize]. set_solver.
    + intros p Hmp. destruct (Hmerge p Hmp) as [[size Hsize] Htemplate].
      split; [done|]. split; [apply Hmf; eauto|].
      exists size. split; [done|].
      eapply Hsizes; [|exact Hsize]. set_solver.
  - intros [[Hrk Houtput Hp Hfold Hmerge Hmodel Hinput Hsizes] Hgleaning].
    destruct Hrk as [s Hrk], Houtput as (output & schema & Hout & Hschema),
      Hp as (p & Hp & Htemplate).
    split; [by rewrite Hrk, Hp, Hout; eauto|].
    split; [eauto|]. split; [eauto|]. split; [split|].
    + intros [p' Hmp]. by destruct (Hmerge p' Hmp) as (_ & ? & _).
    + intros p' Hfp. destruct (Hfold p' Hfp) as (? & size & ? & _). eauto.
    + split.
      { intros p' Hmp. destruct (Hmerge p' Hmp) as (? & _ & size & ? & _).
        eauto. }
      split; [eauto|]. done.
Qed.

Lemma verdict_bind_inl {A B} (m : Verdict A) (f : A → Verdict B) e :
  m ≫= f = inl e ↔ m = inl e ∨ ∃ a, m = inr a ∧ f a = inl e.
Proof.
  unfold mbind, Verdict_bind. destruct m as [e'|a]; naive_solver.
Qed.

Lemma unless_inl c e e' : unless c e = inl e' → e' = e.
Proof. destruct c; [done|]. by intros [= <-]. Qed.

Lemma read_inl config k (body : PyVal → Verdict unit) e :
  is_Some (config !! k) →
  (v ← config_getitem config k; body v) = inl e →
  ∃ v, config !! k = Some v ∧ body v = inl e.
Proof.
  intros [v Hv]. unfold config_getitem. rewrite Hv. simpl. eauto.
Qed.

Lemma when_has_inl config k (body : Verdict unit) e :
  (if has config k then body else accept) = inl e →
  is_Some (config !! k) ∧ body = inl e.
Proof. destruct (has config k) eqn:Hk; [|done]. by apply has_true in Hk. Qed.

Lemma check_template_inl source required e :
  check_template template_names source required = inl e →
  e = ConfigValueError.
Proof.
  unfold check_template. destruct (template_names source).
  - apply unless_inl.
  - by intros [= <-].
Qed.

Lemma schema_of_inl container e :
  schema_of container = inl e → e = ConfigValueError ∨ e = ConfigTypeError.
Proof.
  unfold schema_of.
  intros [H|(has_schema & Hin & [H|([] & Hhas & H)]%verdict_bind_inl)]
    %verdict_bind_inl.
  - destruct container; simplify_eq/=; auto.
  - apply unless_inl in H. auto.
  - apply unless_inr in Hhas. subst has_schema.
    destruct container as [| | | | |l|d]; simplify_eq/=; auto.
    apply bool_decide_eq_true in Hin as [v Hv]. by rewrite Hv in H.
Qed.

Lemma check_required_inl config keys e :
  check_required config keys = inl e → e = ConfigValueError.
Proof.
  induction keys as [|k keys IH]; simpl; [done|].
  intros [H|([] & _ & H)]%verdict_bind_inl; [|by apply IH].
  by apply unless_inl in H.
Qed.

Lemma check_output_inl config e :
  is_Some (config !! "output") →
  check_output config = inl e → e = ConfigValueError ∨ e = ConfigTypeError.
Proof.
  unfold check_output. intros Hk (output & _ & H)%read_inl; [|done].
  apply verdict_bind_inl in H as [H|(schema & _ & H)];
    [by apply schema_of_inl in H|].
  apply verdict_bind_inl in H as [H|([] & _ & H)];
    apply unless_inl in H; auto.
Qed.

Lemma check_prompt_inl config e :
  is_Some (config !! "prompt") →
  check_prompt template_names config = inl e → e = ConfigValueError.
Proof.
  unfold check_prompt. intros Hk (p & _ & H)%read_inl; [|done].
  by apply check_template_inl in H.
Qed.

Lemma check_fold_inl config e :
  check_fold template_names config = inl e → e = ConfigValueError.
Proof.
  unfold check_fold. intros [H|([] & _ & H)]%verdict_bind_inl.
  - apply when_has_inl in H as [_ H]. by apply unless_inl in H.
  - apply when_has_inl in H as [Hk H].
    apply verdict_bind_inl in H as [H|([] & _ & H)];
      [by apply unless_inl in H|].
    apply read_inl in H as (p & _ & H); [|done].
    by apply check_template_inl in H.
Qed.

Lemma check_merge_inl config e :
  check_merge template_names config = inl e → e = ConfigValueError.
Proof.
  unfold check_merge. intros [Hk H]%when_has_inl.
  apply verdict_bind_inl in H as [H|([] & _ & H)];
    [by apply unless_inl in H|].
  apply read_inl in H as (p & _ & H); [|done].
  by apply check_template_inl in H.
Qed.

Lemma check_model_and_key_inl config e :
  is_Some (config !! "reduce_key") →
  check_model_and_key config = inl e → e = ConfigTypeError.
Proof.
  unfold check_model_and_key.
  intros Hrk [H|([] & _ & H)]%verdict_bind_inl.
  - apply when_has_inl in H as [Hk H].
    apply read_inl in H as (v & _ & H); [|done]. by apply unless_inl in H.
  - apply read_inl in H as (v & _ & H); [|done]. by apply unless_inl in H.
Qed.

Lemma check_input_inl config e :
  check_input config = inl e → e = ConfigValueError ∨ e = ConfigTypeError.
Proof.
  unfold check_input. intros [Hk H]%when_has_inl.
  apply read_inl in H as (input & _ & H); [|done].
  apply verdict_bind_inl in H as [H|(schema & _ & H)];
    [by apply schema_of_inl in H|].
  apply unless_inl in H. auto.
Qed.

Lemma check_sizes_inl config keys e :
  check_sizes config keys = inl e → e = ConfigValueError.
Proof.
  induction keys as [|k keys IH]; simpl; [done|].
  intros [H|([] & _ & H)]%verdict_bind_inl; [|by apply IH].
  apply when_has_inl in H as [Hk H].
  apply read_inl in H as (v & _ & H); [|done]. by apply unless_inl in H.
Qed.

(** X14. Of its own, [syntax_check] raises [ValueError] or [TypeError] and
    nothing else: every key it reads was tested before, so no [KeyError]
    escapes, and whatever the template engine raises comes out as a
    [ValueError].  Any other exception is one [gleaning_check] raised. *)
Theorem syntax_check_raises_value_or_type_error
    (config : gmap string PyVal) (e : config_error) :
  syntax_check template_names gleaning_check config = inl e →
  e = ConfigValueError ∨ e = ConfigTypeError
  ∨ gleaning_check config = inl e.
Proof.
  unfold syntax_check.
  intros [H|([] & Hkeys & H)]%verdict_bind_inl;
    [apply check_required_inl in H; auto|].
  apply check_required_inr in Hkeys.
  apply Forall_cons in Hkeys as [Hrk Hkeys].
  apply Forall_cons in Hkeys as [Hp Hkeys].
  apply Forall_cons in Hkeys as [Hout _].
  apply verdict_bind_inl in H as [H|([] & _ & H)];
    [apply check_output_inl in H; tauto|].
  apply verdict_bind_inl in H as [H|([] & _ & H)];
    [apply check_prompt_inl in H; auto|].
  apply verdict_bind_inl in H as [H|([] & _ & H)];
    [apply check_fold_inl in H; auto|].
  apply verdict_bind_inl in H as [H|([] & _ & H)];
    [apply check_merge_inl in H; auto|].
  apply verdict_bind_inl in H as [H|([] & _ & H)];
    [apply check_model_and_key_inl in H; auto|].
  apply verdict_bind_inl in H as [H|([] & _ & H)];
    [apply check_input_inl in H; tauto|].
  apply verdict_bind_inl in H as [H|([] & _ & H)];
    [apply check_sizes_inl in H; auto|].
  auto.
Qed.

End SyntaxCheckProperties.

Section Checked.
Context `{PyFloat}.
Variable template_names : PyVal → option (list string).
Variable gleaning_check : gmap string PyVal → Verdict unit.

Lemma positive_int_value v n :
  positive_int v → int_value v = Some (Z.of_nat n) → 0 < n.
Proof.
  intros [(z & -> & Hz) | ->]; simpl; intros [= Hn]; lia.
Qed.

(** X15. A configuration that [syntax_check] accepts is well formed for
    [execute]: where the record of the configuration has a merge prompt
    it has a fold prompt and a positive [merge_batch_size], and where it
    has a fold prompt it has a positive [fold_batch_size]. *)
Theorem accepted_config_is_well_formed
    (raw : gmap string PyVal) (config : Config) :
  syntax_check template_names gleaning_check raw = inr () →
  reads config raw →
  well_formed config.
Proof.
  intros Hcheck (Hfp & Hmp & Hfbs & Hmbs).
  apply syntax_check_inr in Hcheck
    as (_ & _ & _ & [Hmf Hfold] & Hmerge & _ & _ & Hsizes & _).
  split.
  - intros Hmerge_prompt. apply Hmp in Hmerge_prompt as Hraw.
    split; [by apply Hfp, Hmf|].
    destruct Hraw as [p Hp].
    destruct (Hmerge p Hp) as [[size Hsize] _].
    eapply positive_int_value; [|by apply Hmbs].
    eapply Hsizes; [|exact Hsize]. repeat constructor.
  - intros Hfold_prompt. apply Hfp in Hfold_prompt as [p Hp].
    destruct (Hfold p Hp) as [[size Hsize] _].
    eapply positive_int_value; [|by apply Hfbs].
    eapply Hsizes; [|exact Hsize]. repeat constructor.
Qed.

End Checked.

(** * Worked instances *)

Import Stub.

#[local] Existing Instance fifo_scheduler.

(** Closed equations between values that compute are checked by
    evaluation of both sides. *)
Ltac by_evaluation :=
  lazymatch goal with
  | |- @eq ?A _ ?r => vm_cast_no_check (@eq_refl A r)
  end.

Lemma run_eta {A B} (run : A * B) (a : A) : run.1 = a → run = (a, run.2).
Proof. destruct run as [a' b]. simpl. by intros ->. Qed.

Lemma Z_ltb_strict_total_order : strict_total_order Z.ltb.
Proof.
  split; [|split].
  - intros a. apply Z.ltb_irrefl.
  - intros a b c Hab Hbc. apply Z.ltb_lt in Hab, Hbc. apply Z.ltb_lt. lia.
  - intros a b Hne. rewrite !Z.ltb_lt. lia.
Qed.

Lemma stub_merge_yields (k : nat) (key : Z) (outputs : list (gmap string Z)) :
  yields_record
    (_merge_results (H0:=service accept_all) (merge_config k) key outputs).
Proof.
  intros st. eexists _, _, _.
  unfold _merge_results, llm, mbind, M_bind, bind, tick, log_call,
    _update_merge_time, ret.
  reflexivity.
Qed.

(** *** Telemetry *)

Lemma update_time_window_witness :
  windows_bounded (start accept_all)
  ∧ windows_bounded (_update_fold_time (float_of_int 1) (start accept_all)).2
  ∧ fold_times (_update_fold_time (float_of_int 1) (start accept_all)).2
    = [float_of_int 1].
Proof.
  assert (windows_bounded (start accept_all)) as Hinit
    by (split; simpl; unfold max_samples; lia).
  split; [exact Hinit|].
  destruct (update_time_window (start accept_all) (float_of_int 1) Hinit)
    as ((Hfold & _) & _ & _ & Hwindow & _).
  split; [exact Hfold | exact Hwindow].
Defined.

(** A configured [fold_time] wins over a window of six samples; without
    it the mean of the six samples is returned, and with four samples the
    placeholder. *)
Example time_estimate_cases :
  let samples n :=
    {| fold_times := replicate n (@float_of_int Binary64 2);
       merge_times := [];
       calls := @nil (Call (H0:=service accept_all)) |} in
  (get_fold_time
     (@make_config Binary64 None None 3 2 ∅ false
        (Some (float_of_int 5), None))
     (samples 6)).1 = Ok (float_of_int 5, false)
  ∧ (get_fold_time batch_config (samples 6)).1 = Ok (float_of_int 2, false)
  ∧ (get_fold_time batch_config (samples 4)).1 = Ok (float_of_int 1, true).
Proof. repeat split; by_evaluation. Qed.

(** A full window loses its first sample to the new one. *)
Example full_window_evicts_oldest :
  deque_append 3 [1; 2; 3] 4 = [2; 3; 4]
  ∧ deque_append 3 [1; 2] 3 = [1; 2; 3]
  ∧ length (deque_append max_samples (replicate 1000 0) 1) = 1000
  ∧ last (deque_append max_samples (replicate 1000 0) 1) = Some 1.
Proof. repeat split; by_evaluation. Qed.

(** *** Lane estimate *)

(** Fixed times of 2 and 1 seconds and seven records: [int(2.0 * 7 *
    log(2) / (1 * 1.0))], 9 lanes.  A merge time of zero: the division
    raises.  A fold time of [1e308] and a hundred records: the product is
    an infinity and [int] raises [OverflowError]; with merge batches of
    one, it is multiplied by [log(1) = 0.0] to a NaN, and [int] raises
    [ValueError]. *)
Lemma estimate_never_below_one_witness :
  calculate_num_parallel_folds clocked_config seven (start accept_all)
  = (Ok (9%Z, false), start accept_all)
  ∧ (1 ≤ 9)%Z
  ∧ calculate_num_parallel_folds stalled_config seven (start accept_all)
    = (Raise (ZeroDivisionError "float division by zero"), start accept_all)
  ∧ calculate_num_parallel_folds huge_config hundred (start accept_all)
    = (Raise (OverflowError "cannot convert float infinity to integer"),
       start accept_all)
  ∧ calculate_num_parallel_folds huge_unit_config hundred (start accept_all)
    = (Raise (ValueError "cannot convert float NaN to integer"),
       start accept_all).
Proof.
  destruct (estimate_never_below_one clocked_config (start accept_all) seven
              (float_of_int 2) (float_of_int 1) false false
              eq_refl eq_refl ltac:(simpl; lia)
              ltac:(by_evaluation) ltac:(by_evaluation))
    as (_ & _ & _ & Hreturns & Hone).
  destruct (estimate_never_below_one stalled_config (start accept_all) seven
              (float_of_int 2) (float_of_int 0) false false
              eq_refl eq_refl ltac:(simpl; lia)
              ltac:(by_evaluation) ltac:(by_evaluation))
    as (Hzero & _).
  destruct (estimate_never_below_one huge_config (start accept_all) hundred
              Binary.huge (float_of_int 1) false false
              eq_refl eq_refl ltac:(simpl; lia)
              ltac:(by_evaluation) ltac:(by_evaluation))
    as (_ & Hinf & _).
  destruct (estimate_never_below_one huge_unit_config (start accept_all)
              hundred Binary.huge (float_of_int 1) false false
              eq_refl eq_refl ltac:(simpl; lia)
              ltac:(by_evaluation) ltac:(by_evaluation))
    as (_ & _ & Hnan & _).
  specialize (Hreturns ltac:(by_evaluation) ltac:(by_evaluation)
                ltac:(by_evaluation)).
  assert (calculate_num_parallel_folds clocked_config seven
            (start accept_all)
          = (Ok (9%Z, false), start accept_all)) as Hnine
    by (etrans; [exact Hreturns | by_evaluation]).
  split; [exact Hnine|].
  split; [exact (Hone _ _ _ Hnine)|].
  split; [exact (Hzero ltac:(by_evaluation))|].
  split; [exact (Hinf ltac:(by_evaluation) ltac:(by_evaluation))|].
  exact (Hnan ltac:(by_evaluation) ltac:(by_evaluation) ltac:(by_evaluation)).
Defined.

(** With positive times and sizes the estimate does not always return: at
    a fold time of [1e308], a merge time of one second, a hundred records
    and batch sizes 1 and 2, it raises [OverflowError]. *)
Lemma lane_estimate_overflows :
  PrimFloat.ltb PrimFloat.zero Binary.huge = true
  ∧ PrimFloat.is_infinity Binary.huge = false
  ∧ fold_time huge_config = Some Binary.huge
  ∧ merge_time huge_config = Some (float_of_int 1)
  ∧ 0 < length hundred
  ∧ 0 < fold_batch_size huge_config
  ∧ 0 < merge_batch_size huge_config
  ∧ calculate_num_parallel_folds huge_config hundred (start accept_all)
    = (Raise (OverflowError "cannot convert float infinity to integer"),
       start accept_all).
Proof.
  split; [by_evaluation|]. split; [by_evaluation|].
  split; [reflexivity|]. split; [reflexivity|].
  split; [simpl; lia|]. split; [simpl; lia|]. split; [simpl; lia|].
  by_evaluation.
Qed.

(** The estimate is rounded as floats are.  The fold time
    [2.8853900817779268] is [6497320848556798 * 2 ^ -51] and [log(2)] is
    [6243314768165359 * 2 ^ -53]; their product is below 2 and rounds to
    [2.0], so that one record gets two lanes. *)
Example lane_estimate_rounds_in_floats :
  FloatOps.Prim2SF Binary.steep
  = SpecFloat.S754_finite false 6497320848556798 (-51)
  ∧ FloatOps.Prim2SF Binary.ln2
    = SpecFloat.S754_finite false 6243314768165359 (-53)
  ∧ (6497320848556798 * 6243314768165359 < 2 * 2 ^ (51 + 53))%Z
  ∧ (calculate_num_parallel_folds steep_config [item 1 1]
       (start accept_all)).1
    = Ok (2%Z, false).
Proof. repeat split; by_evaluation. Qed.

(** Seven records with the placeholder times of one second: [int(7 *
    log(2))], 4 lanes; with merge batches of one, one lane. *)
Example lane_estimate_of_seven :
  (calculate_num_parallel_folds (merge_config 2) seven (start accept_all)).1
  = Ok (4%Z, true)
  ∧ (calculate_num_parallel_folds (merge_config 1) seven
       (start accept_all)).1
    = Ok (1%Z, true).
Proof. split; by_evaluation. Qed.

(** *** Grouping *)

Lemma grouping_partitions_by_key_witness :
  ∃ groups,
    grouping Z.ltb batch_config mixed (start accept_all)
    = (Ok groups, start accept_all)
    ∧ concat groups.*2 ≡ₚ mixed
    ∧ StronglySorted (λ a b, Z.ltb a b = true) groups.*1.
Proof.
  destruct (grouping_partitions_by_key Z.ltb batch_config mixed
              (start accept_all) Z_ltb_strict_total_order)
    as (groups & Hrun & Hperm & _ & Hsorted & _).
  { repeat (constructor; [by eexists|]). constructor. }
  exists groups. split; [exact Hrun|]. split; [exact Hperm | exact Hsorted].
Defined.

(** The groups in full: ascending keys, and the records of a group in the
    order of the input. *)
Example grouping_of_mixed :
  (grouping Z.ltb batch_config mixed (start accept_all)).1
  = Ok [(1%Z, [item 1 2; item 1 4; item 1 5]); (2%Z, [item 2 1; item 2 3])].
Proof. by_evaluation. Qed.

Lemma execute_requires_reduce_key_witness :
  execute Z.ltb batch_config 10 gapped (start accept_all)
  = (Raise (KeyError "g"), start accept_all).
Proof.
  apply (execute_requires_reduce_key Z.ltb batch_config 10 gapped
           (start accept_all)).
  do 2 apply Exists_cons_tl. apply Exists_cons_hd. by_evaluation.
Defined.

(** *** Incremental reduce *)

(** Seven records in batches of three.  With a validator that accepts
    every record the three folds succeed and the last accumulator is the
    result.  With one that rejects the number 6 the first fold returns the
    record with 3 and the second [None]: the reduction returns [None] with
    the cost of the two calls, in the state right after the second fold,
    and the group yields [None]. *)
Lemma incremental_reduce_aborts_witness :
  let first := take 3 seven in
  let second := take 3 (drop 3 seven) in
  let st1 :=
    (_increment_fold incremental_config 1%Z first None
       (start (reject 6))).2 in
  let st2 :=
    (_increment_fold incremental_config 1%Z second (Some (acc 3)) st1).2 in
  length <$> chunks 3 seven = [3; 3; 1]
  ∧ (_incremental_reduce incremental_config 1%Z seven (start accept_all)).1
    = Ok (Some (acc 7), Q2Qc 3)
  ∧ _increment_fold incremental_config 1%Z second (Some (acc 3)) st1
    = (Ok (None, Q2Qc 1), st2)
  ∧ _incremental_reduce incremental_config 1%Z seven (start (reject 6))
    = (Ok (None, Q2Qc 2), st2)
  ∧ process_group incremental_config 0 1%Z seven (start (reject 6))
    = (Ok (None, Q2Qc 2), st2).
Proof.
  intros first second st1 st2.
  destruct (incremental_reduce_aborts (ModelService0:=service accept_all)
              incremental_config 0 1%Z seven ltac:(simpl; lia))
    as (_ & _ & _ & Hall & _).
  destruct (incremental_reduce_aborts (ModelService0:=service (reject 6))
              incremental_config 0 1%Z seven ltac:(simpl; lia))
    as (_ & _ & _ & _ & Habort & Hgroup).
  assert (chunks 3 seven = [first; second; drop 6 seven]) as Hchunks
    by by_evaluation.
  assert (_increment_fold incremental_config 1%Z second (Some (acc 3)) st1
          = (Ok (None, Q2Qc 1), st2)) as Hsecond
    by (apply run_eta; by_evaluation).
  assert (_incremental_reduce incremental_config 1%Z seven (start (reject 6))
          = (Ok (None, Q2Qc 2), st2)) as Hrun.
  { replace (Q2Qc 2) with (0 + Q2Qc 1 + Q2Qc 1)%Qc by by_evaluation.
    apply (Habort [first] second [drop 6 seven] (start (reject 6))
             (Some (acc 3)) (0 + Q2Qc 1)%Qc st1 (Q2Qc 1) st2).
    - exact Hchunks.
    - eapply folds_ok_cons; [|apply folds_ok_nil].
      apply run_eta. by_evaluation.
    - exact Hsecond. }
  split; [by_evaluation|]. split; [|split; [exact Hsecond|split; [exact Hrun|]]].
  - set (sta := (_increment_fold incremental_config 1%Z first None
                   (start accept_all)).2).
    set (stb := (_increment_fold incremental_config 1%Z second
                   (Some (acc 3)) sta).2).
    set (stc := (_increment_fold incremental_config 1%Z (drop 6 seven)
                   (Some (acc 6)) stb).2).
    rewrite (Hall (start accept_all) (Some (acc 7))
               (0 + Q2Qc 1 + Q2Qc 1 + Q2Qc 1)%Qc stc).
    + by_evaluation.
    + change (fold_batch_size incremental_config) with 3. rewrite Hchunks.
      eapply folds_ok_cons; [apply run_eta; by_evaluation|].
      eapply folds_ok_cons; [apply run_eta; by_evaluation|].
      eapply folds_ok_cons; [apply run_eta; by_evaluation|].
      apply folds_ok_nil.
  - apply (Hgroup seven (start (reject 6)) (Q2Qc 2) st2);
      [reflexivity | by eexists | by_evaluation | exact Hrun].
Defined.

(** Seven records in batches of three: three calls, on 3, 3 and 1 records,
    the second and the third being folds, and one record for the group. *)
Example incremental_reduce_of_seven :
  length <$> chunks 3 seven = [3; 3; 1]
  ∧ (_incremental_reduce incremental_config 1%Z seven (start accept_all)).1
    = Ok (Some (acc 7), Q2Qc 3)
  ∧ call_size
      <$> calls (_incremental_reduce incremental_config 1%Z seven
                   (start accept_all)).2
    = [3; 3; 1]
  ∧ length (fold_times (_incremental_reduce incremental_config 1%Z seven
                          (start accept_all)).2) = 2.
Proof. repeat split; by_evaluation. Qed.

(** When the second fold fails validation, the third batch is never
    folded: two calls, their cost, and no record. *)
Example incremental_reduce_abort_at_second :
  (_incremental_reduce incremental_config 1%Z seven (start (reject 6))).1
  = Ok (None, Q2Qc 2)
  ∧ call_size
      <$> calls (_incremental_reduce incremental_config 1%Z seven
                   (start (reject 6))).2
    = [3; 3]
  ∧ (execute Z.ltb incremental_config 10 seven (start (reject 6))).1
    = Ok ([], Q2Qc 2).
Proof. repeat split; by_evaluation. Qed.

(** *** Parallel fold and merge *)

(** Two lanes whose tasks complete in the reverse order: position 0 gets
    the result of lane 1 and position 1 the result of lane 0. *)
Example fold_phase_reverse_completion :
  (fold_phase (H1:=lifo_scheduler) (merge_config 2) 1%Z 2%Z
     [item 1 1; item 1 2] [acc 10; acc 20] 0%Qc (start accept_all)).1
  = Ok ([], [acc 21; acc 11], Q2Qc 2)
  ∧ (fold_phase (H1:=fifo_scheduler) (merge_config 2) 1%Z 2%Z
       [item 1 1; item 1 2] [acc 10; acc 20] 0%Qc (start accept_all)).1
    = Ok ([], [acc 11; acc 21], Q2Qc 2).
Proof. split; by_evaluation. Qed.

(** A lane whose result fails validation drops out of the completed
    results: one result is left, so only position 0 is overwritten and
    position 1 keeps its accumulator. *)
Example fold_phase_absent_result :
  (fold_phase (merge_config 2) 1%Z 2%Z
     [item 1 1; item 1 2] [acc 10; acc 20] 0%Qc (start (reject 11))).1
  = Ok ([], [acc 21; acc 20], Q2Qc 2).
Proof. by_evaluation. Qed.

(** Five accumulators in chunks of two take three rounds.  With merge
    batches of one the lane estimate of seven records is one lane, and the
    folding loop hands a single accumulator to the final merge, which does
    not run a round. *)
Lemma final_merge_rounds_witness :
  (∃ rounds result total_cost' st',
     5 ≤ 2 ^ rounds
     ∧ (rounds = 0 ∨ 2 ^ (rounds - 1) < 5)
     ∧ (∀ fuel, rounds ≤ fuel →
          final_merge (merge_config 2) fuel 1%Z (acc <$> [1; 2; 3; 4; 5]%Z)
            0%Qc (start accept_all)
          = (Ok ([result], total_cost'), st'))
     ∧ (∀ fuel, fuel < rounds →
          (final_merge (merge_config 2) fuel 1%Z (acc <$> [1; 2; 3; 4; 5]%Z)
             0%Qc (start accept_all)).1 = Diverge))
  ∧ calculate_num_parallel_folds (merge_config 1) seven (start accept_all)
    = (Ok (1%Z, true), start accept_all)
  ∧ (fold_merge_loop (merge_config 1) 20 1%Z seven 1%Z true seven [] 0%Qc
       (start accept_all)).1
    = Ok ([acc 7], Q2Qc 12)
  ∧ length [acc 7] ≤ 1
  ∧ (∃ rounds result total_cost' st',
       1 ≤ 1 ^ rounds
       ∧ (rounds = 0 ∨ 1 ^ (rounds - 1) < 1)
       ∧ (∀ fuel, rounds ≤ fuel →
            final_merge (merge_config 1) fuel 1%Z [acc 7] (Q2Qc 12)
              (start accept_all)
            = (Ok ([result], total_cost'), st'))
       ∧ (∀ fuel, fuel < rounds →
            (final_merge (merge_config 1) fuel 1%Z [acc 7] (Q2Qc 12)
               (start accept_all)).1 = Diverge)).
Proof.
  destruct (final_merge_rounds (merge_config 2) 1%Z
              (acc <$> [1; 2; 3; 4; 5]%Z) 0%Qc (start accept_all)
              ltac:(simpl; lia) ltac:(simpl; lia)
              (stub_merge_yields 2 1%Z)) as (_ & Hrounds & _).
  destruct (final_merge_rounds (merge_config 1) 1%Z
              [acc 7] (Q2Qc 12) (start accept_all)
              ltac:(simpl; lia) ltac:(simpl; lia)
              (stub_merge_yields 1 1%Z)) as (_ & Hone & Hreach).
  assert (calculate_num_parallel_folds (merge_config 1) seven
            (start accept_all)
          = (Ok (1%Z, true), start accept_all)) as Hestimate by by_evaluation.
  assert ((fold_merge_loop (merge_config 1) 20 1%Z seven 1%Z true seven []
             0%Qc (start accept_all)).1
          = Ok ([acc 7], Q2Qc 12)) as Hloop by by_evaluation.
  split; [apply Hrounds; left; simpl; lia|].
  split; [exact Hestimate|]. split; [exact Hloop|].
  split; [|apply Hone; by right].
  eapply (Hreach eq_refl binary64_zero_laws 20 seven 1%Z true
            (start accept_all) (start accept_all) [acc 7] (Q2Qc 12));
    [exact Hestimate|].
  apply run_eta. exact Hloop.
Defined.

(** Five accumulators in chunks of two: merges of 2, 2 and 1, then of 2
    and 1, then of 2 accumulators, that is 5, 3, 2 and then 1 accumulator;
    three rounds suffice and two do not. *)
Example final_merge_of_five :
  (final_merge (merge_config 2) 3 1%Z (acc <$> [1; 2; 3; 4; 5]%Z)
     0%Qc (start accept_all)).1
  = Ok ([acc 15], Q2Qc 6)
  ∧ call_size
      <$> calls (final_merge (merge_config 2) 3 1%Z
                   (acc <$> [1; 2; 3; 4; 5]%Z) 0%Qc (start accept_all)).2
    = [2; 2; 1; 2; 1; 2]
  ∧ (final_merge (merge_config 2) 2 1%Z (acc <$> [1; 2; 3; 4; 5]%Z)
       0%Qc (start accept_all)).1 = Diverge.
Proof. repeat split; by_evaluation. Qed.

(** Merge batches of one: seven records are folded on one lane, each
    fold followed by a merge of the single accumulator while the merge
    window holds fewer than five samples; [execute] returns the one
    record, after twelve calls. *)
Example execute_with_unit_merge_batches :
  (execute Z.ltb (merge_config 1) 20 seven (start accept_all)).1
  = Ok ([acc 7], Q2Qc 12)
  ∧ call_op_type
      <$> calls (execute Z.ltb (merge_config 1) 20 seven
                   (start accept_all)).2
    = ["reduce"; "merge"; "reduce"; "merge"; "reduce"; "merge"; "reduce";
       "merge"; "reduce"; "merge"; "reduce"; "reduce"].
Proof. split; by_evaluation. Qed.

(** *** Pass-through *)

(** With an input schema that names [x] alone, the field [y] of the first
    input record is not copied, although pass-through is enabled, the
    strategy produced a record, and neither the output schema nor that
    record has [y]. *)
Lemma pass_through_skips_unprojected_field :
  pass_through projecting_config = true
  ∧ (run_strategy projecting_config 0 1%Z
       (strategy_input projecting_config [wide]) (start accept_all)).1
    = Ok (Some (acc 1), Q2Qc 1)
  ∧ (process_group projecting_config 0 1%Z [wide] (start accept_all)).1
    = Ok (Some (<["x" := 10%Z]> (acc 1)), Q2Qc 1)
  ∧ wide !! "y" = Some 20%Z
  ∧ output_schema projecting_config !! "y" = None
  ∧ acc 1 !! "y" = None
  ∧ <["x" := 10%Z]> (acc 1) !! "y" = None.
Proof. repeat split; by_evaluation. Qed.

Lemma pass_through_copies_from_projected_first_witness :
  ∃ final,
    (process_group projecting_config 0 1%Z [wide] (start accept_all)).1
    = Ok (Some final, Q2Qc 1)
    ∧ final !! "n" = Some 1%Z
    ∧ final !! "x" = Some 10%Z
    ∧ final !! "y" = None.
Proof.
  destruct (pass_through_copies_from_projected_first projecting_config 0 1%Z
              wide [] (start accept_all)
              (run_strategy projecting_config 0 1%Z
                 (strategy_input projecting_config [wide])
                 (start accept_all)).2
              (acc 1) (Q2Qc 1))
    as (final & Hrun & Hfield & _).
  - by_evaluation.
  - apply run_eta. by_evaluation.
  - exists final. split; [by rewrite Hrun|].
    rewrite !Hfield. repeat split; by_evaluation.
Defined.

(** *** Cost *)

Lemma execute_cost_is_sum_of_calls_witness :
  (execute (H1:=lifo_scheduler) Z.ltb (merge_config 2) 20
     (seven ++ [item 2 8; item 2 9]) (start accept_all)).1
  = Ok ([out 2 2; out 1 7], Q2Qc 14)
  ∧ Q2Qc 14
    = sum_costs
        (call_cost
           <$> calls (execute (H1:=lifo_scheduler) Z.ltb (merge_config 2) 20
                        (seven ++ [item 2 8; item 2 9]) (start accept_all)).2).
Proof.
  assert ((execute (H1:=lifo_scheduler) Z.ltb (merge_config 2) 20
             (seven ++ [item 2 8; item 2 9]) (start accept_all)).1
          = Ok ([out 2 2; out 1 7], Q2Qc 14)) as Hrun by by_evaluation.
  split; [exact Hrun|].
  eapply (execute_cost_is_sum_of_calls (H0:=lifo_scheduler) Z.ltb
            (merge_config 2) 20 (seven ++ [item 2 8; item 2 9])
            (start accept_all)).
  - apply run_eta. exact Hrun.
  - reflexivity.
Defined.

(** The calls of that execution.  The second group completes first: one
    lane, a batch reduce and a fold.  The first group has four lanes: four
    batch reduces and two merges, then two folds, a batch reduce and two
    merges, and the final merge of the two accumulators left.  Fourteen
    calls in all. *)
Example execute_calls_of_two_groups :
  call_op_type
    <$> calls (execute (H1:=lifo_scheduler) Z.ltb (merge_config 2) 20
                 (seven ++ [item 2 8; item 2 9]) (start accept_all)).2
  = ["reduce"; "reduce"; "reduce"; "reduce"; "reduce"; "reduce"; "merge";
     "merge"; "reduce"; "reduce"; "reduce"; "merge"; "merge"; "merge"].
Proof. by_evaluation. Qed.

(** The cost of a call whose record fails validation is counted: with
    every merge that yields the number 2 rejected, the cost is still that
    of all eleven calls made. *)
Example execute_counts_rejected_calls :
  (execute Z.ltb (merge_config 2) 20 seven (start (reject 2))).1
  = Ok ([acc 1], Q2Qc 11)
  ∧ length (calls (execute Z.ltb (merge_config 2) 20 seven
                     (start (reject 2))).2) = 11.
Proof. split; by_evaluation. Qed.

(** A batch reduce with gleaning costs what the gleaning variant reports
    (here one unit a round) and the cost of the response it returns. *)
Example batch_reduce_with_gleaning :
  (_batch_reduce (H0:=service accept_all)
     (@Build_Config Binary64 "g" "reduce" {[ "n" := "int" ]} ∅ None 3 None 2
        None None false (Some ("check", 2%Z)) "model")
     1%Z seven (start accept_all)).1
  = Ok (Some (acc 7), Q2Qc 3).
Proof. by_evaluation. Qed.

(** *** Further properties *)

Lemma execute_keeps_windows_bounded_witness :
  windows_bounded (start accept_all)
  ∧ windows_bounded
      (execute Z.ltb (merge_config 2) 20 seven (start accept_all)).2.
Proof.
  assert (windows_bounded (start accept_all)) as Hinit
    by (split; simpl; unfold max_samples; lia).
  split; [exact Hinit|].
  exact (execute_keeps_windows_bounded Z.ltb (merge_config 2) 20 seven
           (start accept_all) Hinit).
Defined.

(** Twelve hundred durations: the window holds the last thousand. *)
Example fold_window_of_twelve_hundred :
  length (fold_times
            (record_folds (ModelService0:=service accept_all)
               (replicate 1200 (@float_of_int Binary64 1)) init)) = 1000.
Proof. by_evaluation. Qed.

(** Five records of two groups, reduced in one batch each: the first
    result holds the key 1 and the second the key 2, as the groups that
    completed in that order. *)
Lemma results_carry_group_key_witness :
  ∃ groups order outs,
    grouping Z.ltb batch_config mixed (start accept_all)
    = (Ok groups, start accept_all)
    ∧ order ≡ₚ groups
    ∧ as_completed _ (length (calls (start accept_all)))
        ((λ kg, process_group (H0:=service accept_all) batch_config 10
                  kg.1 kg.2) <$> groups)
      = (λ kg, process_group batch_config 10 kg.1 kg.2) <$> order
    ∧ sequence ((λ kg, process_group batch_config 10 kg.1 kg.2) <$> order)
        (start accept_all)
      = (Ok outs, (execute Z.ltb batch_config 10 mixed (start accept_all)).2)
    ∧ Forall2 (λ kg out,
                 (∃ item, item ∈ mixed
                          ∧ item !! reduce_key batch_config = Some kg.1)
                 ∧ ∀ r, out.1 = Some r →
                        r !! reduce_key batch_config = Some kg.1)
        order outs
    ∧ [out 1 3; out 2 2] = omap fst outs.
Proof.
  apply (results_carry_group_key Z.ltb batch_config 10 mixed
           (start accept_all)
           (execute Z.ltb batch_config 10 mixed (start accept_all)).2
           [out 1 3; out 2 2] (Q2Qc 2)).
  apply run_eta. by_evaluation.
Defined.

(** With the groups completing in the reverse order the results come in
    the reverse order, each with the key of its own group. *)
Example results_in_completion_order :
  (execute (H1:=lifo_scheduler) Z.ltb batch_config 10 mixed
     (start accept_all)).1
  = Ok ([out 2 2; out 1 3], Q2Qc 2)
  ∧ (execute (H1:=fifo_scheduler) Z.ltb batch_config 10 mixed
       (start accept_all)).1
    = Ok ([out 1 3; out 2 2], Q2Qc 2).
Proof. split; by_evaluation. Qed.

Lemma batch_strategy_calls_once_per_group_witness :
  ∃ groups,
    grouping Z.ltb batch_config mixed (start accept_all)
    = (Ok groups, start accept_all)
    ∧ length (calls (execute Z.ltb batch_config 10 mixed
                       (start accept_all)).2)
      = length (calls (start accept_all)) + length groups
    ∧ fold_times (execute Z.ltb batch_config 10 mixed (start accept_all)).2
      = fold_times (start accept_all)
    ∧ merge_times (execute Z.ltb batch_config 10 mixed (start accept_all)).2
      = merge_times (start accept_all)
    ∧ length [out 1 3; out 2 2] ≤ length groups.
Proof.
  apply (batch_strategy_calls_once_per_group Z.ltb batch_config 10 mixed
           (start accept_all)
           (execute Z.ltb batch_config 10 mixed (start accept_all)).2
           [out 1 3; out 2 2] (Q2Qc 2) eq_refl eq_refl).
  apply run_eta. by_evaluation.
Defined.

Lemma incremental_reduce_calls_once_per_batch_witness :
  length (calls (_incremental_reduce incremental_config 1%Z seven
                   (start accept_all)).2)
  = length (calls (start accept_all)) + (length seven + 3 - 1) / 3.
Proof.
  destruct (incremental_reduce_calls_once_per_batch incremental_config 1%Z
              seven (start accept_all)
              (_incremental_reduce incremental_config 1%Z seven
                 (start accept_all)).2
              (Some (acc 7)) (Q2Qc 3))
    as (_ & Hexact & _).
  - simpl. lia.
  - apply run_eta. by_evaluation.
  - apply Hexact. by eexists.
Defined.

Lemma groups_keep_input_order_witness :
  ∃ groups,
    grouping Z.ltb batch_config mixed (start accept_all)
    = (Ok groups, start accept_all)
    ∧ Forall (λ kg, kg.2 = filter (λ r : gmap string Z,
                                     r !! reduce_key batch_config = Some kg.1)
                             mixed) groups.
Proof.
  apply (groups_keep_input_order Z.ltb batch_config mixed (start accept_all)
           Z_ltb_strict_total_order).
  repeat (constructor; [by eexists|]). constructor.
Defined.

Lemma fold_loop_stops_merging_early_witness :
  only_folds warm
    (fold_merge_loop roomy_config 20 1%Z seven 2%Z true seven [] 0%Qc warm).2.
Proof.
  apply (fold_loop_stops_merging_early roomy_config 20 1%Z seven 2%Z true
           seven [] 0%Qc warm).
  simpl. unfold min_samples. lia.
Defined.

(** With five merge samples the loop over seven records makes three
    calls, all folds; with none it merges the two lane accumulators of its
    first round, a fourth call. *)
Example fold_loop_with_and_without_samples :
  call_op_type
    <$> calls (fold_merge_loop roomy_config 20 1%Z seven 2%Z true seven []
                 0%Qc warm).2
  = ["reduce"; "reduce"; "reduce"]
  ∧ call_op_type
      <$> calls (fold_merge_loop roomy_config 20 1%Z seven 2%Z true seven []
                   0%Qc (start accept_all)).2
    = ["reduce"; "reduce"; "merge"; "reduce"].
Proof. split; by_evaluation. Qed.

Lemma fold_phase_calls_once_per_lane_witness :
  ∃ result st' new,
    fold_phase roomy_config 1%Z 2%Z [item 1 1; item 1 2] [] 0%Qc
      (start accept_all) = (Ok result, st')
    ∧ calls st' = calls (start accept_all) ++ new
    ∧ length new = 2
    ∧ call_values <$> new
      ≡ₚ (λ i, take 3 (drop (i * 3) [item 1 1; item 1 2])) <$> seq 0 2
    ∧ (∀ i, (2 + 3 - 1) / 3 ≤ i →
            take 3 (drop (i * 3) [item 1 1; item 1 2]) = []).
Proof.
  apply (fold_phase_calls_once_per_lane roomy_config 1%Z 2%Z
           [item 1 1; item 1 2] [] 0%Qc (start accept_all)).
  by eexists.
Defined.

(** Two records, batches of three and two lanes: the first lane folds
    both records, the second is called with no record at all, and its
    answer becomes a lane accumulator like the other. *)
Example fold_phase_calls_on_empty_batch :
  call_size
    <$> calls (fold_phase roomy_config 1%Z 2%Z [item 1 1; item 1 2] [] 0%Qc
                 (start accept_all)).2
  = [2; 0]
  ∧ (fold_phase roomy_config 1%Z 2%Z [item 1 1; item 1 2] [] 0%Qc
       (start accept_all)).1
    = Ok ([], [acc 2; acc 0], Q2Qc 2).
Proof. split; by_evaluation. Qed.

(** *** The configuration check *)

(** [fold_batch_size: true] and [merge_batch_size: 1] pass the check. *)
Example syntax_check_accepts_unit_merge_batches :
  syntax_check all_names no_gleaning unit_merge_config = inr ().
Proof. by_evaluation. Qed.

Lemma syntax_check_raises_value_or_type_error_witness :
  ConfigTypeError = ConfigValueError
  ∨ ConfigTypeError = ConfigTypeError
  ∨ no_gleaning string_output_config = inl ConfigTypeError.
Proof.
  apply (syntax_check_raises_value_or_type_error all_names no_gleaning
           string_output_config ConfigTypeError).
  by_evaluation.
Defined.

Lemma accepted_config_is_well_formed_witness : well_formed (merge_config 1).
Proof.
  apply (accepted_config_is_well_formed all_names no_gleaning
           unit_merge_config (merge_config 1)).
  - by_evaluation.
  - assert (unit_merge_config !! "fold_batch_size" = Some (PyBool true))
      as Hfold by by_evaluation.
    assert (unit_merge_config !! "merge_batch_size" = Some (PyInt 1))
      as Hmerge by by_evaluation.
    split; [|split; [|split]].
    + split; intros _; by eexists.
    + split; intros _; by eexists.
    + intros v Hv. rewrite Hfold in Hv. by injection Hv as <-.
    + intros v Hv. rewrite Hmerge in Hv. by injection Hv as <-.
Defined.

(** *** Real durations *)

Lemma positive_merge_times_at_start :
  positive_merge_times timed_config real_start.
Proof.
  split; [|split].
  - intros t [= <-]. lra.
  - constructor.
  - intros n. simpl. lra.
Qed.

Lemma lane_estimate_divisor_is_positive_witness :
  positive_merge_times timed_config
    (execute Z.ltb timed_config 20 seven real_start).2.
Proof.
  destruct (lane_estimate_divisor_is_positive Z.ltb timed_config 20 seven
              real_start positive_merge_times_at_start)
    as [Hkept _]; [simpl; lia | exact Hkept].
Defined.

(** *** Executions with fixed times *)

Lemma clocked_config_terminating : terminating clocked_config.
Proof.
  split; [split|]; intros _; [split; [by eexists|]|..]; simpl; lia.
Qed.

(** With fixed times of 2 and 1 seconds the lane estimate of a group of at
    most seven records returns, in every state. *)
Lemma clocked_estimate_defined :
  is_Some (merge_prompt clocked_config) →
  estimate_defined (ModelService0:=service accept_all) clocked_config
    windows_bounded 7.
Proof.
  intros _ st group_list _ Hlen.
  do 8 (destruct group_list as [|? group_list];
        [apply calculate_returned; by_evaluation|]).
  simpl in Hlen. lia.
Qed.

Lemma start_windows_bounded : windows_bounded (start accept_all).
Proof. split; simpl; unfold max_samples; lia. Qed.

Lemma execute_terminates_witness :
  ∃ result st',
    execute Z.ltb clocked_config 20 seven (start accept_all)
    = (Ok result, st')
    ∧ windows_bounded st'.
Proof.
  apply (execute_terminates Z.ltb clocked_config windows_bounded
           windows_bounded_log (λ n, windows_bounded_fold _)
           (λ n, windows_bounded_merge _) 7 clocked_estimate_defined
           20 seven (start accept_all)).
  - exact clocked_config_terminating.
  - repeat (constructor; [by eexists|]). constructor.
  - simpl. lia.
  - simpl. lia.
  - exact start_windows_bounded.
Defined.

(** That execution in full: nine lanes for seven records, so seven batch
    reduces, merges of the seven accumulators in pairs, and the final
    merge in two rounds; one record, fourteen calls. *)
Example execute_with_fixed_times :
  (execute Z.ltb clocked_config 20 seven (start accept_all)).1
  = Ok ([acc 7], Q2Qc 14)
  ∧ call_op_type
      <$> calls (execute Z.ltb clocked_config 20 seven (start accept_all)).2
    = ["reduce"; "reduce"; "reduce"; "reduce"; "reduce"; "reduce"; "reduce";
       "merge"; "merge"; "merge"; "merge"; "merge"; "merge"; "merge"].
Proof. split; by_evaluation. Qed.

Lemma accepted_answers_give_one_record_per_group_witness :
  ∃ groups order results total_cost st',
    grouping Z.ltb clocked_config mixed (start accept_all)
    = (Ok groups, start accept_all)
    ∧ order ≡ₚ groups
    ∧ as_completed _ (length (calls (start accept_all)))
        ((λ kg, process_group (H0:=service accept_all) clocked_config 10
                  kg.1 kg.2) <$> groups)
      = (λ kg, process_group clocked_config 10 kg.1 kg.2) <$> order
    ∧ execute Z.ltb clocked_config 10 mixed (start accept_all)
      = (Ok (results, total_cost), st')
    ∧ length results = length groups
    ∧ (λ r : gmap string Z, r !! reduce_key clocked_config) <$> results
      = Some <$> order.*1.
Proof.
  apply (accepted_answers_give_one_record_per_group Z.ltb clocked_config
           windows_bounded windows_bounded_log
           (λ n, windows_bounded_fold _) (λ n, windows_bounded_merge _)
           7 clocked_estimate_defined 10 mixed (start accept_all)
           (λ r, eq_refl)).
  - exact clocked_config_terminating.
  - repeat (constructor; [by eexists|]). constructor.
  - simpl. lia.
  - simpl. lia.
  - exact start_windows_bounded.
Defined.

(** The records of that execution, and of the one in which the groups
    complete in the reverse order. *)
Example one_record_per_group_of_mixed :
  (execute Z.ltb clocked_config 10 mixed (start accept_all)).1
  = Ok ([out 1 3; out 2 2], Q2Qc 9)
  ∧ (execute (H1:=lifo_scheduler) Z.ltb clocked_config 10 mixed
       (start accept_all)).1
    = Ok ([out 2 2; out 1 3], Q2Qc 9).
Proof. split; by_evaluation. Qed.

(** With a merge time of zero the lane estimate of the first group
    divides by zero: [execute] raises [ZeroDivisionError] before any call
    is made. *)
Lemma execute_raises_for_key_or_estimate_witness :
  execute Z.ltb stalled_config 10 mixed (start accept_all)
  = (Raise (ZeroDivisionError "float division by zero"), start accept_all)
  ∧ ((ZeroDivisionError "float division by zero"
      = KeyError (reduce_key stalled_config)
      ∧ Exists (λ r, r !! reduce_key stalled_config = None) mixed
      ∧ start accept_all = start accept_all)
     ∨ (is_Some (merge_prompt stalled_config)
        ∧ Forall (λ r, is_Some (r !! reduce_key stalled_config)) mixed
        ∧ estimate_error (ZeroDivisionError "float division by zero")
        ∧ ∃ group_list,
            calculate_num_parallel_folds stalled_config group_list
              (start accept_all)
            = (Raise (ZeroDivisionError "float division by zero"),
               start accept_all))).
Proof.
  assert (execute Z.ltb stalled_config 10 mixed (start accept_all)
          = (Raise (ZeroDivisionError "float division by zero"),
             start accept_all)) as Hrun by by_evaluation.
  split; [exact Hrun|].
  apply (execute_raises_for_key_or_estimate Z.ltb stalled_config 10 mixed
           (start accept_all) (start accept_all)
           (ZeroDivisionError "float division by zero")).
  - split; intros _; [split; [by eexists|]|]; simpl; lia.
  - exact Hrun.
Defined.

(** The two cases side by side: a record without the reduce key, and a
    fold time of [1e308] with a hundred records. *)
Example execute_raises_in_two_cases :
  (execute Z.ltb stalled_config 10 gapped (start accept_all)).1
  = Raise (KeyError "g")
  ∧ (execute Z.ltb huge_config 100 hundred (start accept_all)).1
    = Raise (OverflowError "cannot convert float infinity to integer").
Proof. split; by_evaluation. Qed.
